(** * A session server for shared terminals: model and verification

    The development follows [server.js]:
    - [Buffer]: the operations of Node's byte buffers that the server calls;
    - [RingBuffer]: the bounded scroll-back store of one session;
    - the allocator of display names ([getNextSessionNumber]);
    - the registry of sessions, the handlers of the socket events and the
      handlers of the events of the terminal processes.

    JavaScript numbers are modelled by [Z]: every number of the program is an
    integer far below 2^53, where the arithmetic of doubles is exact.  The
    operator [%] is [Z.rem] (sign of the dividend).  A string is modelled by
    the bytes of its UTF-8 encoding.

    Node runs one handler at a time, to completion: the server is modelled
    as a state and one function of the state per handler, and its life as a
    list of events.  Console output is not part of the model, nor are the
    handlers [fs-list], [fs-read] and [get-sys-info], which read the host and
    touch nothing of this state. *)

From Stdlib Require Import ZArith Lia Strings.Ascii Strings.Byte Strings.String.
From stdpp Require Import base option list list_numbers strings pretty sorting gmap.

Local Open Scope Z_scope.

(** ** Completions of a method that may throw *)

(** [Normal a]: the call returned, the receiver is [a] afterwards.
    [Thrown a]: the call raised, the receiver was left as [a]. *)
Inductive completion (A : Type) : Type :=
  | Normal (a : A)
  | Thrown (a : A).
Arguments Normal {A} a.
Arguments Thrown {A} a.

(** An access that a method asks of the backing storage: [count] bytes from
    index [pos] on. *)
Inductive access : Type :=
  | Read (pos count : Z)
  | Write (pos count : Z).

Definition access_pos (a : access) : Z :=
  match a with Read p _ | Write p _ => p end.
Definition access_count (a : access) : Z :=
  match a with Read _ c | Write _ c => c end.

(** Every index the access touches lies in [[0, C)]. *)
Definition access_within (C : Z) (a : access) : Prop :=
  ∀ i, access_pos a ≤ i < access_pos a + access_count a → 0 ≤ i < C.

(** ** Node's [Buffer] *)

Module Buffer.

Abbreviation t := (list byte).

Definition length (b : t) : Z := Z.of_nat (List.length b).

(** [Buffer.allocUnsafe(size)]: [size] bytes of whatever the allocator
    hands out; [junk] is that uninitialised memory. *)
Fixpoint alloc_from (junk : Z → byte) (i : Z) (size : nat) : t :=
  match size with
  | O => []
  | S size' => junk i :: alloc_from junk (i + 1) size'
  end.

Definition allocUnsafe (junk : Z → byte) (size : Z) : t :=
  alloc_from junk 0 (Z.to_nat size).

(** [Buffer.from(String(input), 'utf8')]: a string of the model is the
    sequence of the bytes of its UTF-8 encoding. *)
Definition from (input : string) : t := list_byte_of_string input.

(** An index argument of [slice]: a negative one counts from the end, and
    the result is clamped to [[0, length]]. *)
Definition slice_index (len i : Z) : Z :=
  if i <? 0 then Z.max (len + i) 0 else Z.min i len.

(** [b.slice(start, end)] *)
Definition slice (b : t) (start end_ : Z) : t :=
  let s := slice_index (length b) start in
  let e := slice_index (length b) end_ in
  take (Z.to_nat (e - s)) (drop (Z.to_nat s) b).

(** [Buffer.concat(list)] *)
Definition concat (l : list t) : t := mjoin l.

(** [source.copy(target, targetStart, sourceStart, sourceEnd)]: the target
    afterwards, or [None] for the [RangeError] of an argument out of range.
    The copy is cut to what is left of the target and of the source. *)
Definition copy (source target : t) (targetStart sourceStart sourceEnd : Z)
    : option t :=
  if (targetStart <? 0) || (sourceStart <? 0)
     || (length source <? sourceStart) || (sourceEnd <? 0)
  then None
  else if (length target <=? targetStart) || (sourceEnd <=? sourceStart)
  then Some target
  else
    let nb := Z.min (Z.min (sourceEnd - sourceStart)
                           (length target - targetStart))
                    (length source - sourceStart) in
    Some (take (Z.to_nat targetStart) target
            ++ take (Z.to_nat nb) (drop (Z.to_nat sourceStart) source)
            ++ drop (Z.to_nat (targetStart + nb)) target).

End Buffer.

(** ** [class RingBuffer] *)

Module RingBuffer.

Record t : Type := mk {
  buf : Buffer.t;
  limit : Z;
  start : Z;
  len : Z
}.

(** [constructor(limitBytes)] *)
Definition constructor (junk : Z → byte) (limitBytes : Z) : t :=
  {| buf := Buffer.allocUnsafe junk limitBytes;
     limit := limitBytes;
     start := 0;
     len := 0 |}.

(** [append(input)], for an [input] that is a buffer, together with the
    writes it asks of [this.buf], in program order. *)
Definition append_log (this : t) (b : Buffer.t)
    : completion t * list access :=
  let blen := Buffer.length b in
  if limit this <=? blen then
    let w := Write 0 (blen - (blen - limit this)) in
    match Buffer.copy b (buf this) 0 (blen - limit this) blen with
    | None => (Thrown this, [w])
    | Some buf' =>
        (Normal {| buf := buf'; limit := limit this;
                   start := 0; len := limit this |}, [w])
    end
  else
    let free := limit this - len this in
    let '(start1, len1) :=
      if free <? blen
      then (Z.rem (start this + (blen - free)) (limit this), limit this)
      else (start this, len this + blen) in
    let writePos := Z.rem (start1 + len1 - blen) (limit this) in
    let firstPart := Z.min blen (limit this - writePos) in
    let w1 := Write writePos (firstPart - 0) in
    match Buffer.copy b (buf this) writePos 0 firstPart with
    | None =>
        (Thrown {| buf := buf this; limit := limit this;
                   start := start1; len := len1 |}, [w1])
    | Some buf1 =>
        if firstPart <? blen then
          let w2 := Write 0 (blen - firstPart) in
          match Buffer.copy b buf1 0 firstPart blen with
          | None =>
              (Thrown {| buf := buf1; limit := limit this;
                         start := start1; len := len1 |}, [w1; w2])
          | Some buf2 =>
              (Normal {| buf := buf2; limit := limit this;
                         start := start1; len := len1 |}, [w1; w2])
          end
        else
          (Normal {| buf := buf1; limit := limit this;
                     start := start1; len := len1 |}, [w1])
    end.

Definition append (this : t) (b : Buffer.t) : completion t :=
  fst (append_log this b).

(** [append(input)] for an [input] that is not a buffer. *)
Definition append_string (this : t) (input : string) : completion t :=
  append this (Buffer.from input).

(** [toString(enc)], with the reads it asks of [this.buf]; [enc] is the
    decoder that [Buffer.prototype.toString] applies. *)
Definition toString_log (enc : Buffer.t → string) (this : t)
    : string * list access :=
  if len this =? 0 then (EmptyString, [])
  else if start this + len this <=? limit this then
    (enc (Buffer.slice (buf this) (start this) (start this + len this)),
     [Read (start this) (start this + len this - start this)])
  else
    let tailLen := (start this + len this) - limit this in
    (enc (Buffer.concat [Buffer.slice (buf this) (start this) (limit this);
                         Buffer.slice (buf this) 0 tailLen]),
     [Read (start this) (limit this - start this); Read 0 (tailLen - 0)]).

Definition toString (enc : Buffer.t → string) (this : t) : string :=
  fst (toString_log enc this).

(** A call of [toString] as a method: the result, and the receiver
    afterwards.  The body assigns to no field and writes to no buffer
    ([slice] is a view, [concat] allocates). *)
Definition toString_call (enc : Buffer.t → string) (this : t)
    : string * t :=
  (toString enc this, this).

(** A sequence of appends; it stops at the first one that throws. *)
Fixpoint appends (this : t) (chunks : list Buffer.t) : completion t :=
  match chunks with
  | [] => Normal this
  | b :: rest =>
      match append this b with
      | Normal this' => appends this' rest
      | Thrown this' => Thrown this'
      end
  end.

(** The representation invariant of the class. *)
Definition rep_inv (C : Z) (this : t) : Prop :=
  (0 ≤ start this < C) ∧ (0 ≤ len this ≤ C).

(** The shape of the object: its capacity and the size of its storage
    never change after construction. *)
Definition shape (C : Z) (this : t) : Prop :=
  limit this = C ∧ Buffer.length (buf this) = C.

Definition inv (C : Z) (this : t) : Prop := shape C this ∧ rep_inv C this.

(** The logical content: the [len] bytes found from [start] on, going
    round the end of the storage. *)
Definition contents (this : t) : Buffer.t :=
  take (Z.to_nat (len this))
       (drop (Z.to_nat (start this)) (buf this)
          ++ take (Z.to_nat (start this)) (buf this)).

End RingBuffer.

(** The last [n] elements of a list (all of it when it is shorter). *)
Definition lastn {A} (n : nat) (l : list A) : list A :=
  drop (List.length l - n) l.


(** ** Display names *)

(** [\d]: an ASCII decimal digit. *)
Definition is_digit (c : ascii) : bool :=
  ((48 <=? nat_of_ascii c) && (nat_of_ascii c <=? 57))%nat.

Definition digit_value (c : ascii) : Z := Z.of_nat (nat_of_ascii c) - 48.

(** [\d+$] on what is left of the input. *)
Fixpoint all_digits (s : string) : bool :=
  match s with
  | EmptyString => true
  | String c s' => is_digit c && all_digits s'
  end.

(** [name.match(/^Term (\d+)$/)]: the captured group, or [None] for [null]. *)
Definition match_Term (name : string) : option string :=
  match name with
  | String "T" (String "e" (String "r" (String "m" (String " " digits)))) =>
      match digits with
      | EmptyString => None
      | _ => if all_digits digits then Some digits else None
      end
  | _ => None
  end.

(** [parseInt(digits, 10)] on a string of decimal digits.  The value is kept
    exact (a double rounds it from 2^53 on). *)
Fixpoint parseInt_from (acc : Z) (digits : string) : Z :=
  match digits with
  | EmptyString => acc
  | String c s' => parseInt_from (10 * acc + digit_value c) s'
  end.

Definition parseInt (digits : string) : Z := parseInt_from 0 digits.

(** The callback of [.map] in [getNextSessionNumber]. *)
Definition used_number (name : string) : option Z :=
  parseInt <$> match_Term name.

(** The [for] loop of [getNextSessionNumber] over what is left of
    [usedNumbers]. *)
Fixpoint scan_used (nextNumber : Z) (usedNumbers : list Z) : Z :=
  match usedNumbers with
  | [] => nextNumber
  | num :: rest =>
      if num =? nextNumber then scan_used (nextNumber + 1) rest
      else nextNumber
  end.

(** [getNextSessionNumber()], as a function of the names of the registered
    sessions (the [.map(s => ...s.name...)] of the values of [sessions]).
    [.filter(n => n !== null)] is the [omap]; [.sort((a, b) => a - b)] sorts
    in increasing order. *)
Definition next_number (names : list string) : Z :=
  let usedNumbers := merge_sort Z.le (omap used_number names) in
  scan_used 1 usedNumbers.

(** [`Term ${sessionNumber}`] *)
Definition Term_name (sessionNumber : Z) : string :=
  "Term " +:+ pretty sessionNumber.

(** The numbers carried by the names of the format
    ["Term <positive integer>"]. *)
Definition carried (names : list string) : list Z :=
  filter (λ k, 1 ≤ k) (omap used_number names).

(** [k] is the smallest positive integer that no name of the format
    carries. *)
Definition smallest_unused (names : list string) (k : Z) : Prop :=
  1 ≤ k ∧ (k ∉ carried names) ∧ (∀ j, 1 ≤ j < k → j ∈ carried names).

(** ** The server *)

(** [const sessions = new Map()]: entries in insertion order. *)
Fixpoint Map_get {V} (k : string) (m : list (string * V)) : option V :=
  match m with
  | [] => None
  | (k', v) :: m' => if decide (k = k') then Some v else Map_get k m'
  end.

Fixpoint Map_set {V} (k : string) (v : V) (m : list (string * V))
    : list (string * V) :=
  match m with
  | [] => [(k, v)]
  | (k', v') :: m' =>
      if decide (k = k') then (k, v) :: m' else (k', v') :: Map_set k v m'
  end.

Definition Map_delete {V} (k : string) (m : list (string * V))
    : list (string * V) :=
  filter (λ kv, kv.1 ≠ k) m.

Definition Map_values {V} (m : list (string * V)) : list V := m.*2.

Definition Map_size {V} (m : list (string * V)) : Z := Z.of_nat (length m).

(** The terminal process behind a handle of [node-pty]: whether it still
    runs, its geometry, and what was written to it. *)
Module Pty.
Record t : Type := mk {
  alive : bool;
  cols : Z;
  rows : Z;
  written : list string
}.

(** [pty.spawn(SHELL, [], { cols: 80, rows: 30, ... })], when it returns. *)
Definition spawn : t :=
  {| alive := true; cols := 80; rows := 30; written := [] |}.

(** [pty.write(data)]: a process that has gone receives nothing. *)
Definition write (data : string) (p : t) : t :=
  if alive p
  then {| alive := true; cols := cols p; rows := rows p;
          written := written p ++ [data] |}
  else p.

(** [pty.resize(cols, rows)]: [None] when it throws, which it does for a
    process that has gone and for a geometry that is not positive. *)
Definition resize (c r : Z) (p : t) : option t :=
  if alive p && (0 <? c) && (0 <? r)
  then Some {| alive := true; cols := c; rows := r; written := written p |}
  else None.

Definition exited (p : t) : t :=
  {| alive := false; cols := cols p; rows := rows p; written := written p |}.
End Pty.

(** The object [session] of [createSession]; [pty] is the handle of its
    process. *)
Module Session.
Record t : Type := mk {
  id : string;
  name : string;
  pty : nat;
  history : RingBuffer.t
}.

Definition with_history (h : RingBuffer.t) (s : t) : t :=
  {| id := id s; name := name s; pty := pty s; history := h |}.
End Session.

(** What a viewer receives. *)
Inductive message : Type :=
  | sessions_list (l : list (string * string))
  | history (sessionId : string) (h : string)
  | output (sessionId : string) (data : string)
  | session_closed (id : string)
  | created (id : string) (name : string).

Global Instance message_eq_dec : EqDecision message.
Proof. solve_decision. Defined.

(** A connected socket: the rooms it joined and the messages emitted to it,
    oldest first.  (The room that socket.io gives every socket under its own
    id is left out: socket ids and session ids are of different types.) *)
Module Socket.
Record t : Type := mk {
  rooms : gset string;
  received : list message
}.

Definition fresh : t := {| rooms := ∅; received := [] |}.

Definition join (room : string) (s : t) : t :=
  {| rooms := {[room]} ∪ rooms s; received := received s |}.

Definition emit (m : message) (s : t) : t :=
  {| rooms := rooms s; received := received s ++ [m] |}.
End Socket.

(** The state of the server.  A session object lives in [heap] from its
    construction on; [sessions] and the closures of the handlers refer to it
    by its index there, so that all of them see the same history. *)
Record server : Type := mk_server {
  ptys : list Pty.t;
  heap : list Session.t;
  sessions : list (string * nat);
  sockets : gmap nat Socket.t
}.

Definition HISTORY_LIMIT : Z := 1024 * 512.

Definition set_sockets (f : gmap nat Socket.t → gmap nat Socket.t)
    (st : server) : server :=
  {| ptys := ptys st; heap := heap st; sessions := sessions st;
     sockets := f (sockets st) |}.

(** [socket.emit(...)] *)
Definition socket_emit (socket : nat) (m : message) (st : server) : server :=
  set_sockets (alter (Socket.emit m) socket) st.

(** [socket.join(room)] *)
Definition socket_join (socket : nat) (room : string) (st : server)
    : server :=
  set_sockets (alter (Socket.join room) socket) st.

(** [io.emit(...)]: to every connected socket. *)
Definition io_emit (m : message) (st : server) : server :=
  set_sockets (fmap (Socket.emit m)) st.

(** [io.to(room).emit(...)]: to every socket in the room. *)
Definition io_to_emit (room : string) (m : message) (st : server) : server :=
  set_sockets
    (fmap (λ s, if decide (room ∈ Socket.rooms s) then Socket.emit m s else s))
    st.

(** [Array.from(sessions.values())] *)
Definition session_values (st : server) : list Session.t :=
  omap (λ ref, heap st !! ref) (Map_values (sessions st)).

Definition getNextSessionNumber (st : server) : Z :=
  next_number (Session.name <$> session_values st).

Section Server.

(** The uninitialised memory that [Buffer.allocUnsafe] hands out, and the
    decoder of [toString('utf8')]. *)
Context (junk : Z → byte) (utf8 : list byte → string).

(** [createSession()]: [id] is the result of [uuidv4()], [spawned] tells
    whether [pty.spawn] returned (or threw).  The result is the reference to
    the new session object, or [None] for [null]. *)
Definition createSession (id : string) (spawned : bool) (st : server)
    : option nat * server :=
  if spawned then
    let ptyProc := length (ptys st) in
    let sessionNumber := getNextSessionNumber st in
    let session :=
      {| Session.id := id;
         Session.name := Term_name sessionNumber;
         Session.pty := ptyProc;
         Session.history := RingBuffer.constructor junk HISTORY_LIMIT |} in
    let ref := length (heap st) in
    (Some ref,
     {| ptys := ptys st ++ [Pty.spawn];
        heap := heap st ++ [session];
        sessions := Map_set id ref (sessions st);
        sockets := sockets st |})
  else (None, st).

(** [ptyProc.on('data', ...)] of the session object [ref]. *)
Definition on_data (ref : nat) (d : string) (st : server) : server :=
  match heap st !! ref with
  | None => st
  | Some session =>
      let stored h :=
        {| ptys := ptys st;
           heap := <[ref := Session.with_history h session]> (heap st);
           sessions := sessions st;
           sockets := sockets st |} in
      match RingBuffer.append_string (Session.history session) d with
      | Normal h =>
          io_to_emit (Session.id session)
            (output (Session.id session) d) (stored h)
      | Thrown h => stored h
      end
  end.

(** [ptyProc.on('exit', ...)] of the session object [ref]. *)
Definition on_exit (ref : nat) (code : Z) (st : server) : server :=
  match heap st !! ref with
  | None => st
  | Some session =>
      io_emit (session_closed (Session.id session))
        {| ptys := ptys st; heap := heap st;
           sessions := Map_delete (Session.id session) (sessions st);
           sockets := sockets st |}
  end.

(** [io.on('connection', ...)], up to the registration of the handlers. *)
Definition on_connection (socket : nat) (st : server) : server :=
  let sessionList :=
    (λ s, (Session.id s, Session.name s)) <$> session_values st in
  socket_emit socket (sessions_list sessionList)
    (set_sockets (insert socket Socket.fresh) st).

(** [socket.on('subscribe-session', ...)].  [h.length] is zero exactly for
    the empty string. *)
Definition on_subscribe_session (socket : nat) (sessionId : string)
    (st : server) : server :=
  match Map_get sessionId (sessions st) ≫= (λ ref, heap st !! ref) with
  | Some session =>
      let st1 := socket_join socket sessionId st in
      let h := RingBuffer.toString utf8 (Session.history session) in
      if (String.length h =? 0)%nat then st1
      else socket_emit socket (history sessionId h) st1
  | None => st
  end.

(** [socket.on('create-session', ...)]; [callback] tells whether
    [typeof callback === 'function']. *)
Definition on_create_session (socket : nat) (callback : bool) (id : string)
    (spawned : bool) (st : server) : server :=
  let '(newSession, st1) := createSession id spawned st in
  match newSession ≫= (λ ref, heap st1 !! ref) with
  | Some session =>
      if callback
      then socket_emit socket
             (created (Session.id session) (Session.name session)) st1
      else st1
  | None => st1
  end.

Definition set_ptys (f : list Pty.t → list Pty.t) (st : server) : server :=
  {| ptys := f (ptys st); heap := heap st; sessions := sessions st;
     sockets := sockets st |}.

(** [socket.on('terminal-input', ...)], for a payload that is an object
    whose [data] is a string.  The handler destructures the payload and
    calls [write] outside any [try]: another payload can make it throw,
    which is not modelled. *)
Definition on_terminal_input (sessionId data : string) (st : server)
    : server :=
  match Map_get sessionId (sessions st) ≫= (λ ref, heap st !! ref) with
  | Some session =>
      set_ptys (alter (Pty.write data) (Session.pty session)) st
  | None => st
  end.

(** [socket.on('terminal-resize', ...)], for a payload that is an object
    with integers for [cols] and [rows]: what [resize] throws is caught and
    dropped.  The destructuring of the payload is outside the [try]. *)
Definition on_terminal_resize (sessionId : string) (cols rows : Z)
    (st : server) : server :=
  match Map_get sessionId (sessions st) ≫= (λ ref, heap st !! ref) with
  | Some session =>
      match ptys st !! Session.pty session ≫= Pty.resize cols rows with
      | Some p => set_ptys (<[Session.pty session := p]>) st
      | None => st
      end
  | None => st
  end.

(** The transport drops a socket that disconnects from every room. *)
Definition on_disconnect (socket : nat) (st : server) : server :=
  set_sockets (delete socket) st.

(** The module body: an empty registry, then
    [if (sessions.size === 0) createSession()]. *)
Definition empty_server : server :=
  {| ptys := []; heap := []; sessions := []; sockets := ∅ |}.

Definition startup (id : string) (spawned : bool) : server :=
  if Map_size (sessions empty_server) =? 0
  then (createSession id spawned empty_server).2
  else empty_server.

(** What happens to a running server. *)
Inductive event : Type :=
  | Connect (socket : nat)
  | Disconnect (socket : nat)
  | SubscribeSession (socket : nat) (sessionId : string)
  | CreateSession (socket : nat) (callback : bool) (id : string)
      (spawned : bool)
  | TerminalInput (socket : nat) (sessionId data : string)
  | TerminalResize (socket : nat) (sessionId : string) (cols rows : Z)
  | PtyData (ref : nat) (d : string)
  | PtyExit (ref : nat) (code : Z).

Definition connected (socket : nat) (st : server) : bool :=
  bool_decide (is_Some (sockets st !! socket)).

Definition running (ref : nat) (st : server) : bool :=
  match heap st !! ref ≫= (λ s, ptys st !! Session.pty s) with
  | Some p => Pty.alive p
  | None => false
  end.

(** What the collaborators guarantee: a socket id names one connection at a
    time and only a connected socket sends; [uuidv4()] never returns an id
    twice; a process emits data while it runs and exits once. *)
Definition enabled (e : event) (st : server) : bool :=
  match e with
  | Connect socket => negb (connected socket st)
  | Disconnect socket
  | SubscribeSession socket _
  | TerminalInput socket _ _
  | TerminalResize socket _ _ _ => connected socket st
  | CreateSession socket _ id _ =>
      connected socket st && bool_decide (id ∉ Session.id <$> heap st)
  | PtyData ref _ | PtyExit ref _ => running ref st
  end.

(** The handler that an event starts.  When the exit handler of a process
    runs, the process has gone. *)
Definition handle (e : event) (st : server) : server :=
  match e with
  | Connect socket => on_connection socket st
  | Disconnect socket => on_disconnect socket st
  | SubscribeSession socket sessionId =>
      on_subscribe_session socket sessionId st
  | CreateSession socket callback id spawned =>
      on_create_session socket callback id spawned st
  | TerminalInput _ sessionId data => on_terminal_input sessionId data st
  | TerminalResize _ sessionId cols rows =>
      on_terminal_resize sessionId cols rows st
  | PtyData ref d => on_data ref d st
  | PtyExit ref code =>
      on_exit ref code
        (match heap st !! ref with
         | Some s => set_ptys (alter Pty.exited (Session.pty s)) st
         | None => st
         end)
  end.

Definition step (e : event) (st : server) : option server :=
  if enabled e st then Some (handle e st) else None.

Fixpoint run (evs : list event) (st : server) : option server :=
  match evs with
  | [] => Some st
  | e :: rest => step e st ≫= run rest
  end.

(** The states a server can be in. *)
Definition reachable (st : server) : Prop :=
  ∃ id spawned evs, run evs (startup id spawned) = Some st.

End Server.

(** ** What a viewer observes, and the states the server keeps to *)

(** How often the closing of session [i] was announced in [l]. *)
Definition closed_count (i : string) (l : list message) : nat :=
  length (filter (λ m, m = session_closed i) l).

(** The live chunks of session [i] in [l], in order. *)
Definition outputs_of (i : string) (l : list message) : list string :=
  omap (λ m, match m with
             | output j d => if decide (j = i) then Some d else None
             | _ => None
             end) l.

(** The chunks that the process of the session object [ref] produces in
    [evs], in order. *)
Definition chunks_of (ref : nat) (evs : list event) : list string :=
  omap (λ e, match e with
             | PtyData r d => if decide (r = ref) then Some d else None
             | _ => None
             end) evs.

(** The socket does not disconnect during [evs]. *)
Definition stays (socket : nat) (evs : list event) : bool :=
  forallb (λ e, match e with
                | Disconnect s => negb (s =? socket)%nat
                | _ => true
                end) evs.

(** A message that is neither a live chunk nor the announcement of a
    closing. *)
Definition quiet (m : message) : Prop :=
  match m with
  | output _ _ | session_closed _ => False
  | _ => True
  end.

(** The invariant of the server: every session object has the process of
    its own index, ids are never reused, a registered session is one whose
    process runs, every history keeps the invariant of its buffer, the
    closing of a session is announced to a socket at most once, and only
    when the process of that session has gone, and the registry holds a key
    once. *)
Record wf (st : server) : Prop := mk_wf {
  wf_ptys : length (ptys st) = length (heap st);
  wf_pty : ∀ ref s, heap st !! ref = Some s → Session.pty s = ref;
  wf_ids : NoDup (Session.id <$> heap st);
  wf_registry : ∀ i ref,
    Map_get i (sessions st) = Some ref →
    running ref st = true ∧ Session.id <$> heap st !! ref = Some i;
  wf_history : ∀ ref s,
    heap st !! ref = Some s →
    RingBuffer.inv HISTORY_LIMIT (Session.history s);
  wf_closed : ∀ socket c i,
    sockets st !! socket = Some c →
    closed_count i (Socket.received c) = 0%nat
    ∨ (closed_count i (Socket.received c) = 1%nat
       ∧ ∃ ref s, heap st !! ref = Some s ∧ Session.id s = i
                  ∧ running ref st = false);
  wf_keys : NoDup (sessions st).*1
}.

(** What a later state keeps of an earlier one: the session objects with
    their ids and names, and the fact that a process has gone. *)
Definition extends (st st' : server) : Prop :=
  (∀ ref s, heap st !! ref = Some s →
     ∃ s', heap st' !! ref = Some s'
       ∧ Session.id s' = Session.id s ∧ Session.name s' = Session.name s)
  ∧ (∀ ref, is_Some (heap st !! ref) →
       running ref st = false → running ref st' = false).

(** What an event adds to the messages of a connected socket [c]. *)
Definition delta_spec (st : server) (e : event) (c : Socket.t)
    (Δ : list message) : Prop :=
  match e with
  | PtyData r d =>
      ∃ s, heap st !! r = Some s
        ∧ Δ = if decide (Session.id s ∈ Socket.rooms c)
              then [output (Session.id s) d] else []
  | PtyExit r _ =>
      ∃ s, heap st !! r = Some s ∧ Δ = [session_closed (Session.id s)]
  | _ => Forall quiet Δ
  end.

(** The display names of the registered sessions, in the order of the
    registry. *)
Definition registered_names (st : server) : list string :=
  Session.name <$> session_values st.

(** Every session object bears a name made by [createSession] from a
    positive number, and no two registered sessions bear the same name. *)
Definition names_ok (st : server) : Prop :=
  (∀ ref s, heap st !! ref = Some s →
     ∃ k, 1 ≤ k ∧ Session.name s = Term_name k)
  ∧ NoDup (registered_names st).

(** ** Inputs of the examples *)

(** The decoder of the examples: one character per byte. *)
Definition latin1 (b : Buffer.t) : string := string_of_list_byte b.

Definition zeroes : Z → byte := λ _, x00.

Definition after_appends (C : Z) (chunks : list string) : option string :=
  match RingBuffer.appends (RingBuffer.constructor zeroes C)
          (Buffer.from <$> chunks) with
  | Normal r => Some (RingBuffer.toString latin1 r)
  | Thrown _ => None
  end.

Definition sample_ring : RingBuffer.t :=
  match RingBuffer.appends (RingBuffer.constructor zeroes 4)
          [Buffer.from "ab"; Buffer.from "cde"] with
  | Normal r | Thrown r => r
  end.

(** A server that started with one session and to which two viewers
    connected and subscribed. *)
Definition sample_boot : server := startup zeroes "u1" true.

Definition sample_events : list event :=
  [Connect 7; Connect 8; SubscribeSession 7 "u1"; SubscribeSession 8 "u1"].

Definition sample_server : server :=
  default sample_boot (run zeroes latin1 sample_events sample_boot).

Definition sample_session : Session.t :=
  {| Session.id := "u1";
     Session.name := "Term 1";
     Session.pty := 0;
     Session.history := RingBuffer.constructor zeroes HISTORY_LIMIT |}.

Definition sample_viewer : Socket.t :=
  {| Socket.rooms := {["u1"]};
     Socket.received := [sessions_list [("u1", "Term 1")]] |}.

(** A server whose first session has produced ["hello"] before a viewer
    connected. *)
Definition busy_events : list event := [PtyData 0 "hello"; Connect 7].

Definition busy_server : server :=
  default sample_boot (run zeroes latin1 busy_events sample_boot).

Definition busy_session : Session.t :=
  default sample_session (heap busy_server !! 0%nat).

Definition busy_viewer : Socket.t :=
  {| Socket.rooms := ∅;
     Socket.received := [sessions_list [("u1", "Term 1")]] |}.

(** What socket [socket] has received after [evs], on a server that started
    with the session ["u1"]. *)
Definition received_after (evs : list event) (socket : nat)
    : option (list message) :=
  run zeroes latin1 evs sample_boot
    ≫= λ st, Socket.received <$> sockets st !! socket.

(** The registry after [evs], as ids and names. *)
Definition registry_after (evs : list event)
    : option (list (string * string)) :=
  (λ st, (λ s, (Session.id s, Session.name s)) <$> session_values st)
    <$> run zeroes latin1 evs sample_boot.

(** ** More of what the server keeps to *)

(** A session object whose process runs is registered under its id. *)
Definition live_registered (st : server) : Prop :=
  ∀ ref s, heap st !! ref = Some s → running ref st = true →
    Map_get (Session.id s) (sessions st) = Some ref.

(** The logical content of the history of the session object [ref]; nothing
    before the object exists. *)
Definition history_bytes (st : server) (ref : nat) : Buffer.t :=
  match heap st !! ref with
  | Some s => RingBuffer.contents (Session.history s)
  | None => []
  end.

(** A message about a session is for a socket that is in its room. *)
Definition relevant (c : Socket.t) (m : message) : Prop :=
  match m with
  | output i _ | history i _ => i ∈ Socket.rooms c
  | _ => True
  end.

Definition is_sessions_list (m : message) : Prop :=
  match m with sessions_list _ => True | _ => False end.

(** What a socket received starts with the list of sessions, holds no other
    such list, and holds chunks and replays only of sessions whose room the
    socket is in. *)
Definition socket_ok (c : Socket.t) : Prop :=
  Forall (relevant c) (Socket.received c)
  ∧ ∃ l rest, Socket.received c = sessions_list l :: rest
      ∧ Forall (λ m, ¬ is_sessions_list m) rest.

Definition sockets_ok (st : server) : Prop :=
  ∀ socket c, sockets st !! socket = Some c → socket_ok c.

(** No event of [evs] creates a session or is the exit of a process. *)
Definition viewer_only (evs : list event) : bool :=
  forallb (λ e, match e with
                | CreateSession _ _ _ true | PtyExit _ _ => false
                | _ => true
                end) evs.

(** The state after an event list that is known to run (the state itself
    when it does not). *)
Definition state_after (evs : list event) (st : server) : server :=
  default st (run zeroes latin1 evs st).

(** A server whose first session produces ["hi"] while socket 7 watches it
    and socket 8 does not. *)
Definition watch_events : list event :=
  [Connect 7; Connect 8; SubscribeSession 7 "u1"; PtyData 0 "hi"].

Definition watch_server : server := state_after watch_events sample_boot.

Definition watch_viewer : Socket.t :=
  {| Socket.rooms := {["u1"]};
     Socket.received :=
       [sessions_list [("u1", "Term 1")]; output "u1" "hi"] |}.

(** What input, resizing, subscriptions, connections and output leave as it
    is: the registry, the identity of every session object, and which
    processes run. *)
Definition keeps_sessions (st st' : server) : Prop :=
  sessions st' = sessions st
  ∧ Session.id <$> heap st' = Session.id <$> heap st
  ∧ Session.name <$> heap st' = Session.name <$> heap st
  ∧ Session.pty <$> heap st' = Session.pty <$> heap st
  ∧ ∀ n, Pty.alive <$> ptys st' !! n = Pty.alive <$> ptys st !! n.

(** Socket 7 types and resizes, socket 9 connects, socket 8 leaves. *)
Definition viewer_events : list event :=
  [TerminalInput 7 "u1" "ls"; TerminalResize 7 "u1" 120 40; Connect 9;
   Disconnect 8].

(** ** The file handlers of the server *)

(** An entry as [fs.readdir(..., { withFileTypes: true })] gives it: its
    name, and what [isDirectory()] answers. *)
Module Dirent.
Record t : Type := mk {
  name : string;
  directory : bool
}.

Definition isDirectory (d : t) : bool := directory d.
End Dirent.

(** An entry of the reply of [fs-list]. *)
Module Item.
Record t : Type := mk {
  name : string;
  isDirectory : bool
}.
End Item.

Inductive fs_reply : Type :=
  | fs_listing (path : string) (items : list Item.t)
  | fs_error (error : string).

(** [a || b], for [a] a string or [undefined]: the empty string is falsy. *)
Definition or_else (a : option string) (b : string) : string :=
  match a with
  | Some (String c s) => String c s
  | _ => b
  end.

(** [reqPath || (process.env.HOME || process.cwd())] *)
Definition targetPath (HOME : option string) (cwd : string)
    (reqPath : option string) : string :=
  or_else reqPath (or_else HOME cwd).

(** The comparator of [fs-list]. *)
Definition directories_first (a b : Item.t) : Z :=
  if Bool.eqb (Item.isDirectory a) (Item.isDirectory b) then 0
  else if Item.isDirectory a then -1 else 1.

(** [Array.prototype.sort(comparefn)]: a stable sort, which for a consistent
    comparator fixes the result.  It is computed by insertion from the
    right: an element goes before the first one that it does not follow. *)
Fixpoint sort_insert {A} (comparefn : A → A → Z) (x : A) (l : list A)
    : list A :=
  match l with
  | [] => [x]
  | y :: l' =>
      if comparefn x y <=? 0 then x :: l
      else y :: sort_insert comparefn x l'
  end.

Definition Array_sort {A} (comparefn : A → A → Z) (l : list A) : list A :=
  foldr (sort_insert comparefn) [] l.

(** [socket.on('fs-list', ...)], for a request that is an object:
    [readdir] is the file system, which gives the entries of a directory in
    some order or throws an error with a message; the result is what the
    callback is called with. *)
Definition fs_list (HOME : option string) (cwd : string)
    (readdir : string → string + list Dirent.t) (reqPath : option string)
    : fs_reply :=
  match readdir (targetPath HOME cwd reqPath) with
  | inr items =>
      let result :=
        (λ item, {| Item.name := Dirent.name item;
                    Item.isDirectory := Dirent.isDirectory item |})
          <$> items in
      fs_listing (targetPath HOME cwd reqPath)
        (Array_sort directories_first result)
  | inl message => fs_error message
  end.

(** A directory with two files and two directories, and nothing else on the
    disk. *)
Definition sample_readdir (p : string) : string + list Dirent.t :=
  if String.eqb p "/home/u"
  then inr [Dirent.mk "b.txt" false; Dirent.mk "src" true;
            Dirent.mk "a.txt" false; Dirent.mk "bin" true]
  else inl "ENOENT"%string.

(** ** The client: paths of the file manager *)






(** ** The client: a terminal window *)

(** The terminal of a window, as far as the client uses it: what was
    written to it since it was last reset. *)
Module Terminal.
Abbreviation t := (list string).

Definition write (data : string) (term : t) : t := term ++ [data].

Definition reset (term : t) : t := [].
End Terminal.

(** The handlers that [createTerminalWindow] registers for the session
    [sessionId], applied to the fields of the message. *)
Definition dataHandler (sessionId : string) (msg_sessionId data : string)
    (term : Terminal.t) : Terminal.t :=
  if decide (msg_sessionId = sessionId) then Terminal.write data term
  else term.

Definition historyHandler (sessionId : string)
    (msg_sessionId history : string) (term : Terminal.t) : Terminal.t :=
  if decide (msg_sessionId = sessionId)
  then Terminal.write history (Terminal.reset term)
  else term.

(** What a message that the socket receives does to the terminal: the
    handlers are registered for [output] and [history]. *)
Definition terminal_receive (sessionId : string) (m : message)
    (term : Terminal.t) : Terminal.t :=
  match m with
  | output i d => dataHandler sessionId i d term
  | history i h => historyHandler sessionId i h term
  | _ => term
  end.

Definition terminal_after (sessionId : string) (l : list message)
    (term : Terminal.t) : Terminal.t :=
  foldl (λ t m, terminal_receive sessionId m t) term l.

(** The replays of the history of session [i] in [l]. *)
Definition replays_of (i : string) (l : list message) : list string :=
  omap (λ m, match m with
             | history j h => if decide (j = i) then Some h else None
             | _ => None
             end) l.

(** The socket does not subscribe to session [i] during [evs]. *)
Definition no_subscribe (socket : nat) (i : string) (evs : list event)
    : bool :=
  forallb (λ e, match e with
                | SubscribeSession s j =>
                    negb (bool_decide (s = socket ∧ j = i))
                | _ => true
                end) evs.

(** After ["hello"], socket 7 subscribes and the session says more. *)
Definition follow_events : list event :=
  [SubscribeSession 7 "u1"; PtyData 0 " world"].

(** ** The client: the window manager *)

(** A window, as far as the manager touches it: [zIndex] is
    [element.style.zIndex], unset at first, and [active] tells whether the
    class list of the element holds ['active']. *)
Module AppWindow.
Record t : Type := mk {
  id : string;
  title : string;
  icon : string;
  zIndex : option Z;
  active : bool
}.

(** [new AppWindow(id, options, manager)] *)
Definition constructor (id : string) (title icon : option string) : t :=
  {| id := id;
     title := or_else title "Application";
     icon := or_else icon "fas fa-window-maximize";
     zIndex := None;
     active := false |}.

Definition set_active (b : bool) (w : t) : t :=
  {| id := id w; title := title w; icon := icon w; zIndex := zIndex w;
     active := b |}.

Definition set_zIndex (z : Z) (w : t) : t :=
  {| id := id w; title := title w; icon := icon w; zIndex := Some z;
     active := active w |}.
End AppWindow.

(** The double quote of a template. *)
Definition quote : string := String (ascii_of_byte x22) EmptyString.

(** An item of the task bar: [active] tells whether its class name holds
    ['active'], [innerHTML] is the markup that was assigned to it, as
    written (what the browser makes of that markup is not modelled), and
    [target] is the window that a click on it focuses. *)
Module TaskItem.
Record t : Type := mk {
  active : bool;
  innerHTML : string;
  target : string
}.
End TaskItem.

Module WindowManager.
(** [windows] is the [Map] from id to window, [container] the elements of
    the windows on the screen, each named by the id of its window, and
    [taskList] the items of the task bar. *)
Record t : Type := mk {
  windows : list (string * AppWindow.t);
  activeWindowId : option string;
  zIndexCounter : Z;
  container : list string;
  taskList : list TaskItem.t
}.

Definition constructor : t :=
  {| windows := []; activeWindowId := None; zIndexCounter := 100;
     container := []; taskList := [] |}.

(** The items that [renderTaskbar] makes, one for each window in the order
    of the [Map]: the class name gets ['active'] when the window is the
    focused one, and the markup is built from the icon and the title of the
    window. *)
Definition task_items (active : option string)
    (ws : list (string * AppWindow.t)) : list TaskItem.t :=
  (λ kw, {| TaskItem.active :=
              bool_decide (active = Some (AppWindow.id kw.2));
            TaskItem.innerHTML :=
              "<i class=" +:+ quote +:+ AppWindow.icon kw.2 +:+ quote
                +:+ "></i><span>" +:+ AppWindow.title kw.2 +:+ "</span>";
            TaskItem.target := AppWindow.id kw.2 |}) <$> ws.

Definition renderTaskbar (this : t) : t :=
  {| windows := windows this;
     activeWindowId := activeWindowId this;
     zIndexCounter := zIndexCounter this;
     container := container this;
     taskList := task_items (activeWindowId this) (windows this) |}.

(** The windows after [if (this.activeWindowId) { ... }]: [null] and the
    empty string are falsy. *)
Definition demote (this : t) : list (string * AppWindow.t) :=
  match activeWindowId this with
  | Some (String c a) =>
      match Map_get (String c a) (windows this) with
      | Some curr =>
          Map_set (String c a) (AppWindow.set_active false curr)
            (windows this)
      | None => windows this
      end
  | _ => windows this
  end.

Definition focusWindow (id : string) (this : t) : t :=
  if decide (activeWindowId this = Some id) then this
  else
    match Map_get id (demote this) with
    | Some win =>
        let counter := zIndexCounter this + 1 in
        renderTaskbar
          {| windows :=
               Map_set id
                 (AppWindow.set_active true (AppWindow.set_zIndex counter win))
                 (demote this);
             activeWindowId := Some id;
             zIndexCounter := counter;
             container := container this;
             taskList := taskList this |}
    | None =>
        renderTaskbar
          {| windows := demote this;
             activeWindowId := Some id;
             zIndexCounter := zIndexCounter this;
             container := container this;
             taskList := taskList this |}
    end.

(** [createWindow(options)]; [random] is
    [Math.random().toString(36).substr(2, 9)]. *)
Definition createWindow (random : string) (title icon : option string)
    (this : t) : t :=
  let id := "win-" +:+ random in
  let win := AppWindow.constructor id title icon in
  focusWindow id
    (renderTaskbar
       {| windows := Map_set id win (windows this);
          activeWindowId := activeWindowId this;
          zIndexCounter := zIndexCounter this;
          container := container this ++ [id];
          taskList := taskList this |}).

Definition closeWindow (id : string) (this : t) : t :=
  match Map_get id (windows this) with
  | Some win =>
      renderTaskbar
        {| windows := Map_delete id (windows this);
           activeWindowId := activeWindowId this;
           zIndexCounter := zIndexCounter this;
           container := filter (λ k, k ≠ id) (container this);
           taskList := taskList this |}
  | None => this
  end.

(** What the user does: opening an application, the close button of a
    window, a press on a window or on its item of the task bar. *)
Inductive event : Type :=
  | Create (random : string) (title icon : option string)
  | Close (id : string)
  | Focus (id : string).

(** [Math.random] does not give the id of a window that is open, nor the
    one that was focused last. *)
Definition enabled (e : event) (this : t) : bool :=
  match e with
  | Create random _ _ =>
      bool_decide (Map_get ("win-" +:+ random) (windows this) = None
                   ∧ activeWindowId this ≠ Some ("win-" +:+ random))
  | _ => true
  end.

Definition handle (e : event) (this : t) : t :=
  match e with
  | Create random title icon => createWindow random title icon this
  | Close id => closeWindow id this
  | Focus id => focusWindow id this
  end.

Fixpoint run (evs : list event) (this : t) : option t :=
  match evs with
  | [] => Some this
  | e :: rest => if enabled e this then run rest (handle e this) else None
  end.

Definition reachable (this : t) : Prop :=
  ∃ evs, run evs constructor = Some this.

(** What the manager keeps to. *)
Record inv (this : t) : Prop := mk_inv {
  inv_counter : 100 ≤ zIndexCounter this;
  inv_keys : NoDup (windows this).*1;
  inv_id : ∀ k w, Map_get k (windows this) = Some w →
    AppWindow.id w = k ∧ k ≠ EmptyString;
  inv_active : ∀ k w, Map_get k (windows this) = Some w →
    (AppWindow.active w = true ↔ activeWindowId this = Some k);
  inv_zIndex : ∀ k w, Map_get k (windows this) = Some w →
    ∃ z, AppWindow.zIndex w = Some z
      ∧ 100 < z ≤ zIndexCounter this
      ∧ (activeWindowId this = Some k → z = zIndexCounter this);
  inv_stack : ∀ k1 k2 w1 w2,
    Map_get k1 (windows this) = Some w1 →
    Map_get k2 (windows this) = Some w2 →
    AppWindow.zIndex w1 = AppWindow.zIndex w2 → k1 = k2;
  inv_container : container this = (windows this).*1;
  inv_taskList :
    taskList this = task_items (activeWindowId this) (windows this)
}.

(** Two windows are opened, the first is pressed, then closed. *)
Definition sample_events : list event :=
  [Create "a" (Some "Terminal"%string) None; Create "b" None None;
   Focus "win-a"; Close "win-a"].

Definition after (evs : list event) : t :=
  default constructor (run evs constructor).

Definition two_events : list event :=
  [Create "a" None None; Create "b" None None].

Definition refocus_events : list event :=
  [Create "a" None None; Create "b" None None; Focus "win-a"].

(** Three windows are opened and the last one, which has the focus, is
    closed: two windows are open and [activeWindowId] names none of them. *)
Definition unfocused_events : list event :=
  [Create "a" None None; Create "b" None None; Create "c" None None;
   Close "win-c"].

(** What [focusWindow(id)] needs of the manager: all that the manager keeps
    to, but for the window [id] itself, which may be new and have no
    [zIndex] yet, and which is not the one focused last. *)
Definition focus_ready (id : string) (this : t) : Prop :=
  100 ≤ zIndexCounter this
  ∧ NoDup (windows this).*1
  ∧ (∀ k w, Map_get k (windows this) = Some w →
       AppWindow.id w = k ∧ k ≠ EmptyString)
  ∧ (∀ k w, Map_get k (windows this) = Some w →
       (AppWindow.active w = true ↔ activeWindowId this = Some k))
  ∧ (∀ k w, k ≠ id → Map_get k (windows this) = Some w →
       ∃ z, AppWindow.zIndex w = Some z ∧ 100 < z ≤ zIndexCounter this)
  ∧ (∀ k1 k2 w1 w2, k1 ≠ id → k2 ≠ id →
       Map_get k1 (windows this) = Some w1 →
       Map_get k2 (windows this) = Some w2 →
       AppWindow.zIndex w1 = AppWindow.zIndex w2 → k1 = k2)
  ∧ container this = (windows this).*1
  ∧ activeWindowId this ≠ Some id.
End WindowManager.

(** * Proofs *)

(** ** Arithmetic of wrapped indices *)

Lemma mod_facts (x C : Z) :
  0 < C →
  0 ≤ x mod C < C
  ∧ (0 ≤ x < C → x mod C = x)
  ∧ (C ≤ x < 2 * C → x mod C = x - C)
  ∧ (- C ≤ x < 0 → x mod C = x + C).
Proof.
  intros HC. split; [by apply Z.mod_pos_bound|].
  split; [intros; by apply Z.mod_small|].
  split; intros.
  - symmetry. apply (Zmod_unique x C 1); lia.
  - symmetry. apply (Zmod_unique x C (-1)); lia.
Qed.

Lemma rem_nonneg (x C : Z) : 0 ≤ x → 0 < C → Z.rem x C = x mod C.
Proof. intros. apply Z.rem_mod_nonneg; lia. Qed.

(** ** The buffer primitives, index by index *)

Lemma Buffer_length_nonneg (b : Buffer.t) : 0 ≤ Buffer.length b.
Proof. unfold Buffer.length. lia. Qed.

Lemma alloc_from_length junk (i : Z) (n : nat) :
  length (Buffer.alloc_from junk i n) = n.
Proof. revert i. induction n as [|n IH]; intros i; simpl; [done|]. by rewrite IH. Qed.

Lemma allocUnsafe_length junk (n : Z) :
  0 ≤ n → Buffer.length (Buffer.allocUnsafe junk n) = n.
Proof.
  intros. unfold Buffer.length, Buffer.allocUnsafe.
  rewrite alloc_from_length. lia.
Qed.

Lemma copy_lookup (src tgt : Buffer.t) (tS sS sE : Z) :
  0 ≤ tS → 0 ≤ sS ≤ sE → sE ≤ Buffer.length src →
  tS + (sE - sS) ≤ Buffer.length tgt →
  ∃ tgt', Buffer.copy src tgt tS sS sE = Some tgt'
    ∧ Buffer.length tgt' = Buffer.length tgt
    ∧ ∀ i : nat,
        tgt' !! i =
          if decide (tS ≤ Z.of_nat i < tS + (sE - sS))
          then src !! Z.to_nat (Z.of_nat i - tS + sS) else tgt !! i.
Proof.
  unfold Buffer.length. intros HtS HsS HsE Hfit. unfold Buffer.copy, Buffer.length.
  replace ((tS <? 0) || (sS <? 0) || (Z.of_nat (length src) <? sS) || (sE <? 0))
    with false by (symmetry; repeat (apply orb_false_intro); lia).
  destruct ((Z.of_nat (length tgt) <=? tS) || (sE <=? sS)) eqn:Hearly.
  - exists tgt. split; [done|]. split; [done|]. intros i.
    apply orb_true_iff in Hearly. case_decide; [lia|done].
  - apply orb_false_iff in Hearly as [H1 H2].
    eexists. split; [done|].
    replace (Z.min (Z.min (sE - sS) (Z.of_nat (length tgt) - tS))
                   (Z.of_nat (length src) - sS)) with (sE - sS) by lia.
    split.
    + rewrite !length_app, !length_take, !length_drop. lia.
    + intros i.
      set (n := Z.to_nat (sE - sS)).
      assert (Ha : length (take (Z.to_nat tS) tgt) = Z.to_nat tS)
        by (rewrite length_take; lia).
      assert (Hb : length (take n (drop (Z.to_nat sS) src)) = n)
        by (rewrite length_take, length_drop; lia).
      case_decide as Hi.
      * rewrite lookup_app_r, lookup_app_l, lookup_take_lt, lookup_drop
          by (rewrite ?Ha, ?Hb; lia).
        f_equal. lia.
      * destruct (decide (Z.of_nat i < tS)).
        { rewrite lookup_app_l, lookup_take_lt by (rewrite ?Ha; lia). done. }
        rewrite !lookup_app_r, lookup_drop by (rewrite ?length_app, ?Ha, ?Hb; lia).
        rewrite Ha, Hb. f_equal. lia.
Qed.

(** The two copies of [append] write the chunk round the end of the storage:
    cell [i] receives byte [(i - writePos) mod C] of the chunk when that
    number is below the length of the chunk, and is left alone otherwise. *)
Lemma write_round (b buf : Buffer.t) (wp C : Z) :
  Buffer.length buf = C → 0 ≤ wp < C → Buffer.length b < C →
  let n := Buffer.length b in
  let fp := Z.min n (C - wp) in
  ∃ buf1 buf2,
    Buffer.copy b buf wp 0 fp = Some buf1
    ∧ (if fp <? n then Buffer.copy b buf1 0 fp n else Some buf1) = Some buf2
    ∧ Buffer.length buf2 = C
    ∧ ∀ i : nat, Z.of_nat i < C →
        buf2 !! i =
          if decide ((Z.of_nat i - wp) mod C < n)
          then b !! Z.to_nat ((Z.of_nat i - wp) mod C) else buf !! i.
Proof.
  intros Hlen Hwp Hn n fp.
  pose proof (Buffer_length_nonneg b) as Hb0. fold n in Hb0, Hn.
  destruct (copy_lookup b buf wp 0 fp) as (buf1 & E1 & L1 & P1); try lia.
  exists buf1. rewrite E1.
  destruct (fp <? n) eqn:Hfp.
  - apply Z.ltb_lt in Hfp.
    destruct (copy_lookup b buf1 0 fp n) as (buf2 & E2 & L2 & P2); try lia.
    exists buf2. split; [done|]. split; [done|]. split; [lia|].
    intros i Hi. rewrite P2, P1.
    pose proof (mod_facts (Z.of_nat i - wp) C ltac:(lia)) as (? & ? & ? & ?).
    repeat case_decide; try lia; try done; f_equal; lia.
  - apply Z.ltb_ge in Hfp.
    exists buf1. split; [done|]. split; [done|]. split; [lia|].
    intros i Hi. rewrite P1.
    pose proof (mod_facts (Z.of_nat i - wp) C ltac:(lia)) as (? & ? & ? & ?).
    repeat case_decide; try lia; try done; f_equal; lia.
Qed.

(** ** The logical content *)

Lemma contents_length (C : Z) (this : RingBuffer.t) :
  RingBuffer.inv C this →
  length (RingBuffer.contents this) = Z.to_nat (RingBuffer.len this).
Proof.
  intros [[HL HB] [Hs Hl]]. unfold RingBuffer.contents, Buffer.length in *.
  rewrite length_take, length_app, length_drop, length_take. lia.
Qed.

Lemma contents_lookup (C : Z) (this : RingBuffer.t) (k : nat) :
  RingBuffer.inv C this →
  RingBuffer.contents this !! k =
    if decide (Z.of_nat k < RingBuffer.len this)
    then RingBuffer.buf this
           !! Z.to_nat ((RingBuffer.start this + Z.of_nat k) mod C)
    else None.
Proof.
  intros [[HL HB] [Hs Hl]]. unfold RingBuffer.contents, Buffer.length in *.
  rewrite lookup_take.
  pose proof (mod_facts (RingBuffer.start this + Z.of_nat k) C ltac:(lia))
    as (? & ? & ? & ?).
  repeat case_decide; try lia; try done.
  destruct (decide (RingBuffer.start this + Z.of_nat k < C)).
  - rewrite lookup_app_l, lookup_drop by (rewrite length_drop; lia).
    f_equal. lia.
  - rewrite lookup_app_r, lookup_take_lt by (rewrite ?length_drop; lia).
    rewrite length_drop. f_equal. lia.
Qed.

Lemma lastn_length {A} (n : nat) (l : list A) :
  length (lastn n l) = (n `min` length l)%nat.
Proof. unfold lastn. rewrite length_drop. lia. Qed.

Lemma lastn_lookup {A} (n : nat) (l : list A) (k : nat) :
  lastn n l !! k = l !! (length l - n + k)%nat.
Proof. unfold lastn. by rewrite lookup_drop. Qed.

(** The new [start] and [len] of an [append] of [n < C] bytes, and the
    position where the chunk is written: the old end of the content. *)
Lemma append_positions (C s l n : Z) :
  0 < C → 0 ≤ s < C → 0 ≤ l ≤ C → 0 ≤ n < C →
  ∃ s1 l1,
    (if C - l <? n then (Z.rem (s + (n - (C - l))) C, C) else (s, l + n))
      = (s1, l1)
    ∧ 0 ≤ s1 < C ∧ l1 = Z.min (l + n) C
    ∧ s1 = (s + (l + n - l1)) mod C
    ∧ Z.rem (s1 + l1 - n) C = (s + l) mod C.
Proof.
  intros HC Hs Hl Hn. destruct (C - l <? n) eqn:Hfree.
  - apply Z.ltb_lt in Hfree. eexists _, _. split; [done|].
    rewrite rem_nonneg by lia.
    pose proof (mod_facts (s + (n - (C - l))) C HC) as (? & ? & ? & ?).
    pose proof (mod_facts (s + l) C HC) as (? & ? & ? & ?).
    split; [lia|]. split; [lia|]. split; [f_equal; lia|].
    rewrite rem_nonneg by lia.
    pose proof (mod_facts ((s + (n - (C - l))) mod C + C - n) C HC)
      as (? & ? & ? & ?).
    lia.
  - apply Z.ltb_ge in Hfree. eexists _, _. split; [done|].
    pose proof (mod_facts (s + (l + n - (l + n))) C HC) as (? & ? & ? & ?).
    split; [lia|]. split; [lia|]. split; [lia|].
    rewrite rem_nonneg by lia. f_equal. lia.
Qed.

(** One append: it returns, keeps the invariant, and the content afterwards
    is the tail of the old content followed by the chunk. *)
Lemma append_contents (C : Z) (this : RingBuffer.t) (b : Buffer.t) :
  0 < C → RingBuffer.inv C this →
  ∃ this', RingBuffer.append this b = Normal this'
    ∧ RingBuffer.inv C this'
    ∧ RingBuffer.contents this'
      = lastn (Z.to_nat C) (RingBuffer.contents this ++ b).
Proof.
  intros HC Hinv.
  pose proof (contents_length C this Hinv) as Hcl.
  pose proof (contents_lookup C this) as Hck. specialize (fun k => Hck k Hinv).
  destruct Hinv as [[HL HB] [Hs Hl]].
  pose proof (Buffer_length_nonneg b) as Hb0.
  unfold RingBuffer.append, RingBuffer.append_log. rewrite HL.
  destruct (C <=? Buffer.length b) eqn:Hbig.
  - (* the chunk fills the whole buffer *)
    apply Z.leb_le in Hbig.
    destruct (copy_lookup b (RingBuffer.buf this) 0
                (Buffer.length b - C) (Buffer.length b))
      as (buf' & E & L & P); try lia.
    rewrite E. eexists. split; [done|].
    assert (Hinv' : RingBuffer.inv C
              {| RingBuffer.buf := buf'; RingBuffer.limit := C;
                 RingBuffer.start := 0; RingBuffer.len := C |}).
    { repeat split; simpl; lia. }
    split; [done|].
    apply list_eq. intros k.
    rewrite (contents_lookup C _ k Hinv'), lastn_lookup, length_app. simpl.
    unfold Buffer.length in *.
    pose proof (mod_facts (0 + Z.of_nat k) C HC) as (? & ? & ? & ?).
    case_decide.
    + rewrite P. case_decide; [|lia].
      rewrite lookup_app_r by lia. f_equal. lia.
    + symmetry. apply lookup_ge_None. rewrite length_app. lia.
  - apply Z.leb_gt in Hbig.
    set (n := Buffer.length b) in *.
    set (s := RingBuffer.start this) in *.
    set (l := RingBuffer.len this) in *.
    set (sl := if C - l <? n then (Z.rem (s + (n - (C - l))) C, C)
               else (s, l + n)).
    destruct (append_positions C s l n) as (s1 & l1 & Esl & Hs1 & Hl1 & Es1 & Ewp);
      try lia.
    subst sl. rewrite Esl. rewrite Ewp.
    pose proof (mod_facts (s + l) C HC) as (Hwp & _).
    destruct (write_round b (RingBuffer.buf this) ((s + l) mod C) C)
      as (buf1 & buf2 & E1 & E2 & L2 & P2); try done.
    fold n in E1, E2, P2. rewrite E1.
    assert (Hinv' : RingBuffer.inv C
              {| RingBuffer.buf := buf2; RingBuffer.limit := C;
                 RingBuffer.start := s1; RingBuffer.len := l1 |}).
    { repeat split; simpl; lia. }
    exists {| RingBuffer.buf := buf2; RingBuffer.limit := C;
              RingBuffer.start := s1; RingBuffer.len := l1 |}.
    split.
    { destruct (Z.min n (C - (s + l) mod C) <? n).
      - rewrite E2. done.
      - by injection E2 as ->. }
    split; [done|].
    apply list_eq. intros k.
    rewrite (contents_lookup C _ k Hinv'), lastn_lookup, length_app. simpl.
    unfold Buffer.length in *. rewrite Hcl.
    pose proof (mod_facts (s1 + Z.of_nat k) C HC) as (Hj & _).
    case_decide as Hk.
    + rewrite P2 by lia.
      rewrite Z2Nat.id by lia.
      assert (Hdiff : ((s1 + Z.of_nat k) mod C - (s + l) mod C) mod C
                      = (l + n - l1 + Z.of_nat k - l) mod C).
      { rewrite Es1. rewrite <- Zminus_mod, <- Z.add_sub_assoc, Zplus_mod_idemp_l.
        f_equal. lia. }
      rewrite Hdiff.
      pose proof (mod_facts (l + n - l1 + Z.of_nat k - l) C HC)
        as (? & ? & ? & ?).
      case_decide.
      * rewrite lookup_app_r by lia. f_equal. lia.
      * rewrite lookup_app_l by lia.
        rewrite Hck. case_decide; [|lia].
        f_equal. f_equal. rewrite Es1, Zplus_mod_idemp_l. f_equal. lia.
    + symmetry. apply lookup_ge_None. rewrite length_app. lia.
Qed.

Lemma slice_in_range (b : Buffer.t) (s e : Z) :
  0 ≤ s ≤ e → e ≤ Buffer.length b →
  Buffer.slice b s e = take (Z.to_nat (e - s)) (drop (Z.to_nat s) b).
Proof.
  intros Hs He. unfold Buffer.slice, Buffer.slice_index.
  destruct (s <? 0) eqn:E1; [lia|]. destruct (e <? 0) eqn:E2; [lia|].
  by rewrite !Z.min_l by lia.
Qed.

(** [toString] decodes the logical content. *)
Lemma toString_contents (enc : list byte → string) (C : Z)
    (this : RingBuffer.t) :
  enc [] = EmptyString → RingBuffer.inv C this →
  RingBuffer.toString enc this = enc (RingBuffer.contents this).
Proof.
  intros Henc [[HL HB] [Hs Hl]].
  unfold RingBuffer.toString, RingBuffer.toString_log, RingBuffer.contents.
  unfold Buffer.length in HB.
  destruct (RingBuffer.len this =? 0) eqn:E0.
  { apply Z.eqb_eq in E0. rewrite E0. simpl. by rewrite take_0. }
  apply Z.eqb_neq in E0. rewrite HL.
  destruct (RingBuffer.start this + RingBuffer.len this <=? C) eqn:E1; simpl.
  - apply Z.leb_le in E1. f_equal.
    rewrite slice_in_range by (unfold Buffer.length; lia).
    rewrite take_app_le by (rewrite length_drop; lia). f_equal. lia.
  - apply Z.leb_gt in E1. f_equal. unfold Buffer.concat. simpl.
    rewrite !slice_in_range by (unfold Buffer.length; lia).
    rewrite (right_id_L [] (++)).
    rewrite take_app_ge by (rewrite length_drop; lia).
    rewrite length_drop, take_take, drop_0.
    f_equal; [apply take_ge; rewrite length_drop; lia|].
    f_equal. lia.
Qed.

Lemma lastn_all {A} (n : nat) (l : list A) :
  (length l ≤ n)%nat → lastn n l = l.
Proof.
  intros. unfold lastn. replace (length l - n)%nat with 0%nat by lia. done.
Qed.

Lemma lastn_app_lastn {A} (n : nat) (l r : list A) :
  lastn n (lastn n l ++ r) = lastn n (l ++ r).
Proof.
  destruct (decide (length l ≤ n)%nat) as [Hle|Hgt].
  { by rewrite (lastn_all n l). }
  unfold lastn at 1 3. rewrite !length_app, lastn_length.
  unfold lastn. rewrite <- (drop_app_le l r (length l - n)) by lia.
  rewrite drop_drop. f_equal. lia.
Qed.

Lemma lastn_app_ge {A} (n : nat) (l r : list A) :
  (n ≤ length r)%nat → lastn n (l ++ r) = lastn n r.
Proof.
  intros. unfold lastn. rewrite length_app, drop_app_ge by lia.
  f_equal. lia.
Qed.

Lemma constructor_inv junk (C : Z) :
  0 < C → RingBuffer.inv C (RingBuffer.constructor junk C).
Proof.
  intros. repeat split; simpl; try lia. apply allocUnsafe_length. lia.
Qed.

Lemma constructor_contents junk (C : Z) :
  RingBuffer.contents (RingBuffer.constructor junk C) = [].
Proof. done. Qed.

(** A sequence of appends returns, keeps the invariant, and leaves the tail
    of everything that was ever in the buffer. *)
Lemma appends_contents (C : Z) (chunks : list Buffer.t) :
  0 < C → ∀ this, RingBuffer.inv C this →
  ∃ this', RingBuffer.appends this chunks = Normal this'
    ∧ RingBuffer.inv C this'
    ∧ RingBuffer.contents this'
      = lastn (Z.to_nat C) (RingBuffer.contents this ++ mjoin chunks).
Proof.
  intros HC. induction chunks as [|b chunks IH]; intros this Hinv.
  - exists this. split; [done|]. split; [done|].
    simpl. rewrite (right_id_L [] (++)), lastn_all; [done|].
    rewrite (contents_length C) by done. destruct Hinv as [_ [_ ?]]. lia.
  - destruct (append_contents C this b HC Hinv) as (this1 & E1 & I1 & C1).
    destruct (IH this1 I1) as (this2 & E2 & I2 & C2).
    exists this2. simpl. rewrite E1. split; [done|]. split; [done|].
    rewrite C2, C1, lastn_app_lastn. by rewrite (assoc_L (++)).
Qed.

Ltac Forall_list :=
  repeat (apply Forall_cons; split; [assumption|]); apply Forall_nil_2.

(** The writes that one append asks for stay inside the storage. *)
Lemma append_log_within (C : Z) (this : RingBuffer.t) (b : Buffer.t) :
  0 < C → RingBuffer.inv C this →
  Forall (access_within C) (RingBuffer.append_log this b).2.
Proof.
  intros HC [[HL HB] [Hs Hl]].
  pose proof (Buffer_length_nonneg b) as Hb0.
  unfold RingBuffer.append_log. rewrite HL.
  destruct (C <=? Buffer.length b) eqn:Hbig.
  - apply Z.leb_le in Hbig.
    assert (access_within C
              (Write 0 (Buffer.length b - (Buffer.length b - C)))).
    { intros i. simpl. lia. }
    destruct (Buffer.copy _ _ _ _ _); simpl; Forall_list.
  - apply Z.leb_gt in Hbig.
    destruct (append_positions C (RingBuffer.start this)
                (RingBuffer.len this) (Buffer.length b))
      as (s1 & l1 & Esl & Hs1 & Hl1 & Es1 & Ewp); try lia.
    rewrite Esl, Ewp.
    pose proof (mod_facts (RingBuffer.start this + RingBuffer.len this) C HC)
      as (Hwp & _).
    set (wp := (RingBuffer.start this + RingBuffer.len this) mod C) in *.
    set (n := Buffer.length b) in *.
    assert (access_within C (Write wp (Z.min n (C - wp) - 0))).
    { intros i. simpl. lia. }
    destruct (Buffer.copy b (RingBuffer.buf this) wp 0 (Z.min n (C - wp)));
      simpl; [|Forall_list].
    destruct (Z.min n (C - wp) <? n) eqn:Hfp; simpl; [|Forall_list].
    apply Z.ltb_lt in Hfp.
    assert (access_within C (Write 0 (n - Z.min n (C - wp)))).
    { intros i. simpl. lia. }
    destruct (Buffer.copy b _ 0 _ n); simpl; Forall_list.
Qed.

(** The reads that [toString] asks for stay inside the storage. *)
Lemma toString_log_within (enc : list byte → string) (C : Z)
    (this : RingBuffer.t) :
  RingBuffer.inv C this →
  Forall (access_within C) (RingBuffer.toString_log enc this).2.
Proof.
  intros [[HL HB] [Hs Hl]]. unfold RingBuffer.toString_log. rewrite HL.
  destruct (RingBuffer.len this =? 0); simpl; [apply Forall_nil_2|].
  destruct (RingBuffer.start this + RingBuffer.len this <=? C) eqn:E; simpl.
  - apply Z.leb_le in E.
    apply Forall_cons; split; [intros i; simpl; lia|apply Forall_nil_2].
  - apply Z.leb_gt in E.
    repeat (apply Forall_cons; split; [intros i; simpl; lia|]).
    apply Forall_nil_2.
Qed.

(** Appending nothing changes nothing. *)
Lemma append_nil (C : Z) (this : RingBuffer.t) :
  0 < C → RingBuffer.inv C this → RingBuffer.append this [] = Normal this.
Proof.
  intros HC [[HL HB] [Hs Hl]].
  unfold RingBuffer.append, RingBuffer.append_log. rewrite HL.
  change (Buffer.length []) with 0.
  destruct (C <=? 0) eqn:E; [lia|].
  destruct (C - RingBuffer.len this <? 0) eqn:E2; [lia|].
  rewrite rem_nonneg by lia.
  pose proof (mod_facts (RingBuffer.start this + (RingBuffer.len this + 0) - 0)
                C HC) as (Hwp & _).
  set (wp := (RingBuffer.start this + (RingBuffer.len this + 0) - 0) mod C) in *.
  rewrite Z.min_l by lia.
  unfold Buffer.copy. change (Buffer.length []) with 0.
  destruct (wp <? 0) eqn:E3; [lia|]. simpl.
  rewrite orb_true_r. simpl.
  destruct this as [bf lm st ln]. simpl in *. subst lm.
  do 2 f_equal. lia.
Qed.

Lemma lastn_min {A} (n : nat) (l : list A) :
  lastn (n `min` length l) l = lastn n l.
Proof. unfold lastn. f_equal. lia. Qed.

(** A state of the buffer reached by appends from a fresh one satisfies the
    invariant. *)
Lemma appends_inv junk (C : Z) (chunks : list Buffer.t) (this : RingBuffer.t) :
  0 < C →
  RingBuffer.appends (RingBuffer.constructor junk C) chunks = Normal this →
  RingBuffer.inv C this.
Proof.
  intros HC E.
  destruct (appends_contents C chunks HC _ (constructor_inv junk C HC))
    as (this' & E' & I & _).
  congruence.
Qed.

(** ** The history buffer: the claims *)

(** C1.  For every capacity [C >= 1] and every sequence of chunks appended to
    a fresh buffer of that capacity, all the appends return and [toString]
    then decodes the last [min (total bytes appended) C] bytes of the
    concatenation of the chunks, in the order of the appends.  In particular
    one more append, of a chunk of at least [C] bytes, leaves exactly the
    last [C] bytes of that chunk: nothing older survives. *)
Theorem ring_contents_last_bytes (enc : list byte → string) (junk : Z → byte)
    (C : Z) (chunks : list Buffer.t) :
  enc [] = EmptyString → 1 ≤ C →
  ∃ this,
    RingBuffer.appends (RingBuffer.constructor junk C) chunks = Normal this
    ∧ RingBuffer.toString enc this
      = enc (lastn (Z.to_nat (Z.min (Buffer.length (mjoin chunks)) C))
                   (mjoin chunks))
    ∧ ∀ b, C ≤ Buffer.length b →
        ∃ this', RingBuffer.append this b = Normal this'
          ∧ RingBuffer.toString enc this' = enc (lastn (Z.to_nat C) b).
Proof.
  intros Henc HC. assert (0 < C) as HC' by lia.
  destruct (appends_contents C chunks HC' _ (constructor_inv junk C HC'))
    as (this & E & I & Hc).
  exists this. split; [done|]. split.
  - rewrite (toString_contents enc C) by done. rewrite Hc.
    rewrite constructor_contents. simpl. f_equal.
    rewrite <- (lastn_min (Z.to_nat C)). f_equal.
    unfold Buffer.length. lia.
  - intros b Hb.
    destruct (append_contents C this b HC' I) as (this' & E' & I' & Hc').
    exists this'. split; [done|].
    rewrite (toString_contents enc C) by done. rewrite Hc'.
    f_equal. apply lastn_app_ge. unfold Buffer.length in Hb. lia.
Qed.

Lemma ring_contents_last_bytes_witness :
  ∃ this,
    RingBuffer.appends (RingBuffer.constructor zeroes 10)
      [Buffer.from "abcdefgh"; Buffer.from "XYZ"] = Normal this
    ∧ RingBuffer.toString latin1 this
      = latin1 (lastn (Z.to_nat (Z.min (Buffer.length
                  (mjoin [Buffer.from "abcdefgh"; Buffer.from "XYZ"])) 10))
                  (mjoin [Buffer.from "abcdefgh"; Buffer.from "XYZ"]))
    ∧ ∀ b, 10 ≤ Buffer.length b →
        ∃ this', RingBuffer.append this b = Normal this'
          ∧ RingBuffer.toString latin1 this' = latin1 (lastn (Z.to_nat 10) b).
Proof.
  apply (ring_contents_last_bytes latin1 zeroes 10
           [Buffer.from "abcdefgh"; Buffer.from "XYZ"]); [reflexivity|lia].
Defined.

(** C9.  For every capacity [C >= 1], a fresh buffer satisfies
    [0 <= start < C] and [0 <= len <= C]; every append to a buffer that
    satisfies them returns and leaves a buffer that satisfies them; and
    every write that [append] and every read that [toString] asks of the
    storage is at indices within [[0, C)]. *)
Theorem ring_rep_invariant (junk : Z → byte) (C : Z) :
  1 ≤ C →
  RingBuffer.inv C (RingBuffer.constructor junk C)
  ∧ (∀ this b, RingBuffer.inv C this →
       ∃ this', RingBuffer.append this b = Normal this'
         ∧ RingBuffer.inv C this'
         ∧ Forall (access_within C) (RingBuffer.append_log this b).2)
  ∧ (∀ enc this, RingBuffer.inv C this →
       Forall (access_within C) (RingBuffer.toString_log enc this).2).
Proof.
  intros HC. assert (0 < C) as HC' by lia.
  split; [by apply constructor_inv|]. split.
  - intros this b I.
    destruct (append_contents C this b HC' I) as (this' & E & I' & _).
    exists this'. split; [done|]. split; [done|].
    by apply append_log_within.
  - intros enc this I. by apply toString_log_within.
Qed.

Lemma ring_rep_invariant_witness :
  RingBuffer.inv 4 (RingBuffer.constructor zeroes 4)
  ∧ (∀ this b, RingBuffer.inv 4 this →
       ∃ this', RingBuffer.append this b = Normal this'
         ∧ RingBuffer.inv 4 this'
         ∧ Forall (access_within 4) (RingBuffer.append_log this b).2)
  ∧ (∀ enc this, RingBuffer.inv 4 this →
       Forall (access_within 4) (RingBuffer.toString_log enc this).2).
Proof. apply (ring_rep_invariant zeroes 4). lia. Defined.

(** C10.  In every state that a buffer of capacity [C >= 1] reaches by
    appends, appending the empty sequence returns and leaves the buffer as
    it was: [start], [len] and the result of [toString] are unchanged.  And
    [toString] leaves its receiver as it was, so that a second call gives
    the result of the first. *)
Theorem ring_append_empty_identity (enc : list byte → string)
    (junk : Z → byte) (C : Z) (chunks : list Buffer.t) (this : RingBuffer.t) :
  1 ≤ C →
  RingBuffer.appends (RingBuffer.constructor junk C) chunks = Normal this →
  (∃ this', RingBuffer.append this [] = Normal this'
     ∧ this' = this
     ∧ RingBuffer.start this' = RingBuffer.start this
     ∧ RingBuffer.len this' = RingBuffer.len this
     ∧ RingBuffer.toString enc this' = RingBuffer.toString enc this)
  ∧ (RingBuffer.toString_call enc this).2 = this
  ∧ (RingBuffer.toString_call enc (RingBuffer.toString_call enc this).2).1
    = (RingBuffer.toString_call enc this).1.
Proof.
  intros HC E. assert (0 < C) as HC' by lia.
  pose proof (appends_inv junk C chunks this HC' E) as I.
  split; [|done].
  exists this. by rewrite (append_nil C this HC' I).
Qed.

Lemma ring_append_empty_identity_witness :
  (∃ this', RingBuffer.append sample_ring [] = Normal this'
     ∧ this' = sample_ring
     ∧ RingBuffer.start this' = RingBuffer.start sample_ring
     ∧ RingBuffer.len this' = RingBuffer.len sample_ring
     ∧ RingBuffer.toString latin1 this' = RingBuffer.toString latin1 sample_ring)
  ∧ (RingBuffer.toString_call latin1 sample_ring).2 = sample_ring
  ∧ (RingBuffer.toString_call latin1
       (RingBuffer.toString_call latin1 sample_ring).2).1
    = (RingBuffer.toString_call latin1 sample_ring).1.
Proof.
  apply (ring_append_empty_identity latin1 zeroes 4
           [Buffer.from "ab"; Buffer.from "cde"] sample_ring);
    [lia|reflexivity].
Defined.

(** ** The buffer on the examples of the specification *)

Example ring_example_wrap :
  after_appends 10 ["abcdefgh"; "XYZ"]%string = Some "bcdefghXYZ"%string.
Proof. reflexivity. Qed.

Example ring_example_oversized :
  after_appends 5 ["1234567"]%string = Some "34567"%string.
Proof. reflexivity. Qed.

Example ring_example_many :
  after_appends 4 ["ab"; "cde"; EmptyString; "f"; "ghijk"; "l"; "mn"]%string
  = Some "klmn"%string.
Proof. reflexivity. Qed.

Example ring_example_empty : after_appends 3 [] = Some EmptyString.
Proof. reflexivity. Qed.

(** ** Display names: the scan for the smallest unused number *)

(** On a strictly increasing list of numbers that are all at least [n], the
    scan from [n] stops at the first number missing from the list. *)
Lemma scan_used_spec (l : list Z) :
  ∀ n, StronglySorted Z.le l → NoDup l → Forall (λ x, n ≤ x) l →
    n ≤ scan_used n l
    ∧ (scan_used n l ∉ l)
    ∧ (∀ j, n ≤ j < scan_used n l → j ∈ l).
Proof.
  induction l as [|x r IH]; intros n Hsorted Hnodup Hge; simpl.
  - split; [lia|]. split; [apply not_elem_of_nil|]. intros j ?. lia.
  - apply StronglySorted_inv in Hsorted as [Hsorted Hx].
    apply NoDup_cons in Hnodup as [Hxr Hnodup].
    apply Forall_cons in Hge as [Hnx Hge].
    destruct (x =? n) eqn:E.
    + apply Z.eqb_eq in E. subst x.
      destruct (IH (n + 1)) as (H1 & H2 & H3); [done|done| |].
      { apply Forall_forall. intros y Hy.
        rewrite Forall_forall in Hx. specialize (Hx y Hy).
        assert (y ≠ n) by (intros ->; done). lia. }
      split; [lia|]. split.
      * rewrite elem_of_cons. intros [?|?]; [lia|done].
      * intros j Hj. rewrite elem_of_cons.
        destruct (decide (j = n)); [by left|right]. apply H3. lia.
    + apply Z.eqb_neq in E. split; [lia|]. split; [|intros j ?; lia].
      rewrite elem_of_cons. intros [?|Hin]; [lia|].
      rewrite Forall_forall in Hx. specialize (Hx n Hin). lia.
Qed.

Lemma next_number_spec (names : list string) :
  NoDup (omap used_number names) →
  Forall (λ x, 1 ≤ x) (omap used_number names) →
  1 ≤ next_number names
  ∧ (next_number names ∉ omap used_number names)
  ∧ (∀ j, 1 ≤ j < next_number names → j ∈ omap used_number names).
Proof.
  intros Hnodup Hpos. unfold next_number.
  set (used := omap used_number names) in *.
  pose proof (merge_sort_Permutation Z.le used) as Hperm.
  destruct (scan_used_spec (merge_sort Z.le used) 1) as (H1 & H2 & H3).
  - apply StronglySorted_merge_sort; apply _.
  - by rewrite Hperm.
  - by rewrite Hperm.
  - revert H1 H2 H3. generalize (scan_used 1 (merge_sort Z.le used)).
    intros k H1 H2 H3. split; [done|]. split.
    + by rewrite <- Hperm.
    + intros j Hj. rewrite <- Hperm. by apply H3.
Qed.

(** When every number parsed from a name is positive, the names of the
    format are the names that match. *)
Lemma carried_all (names : list string) :
  Forall (λ x, 1 ≤ x) (omap used_number names) →
  carried names = omap used_number names.
Proof.
  intros H. unfold carried. induction H as [|x l Hx H IH]; [done|].
  rewrite filter_cons_True by done. by rewrite IH.
Qed.

(** A name that does not match is skipped. *)
Lemma next_number_ignores (names1 names2 : list string) (name : string) :
  match_Term name = None →
  next_number (names1 ++ name :: names2) = next_number (names1 ++ names2).
Proof.
  intros H. unfold next_number. rewrite !omap_app. simpl.
  unfold used_number at 2. by rewrite H.
Qed.

(** ** Display names: printing a number and reading it back *)

Lemma digit_char_value (d : N) :
  (d < 10)%N →
  is_digit (pretty_N_char d) = true
  ∧ digit_value (pretty_N_char d) = Z.of_N d.
Proof.
  intros H.
  assert (d = 0 ∨ d = 1 ∨ d = 2 ∨ d = 3 ∨ d = 4 ∨ d = 5 ∨ d = 6 ∨ d = 7
          ∨ d = 8 ∨ d = 9)%N as Hd by lia.
  repeat (destruct Hd as [->|Hd]; [by split|]). by subst.
Qed.

Lemma pretty_N_go_all_digits (x : N) (s : string) :
  all_digits (pretty_N_go x s) = all_digits s.
Proof.
  revert s. induction (N.lt_wf_0 x) as [x _ IH]. intros s.
  destruct (decide (x = 0)%N) as [->|Hx]; [done|].
  rewrite pretty_N_go_step by lia.
  rewrite IH by (apply N.div_lt; lia). simpl.
  destruct (digit_char_value (x `mod` 10)%N) as [-> _]; [|done].
  by apply N.mod_lt.
Qed.

Lemma pretty_N_go_parse (x : N) (s : string) :
  parseInt_from 0 (pretty_N_go x s) = parseInt_from (Z.of_N x) s.
Proof.
  revert s. induction (N.lt_wf_0 x) as [x _ IH]. intros s.
  destruct (decide (x = 0)%N) as [->|Hx]; [done|].
  rewrite pretty_N_go_step by lia.
  rewrite IH by (apply N.div_lt; lia). simpl.
  destruct (digit_char_value (x `mod` 10)%N) as [_ ->];
    [by apply N.mod_lt|].
  f_equal. pose proof (N.div_mod x 10). lia.
Qed.

Lemma pretty_N_go_nonempty (x : N) (c : ascii) (s : string) :
  pretty_N_go x (String c s) ≠ EmptyString.
Proof.
  revert c s. induction (N.lt_wf_0 x) as [x _ IH]. intros c s.
  destruct (decide (x = 0)%N) as [->|Hx]; [done|].
  rewrite pretty_N_go_step by lia. apply IH. apply N.div_lt; lia.
Qed.

(** The name made from a number is read back as that number. *)
Lemma used_number_Term_name (k : Z) :
  0 ≤ k → used_number (Term_name k) = Some k.
Proof.
  intros Hk. unfold used_number, Term_name.
  change ("Term " +:+ pretty k) with
    (String "T" (String "e" (String "r" (String "m" (String " " (pretty k)))))).
  assert (Hd : all_digits (pretty k) = true
               ∧ pretty k ≠ EmptyString ∧ parseInt (pretty k) = k).
  { destruct k as [|p|p]; [done| |lia].
    change (pretty (Z.pos p)) with (pretty_N_go (N.pos p) EmptyString).
    split; [by rewrite pretty_N_go_all_digits|]. split.
    - rewrite pretty_N_go_step by lia. apply pretty_N_go_nonempty.
    - unfold parseInt. by rewrite pretty_N_go_parse. }
  destruct Hd as (Hall & Hne & Hparse).
  unfold match_Term. destruct (pretty k) eqn:E; [done|].
  rewrite Hall. simpl. by rewrite Hparse.
Qed.

(** ** Display names: the claim *)

Example next_number_gap :
  Term_name (next_number ["Term 1"; "Term 2"; "Term 4"]) = "Term 3".
Proof. reflexivity. Qed.

Example next_number_none : Term_name (next_number []) = "Term 1".
Proof. reflexivity. Qed.

Example next_number_dense :
  Term_name (next_number ["Term 1"; "Term 2"; "Term 3"]) = "Term 4".
Proof. reflexivity. Qed.

Example next_number_other_names :
  next_number ["Term 2"; "bash"; "Term 1"; "Term 3x"; "Term "; "term 3"] = 3.
Proof. reflexivity. Qed.

(** C2 as it is stated fails.  ["Term 0"] is not of the format
    ["Term <positive integer>"], yet it is not ignored: it matches
    [/^Term (\d+)$/], its number [0] comes first in [usedNumbers], and the
    loop leaves at once with [1], although ["Term 1"] is in use. *)
Lemma name_allocator_zero_counterexample :
  NoDup (carried ["Term 0"; "Term 1"])
  ∧ next_number ["Term 0"; "Term 1"] = 1
  ∧ "Term 1" ∈ ["Term 0"; "Term 1"]
  ∧ ¬ smallest_unused ["Term 0"; "Term 1"] (next_number ["Term 0"; "Term 1"]).
Proof.
  split; [apply NoDup_singleton|]. split; [reflexivity|].
  split; [set_solver|].
  intros (_ & Hnot & _). apply Hnot. apply list_elem_of_here.
Qed.

(** C2, amended.  When the names that match [Term <digits>] carry positive
    integers that are pairwise distinct, [getNextSessionNumber] returns the
    smallest positive integer [k] that none of them carries, and the name
    ["Term k"] made from it is not in use; a name that does not match is
    ignored; no name at all gives ["Term 1"]. *)
Theorem name_allocator_smallest_unused (names : list string) :
  NoDup (omap used_number names) →
  Forall (λ x, 1 ≤ x) (omap used_number names) →
  smallest_unused names (next_number names)
  ∧ (Term_name (next_number names) ∉ names)
  ∧ (∀ names1 name names2,
       names = names1 ++ name :: names2 → match_Term name = None →
       next_number names = next_number (names1 ++ names2))
  ∧ Term_name (next_number []) = "Term 1".
Proof.
  intros Hnodup Hpos.
  destruct (next_number_spec names Hnodup Hpos) as (H1 & H2 & H3).
  split; [|split; [|split]].
  - unfold smallest_unused. by rewrite carried_all.
  - intros Hin. apply H2. apply list_elem_of_omap.
    exists (Term_name (next_number names)). split; [done|].
    apply used_number_Term_name. lia.
  - intros names1 name names2 -> Hname. by apply next_number_ignores.
  - reflexivity.
Qed.

Lemma name_allocator_smallest_unused_witness :
  smallest_unused ["Term 1"; "Term 2"; "bash"; "Term 4"]
    (next_number ["Term 1"; "Term 2"; "bash"; "Term 4"])
  ∧ (Term_name (next_number ["Term 1"; "Term 2"; "bash"; "Term 4"])
     ∉ ["Term 1"; "Term 2"; "bash"; "Term 4"])
  ∧ (∀ names1 name names2,
       ["Term 1"; "Term 2"; "bash"; "Term 4"] = names1 ++ name :: names2 →
       match_Term name = None →
       next_number ["Term 1"; "Term 2"; "bash"; "Term 4"]
       = next_number (names1 ++ names2))
  ∧ Term_name (next_number []) = "Term 1".
Proof.
  apply (name_allocator_smallest_unused ["Term 1"; "Term 2"; "bash"; "Term 4"]).
  - apply (bool_decide_unpack _). vm_compute. exact I.
  - apply (bool_decide_unpack _). vm_compute. exact I.
Defined.

(** ** The registry as a map *)

Section Registry.
Context {V : Type}.
Implicit Types (m : list (string * V)) (k : string) (v : V).

Lemma Map_get_set_eq k v m : Map_get k (Map_set k v m) = Some v.
Proof.
  induction m as [|[k' v'] m IH]; simpl; [by rewrite decide_True|].
  destruct (decide (k = k')); simpl; [by rewrite decide_True|].
  by rewrite decide_False.
Qed.

Lemma Map_get_set_ne k k' v m :
  k ≠ k' → Map_get k' (Map_set k v m) = Map_get k' m.
Proof.
  intros Hne. induction m as [|[k0 v0] m IH]; simpl.
  - by rewrite decide_False.
  - destruct (decide (k = k0)) as [->|]; simpl.
    + by rewrite !decide_False.
    + destruct (decide (k' = k0)); [done|]. apply IH.
Qed.

Lemma Map_get_delete_eq k m : Map_get k (Map_delete k m) = None.
Proof.
  unfold Map_delete. induction m as [|[k0 v0] m IH]; [done|].
  rewrite filter_cons. simpl. destruct (decide (k0 ≠ k)); [|done].
  simpl. by rewrite decide_False.
Qed.

Lemma Map_get_delete_ne k k' m :
  k ≠ k' → Map_get k' (Map_delete k m) = Map_get k' m.
Proof.
  intros Hne. unfold Map_delete. induction m as [|[k0 v0] m IH]; [done|].
  rewrite filter_cons. simpl. destruct (decide (k0 ≠ k)) as [|Heq]; simpl.
  - destruct (decide (k' = k0)); [done|]. apply IH.
  - assert (k0 = k) as -> by (by destruct (decide (k0 = k))).
    by rewrite decide_False.
Qed.

Lemma Map_get_None k m : Map_get k m = None ↔ k ∉ m.*1.
Proof.
  induction m as [|[k' v'] m IH]; simpl.
  - split; [intros _; apply not_elem_of_nil|done].
  - rewrite not_elem_of_cons. destruct (decide (k = k')) as [->|Hne].
    + split; [done|]. by intros [? _].
    + rewrite IH. split; [by split|by intros [_ ?]].
Qed.

(** A registry entry of a fresh key goes to the end. *)
Lemma Map_set_fresh k v m :
  Map_get k m = None → Map_set k v m = m ++ [(k, v)].
Proof.
  induction m as [|[k' v'] m IH]; simpl; [done|].
  destruct (decide (k = k')); [done|]. intros E. by rewrite IH.
Qed.

Lemma Map_set_keys k v m : NoDup m.*1 → NoDup (Map_set k v m).*1.
Proof.
  induction m as [|[k' v'] m IH]; simpl.
  - intros _. apply NoDup_singleton.
  - rewrite NoDup_cons. intros [Hnotin Hnodup].
    destruct (decide (k = k')) as [->|Hne]; simpl.
    + by apply NoDup_cons.
    + apply NoDup_cons. split; [|by apply IH].
      intros Hin. apply Hnotin.
      apply list_elem_of_fmap in Hin as ([k0 v0] & -> & Hin). simpl.
      clear -Hin Hne. induction m as [|[k1 v1] m IH]; simpl in *.
      * apply list_elem_of_singleton in Hin. by injection Hin as -> ->.
      * destruct (decide (k = k1)) as [->|].
        { apply elem_of_cons in Hin as [Hin|Hin].
          - by injection Hin as -> ->.
          - apply list_elem_of_further, list_elem_of_fmap.
            by exists (k0, v0). }
        apply elem_of_cons in Hin as [Hin|Hin].
        { injection Hin as -> ->. apply list_elem_of_here. }
        apply list_elem_of_further. by apply IH.
Qed.

Lemma Map_delete_keys k m : NoDup m.*1 → NoDup (Map_delete k m).*1.
Proof.
  intros H. apply (sublist_NoDup _ m.*1); [exact H|].
  unfold Map_delete. apply fmap_sublist, sublist_filter.
Qed.

Lemma Map_get_elem k v m : NoDup m.*1 → (k, v) ∈ m → Map_get k m = Some v.
Proof.
  induction m as [|[k' v'] m IH]; simpl.
  - intros _ Hin. by apply elem_of_nil in Hin.
  - rewrite NoDup_cons. intros [Hnotin Hnodup] Hin.
    apply elem_of_cons in Hin as [Hin|Hin].
    + injection Hin as -> ->. by rewrite decide_True.
    + rewrite decide_False; [by apply IH|]. intros ->. apply Hnotin.
      apply list_elem_of_fmap. by exists (k', v).
Qed.

End Registry.

(** ** Counting what a viewer received *)

Lemma closed_count_app (i : string) (l1 l2 : list message) :
  closed_count i (l1 ++ l2) = (closed_count i l1 + closed_count i l2)%nat.
Proof. unfold closed_count. by rewrite filter_app, length_app. Qed.

Lemma closed_count_quiet (i : string) (l : list message) :
  Forall quiet l → closed_count i l = 0%nat.
Proof.
  unfold closed_count. induction 1 as [|m l Hm _ IH]; [done|].
  rewrite filter_cons_False; [done|]. intros ->. done.
Qed.

Lemma closed_count_output (i j d : string) :
  closed_count i [output j d] = 0%nat.
Proof. done. Qed.

Lemma closed_count_closed (i j : string) :
  closed_count i [session_closed j] = if decide (j = i) then 1%nat else 0%nat.
Proof.
  unfold closed_count. rewrite filter_cons, filter_nil.
  destruct (decide (j = i)) as [->|].
  - by rewrite decide_True.
  - rewrite decide_False; [done|]. intros [= ?]. done.
Qed.

Lemma outputs_of_app (i : string) (l1 l2 : list message) :
  outputs_of i (l1 ++ l2) = outputs_of i l1 ++ outputs_of i l2.
Proof. apply omap_app. Qed.

Lemma outputs_of_quiet (i : string) (l : list message) :
  Forall quiet l → outputs_of i l = [].
Proof.
  induction 1 as [|m l Hm _ IH]; [done|].
  destruct m; simpl in Hm; try done; exact IH.
Qed.

(** ** Processes and session objects *)

Lemma running_alt (st : server) (ref : nat) :
  wf st →
  running ref st = true ↔
  is_Some (heap st !! ref) ∧ Pty.alive <$> ptys st !! ref = Some true.
Proof.
  intros Hwf. unfold running. split.
  - destruct (heap st !! ref) as [s|] eqn:E; simpl; [|done].
    rewrite (wf_pty st Hwf ref s E).
    destruct (ptys st !! ref) as [p|]; simpl; [|done].
    intros ->. eauto.
  - intros [[s E] Hp]. rewrite E. simpl. rewrite (wf_pty st Hwf ref s E).
    destruct (ptys st !! ref) as [p|]; simpl in *; congruence.
Qed.

Lemma heap_ids_inj (st : server) (r1 r2 : nat) (s1 s2 : Session.t) :
  wf st → heap st !! r1 = Some s1 → heap st !! r2 = Some s2 →
  Session.id s1 = Session.id s2 → r1 = r2.
Proof.
  intros Hwf E1 E2 Hid.
  apply (NoDup_lookup _ r1 r2 (Session.id s1) (wf_ids st Hwf)).
  - by rewrite list_lookup_fmap, E1.
  - by rewrite list_lookup_fmap, E2, Hid.
Qed.

Lemma wf_empty_server : wf empty_server.
Proof. split; try done; apply NoDup_nil_2. Qed.

(** ** Steps that keep the session objects and the registry *)

Lemma running_frame (st st' : server) (ref : nat) :
  Session.pty <$> heap st' = Session.pty <$> heap st →
  (∀ n, Pty.alive <$> ptys st' !! n = Pty.alive <$> ptys st !! n) →
  running ref st' = running ref st.
Proof.
  intros Hpty Halive. unfold running.
  assert (Session.pty <$> heap st' !! ref = Session.pty <$> heap st !! ref)
    as Hl by (by rewrite <- !list_lookup_fmap, Hpty).
  destruct (heap st' !! ref) as [s'|], (heap st !! ref) as [s|];
    simpl in *; try done.
  injection Hl as ->. specialize (Halive (Session.pty s)).
  destruct (ptys st' !! Session.pty s), (ptys st !! Session.pty s);
    simpl in *; congruence.
Qed.

Lemma heap_lookup_frame (st st' : server) (ref : nat) (s' : Session.t) :
  Session.id <$> heap st' = Session.id <$> heap st →
  Session.pty <$> heap st' = Session.pty <$> heap st →
  heap st' !! ref = Some s' →
  ∃ s, heap st !! ref = Some s
    ∧ Session.id s = Session.id s' ∧ Session.pty s = Session.pty s'.
Proof.
  intros Hid Hpty E.
  assert (Session.id <$> heap st !! ref = Some (Session.id s')) as H1
    by (by rewrite <- list_lookup_fmap, <- Hid, list_lookup_fmap, E).
  assert (Session.pty <$> heap st !! ref = Some (Session.pty s')) as H2
    by (by rewrite <- list_lookup_fmap, <- Hpty, list_lookup_fmap, E).
  destruct (heap st !! ref) as [s|]; simpl in *; [|done].
  exists s. split; [done|]. split; congruence.
Qed.

(** A step that changes neither the ids, the processes of the session
    objects nor which processes run, that registers nothing, and that sends
    no announcement of a closing, keeps the invariant. *)
Lemma wf_frame (st st' : server) :
  wf st →
  Session.id <$> heap st' = Session.id <$> heap st →
  Session.pty <$> heap st' = Session.pty <$> heap st →
  (∀ ref s', heap st' !! ref = Some s' →
     RingBuffer.inv HISTORY_LIMIT (Session.history s')) →
  sessions st' = sessions st →
  length (ptys st') = length (ptys st) →
  (∀ n, Pty.alive <$> ptys st' !! n = Pty.alive <$> ptys st !! n) →
  (∀ socket c', sockets st' !! socket = Some c' →
     (∀ i, closed_count i (Socket.received c') = 0%nat)
     ∨ ∃ c, sockets st !! socket = Some c
         ∧ ∀ i, closed_count i (Socket.received c')
                = closed_count i (Socket.received c)) →
  wf st'.
Proof.
  intros Hwf Hid Hpty Hhist Hsess Hlen Halive Hsock.
  assert (Hrun : ∀ ref, running ref st' = running ref st)
    by (intros; by apply running_frame).
  assert (Hheaplen : length (heap st') = length (heap st)).
  { by rewrite <- (length_fmap Session.id), Hid, length_fmap. }
  split.
  - rewrite Hlen, Hheaplen. apply Hwf.
  - intros ref s' E.
    destruct (heap_lookup_frame st st' ref s' Hid Hpty E) as (s & Es & _ & <-).
    by apply (wf_pty st Hwf).
  - rewrite Hid. apply Hwf.
  - intros i ref. rewrite Hsess, Hrun. intros E.
    destruct (wf_registry st Hwf i ref E) as [? Hi]. split; [done|].
    by rewrite <- list_lookup_fmap, Hid, list_lookup_fmap.
  - done.
  - intros socket c' i E.
    destruct (Hsock socket c' E) as [H0|(c & Ec & Hc)]; [by left|].
    rewrite Hc.
    destruct (wf_closed st Hwf socket c i Ec) as [?|[? (ref & s & Es & Hi & Hr)]];
      [by left|right].
    split; [done|].
    assert (Session.id <$> heap st' !! ref = Some i) as Hi'.
    { by rewrite <- list_lookup_fmap, Hid, list_lookup_fmap, Es, <- Hi. }
    destruct (heap st' !! ref) as [s'|] eqn:Es'; simpl in Hi'; [|done].
    exists ref, s'. split; [done|]. split; [congruence|]. by rewrite Hrun.
  - rewrite Hsess. apply Hwf.
Qed.

Lemma extends_refl (st : server) : extends st st.
Proof. split; eauto. Qed.

Lemma extends_trans (st1 st2 st3 : server) :
  extends st1 st2 → extends st2 st3 → extends st1 st3.
Proof.
  intros [H1 D1] [H2 D2]. split.
  - intros ref s E. destruct (H1 ref s E) as (s2 & E2 & ? & ?).
    destruct (H2 ref s2 E2) as (s3 & E3 & ? & ?).
    exists s3. split; [done|]. split; congruence.
  - intros ref [s E] Hr. apply D2; [|by apply D1; eauto].
    destruct (H1 ref s E) as (s2 & E2 & _). eauto.
Qed.

Lemma extends_frame (st st' : server) :
  Session.id <$> heap st' = Session.id <$> heap st →
  Session.name <$> heap st' = Session.name <$> heap st →
  Session.pty <$> heap st' = Session.pty <$> heap st →
  (∀ n, Pty.alive <$> ptys st' !! n = Pty.alive <$> ptys st !! n) →
  extends st st'.
Proof.
  intros Hid Hname Hpty Halive. split.
  - intros ref s E.
    assert (Session.id <$> heap st' !! ref = Some (Session.id s)) as H1
      by (by rewrite <- list_lookup_fmap, Hid, list_lookup_fmap, E).
    assert (Session.name <$> heap st' !! ref = Some (Session.name s)) as H2
      by (by rewrite <- list_lookup_fmap, Hname, list_lookup_fmap, E).
    destruct (heap st' !! ref) as [s'|]; simpl in *; [|done].
    exists s'. split; [done|]. split; congruence.
  - intros ref _ Hr. by rewrite (running_frame st st').
Qed.

(** ** What each handler does to the state *)

Section Handlers.
Context (junk : Z → byte) (utf8 : list byte → string).

Lemma HISTORY_LIMIT_pos : 0 < HISTORY_LIMIT.
Proof. done. Qed.

Lemma enabled_running_heap (st : server) (ref : nat) :
  running ref st = true → ∃ s, heap st !! ref = Some s.
Proof.
  unfold running. destruct (heap st !! ref) as [s|]; [eauto|done].
Qed.

(** The output handler: the chunk goes to the history, then to the room. *)
Lemma on_data_eq (st : server) (ref : nat) (d : string) (s : Session.t) :
  wf st → heap st !! ref = Some s →
  ∃ h, RingBuffer.append_string (Session.history s) d = Normal h
    ∧ RingBuffer.inv HISTORY_LIMIT h
    ∧ RingBuffer.contents h
      = lastn (Z.to_nat HISTORY_LIMIT)
              (RingBuffer.contents (Session.history s) ++ Buffer.from d)
    ∧ on_data ref d st
      = {| ptys := ptys st;
           heap := <[ref := Session.with_history h s]> (heap st);
           sessions := sessions st;
           sockets :=
             (λ c, if decide (Session.id s ∈ Socket.rooms c)
                   then Socket.emit (output (Session.id s) d) c else c)
               <$> sockets st |}.
Proof.
  intros Hwf E.
  destruct (append_contents HISTORY_LIMIT (Session.history s) (Buffer.from d)
              HISTORY_LIMIT_pos (wf_history st Hwf ref s E))
    as (h & Eh & Ih & Ch).
  exists h. split; [done|]. split; [done|]. split; [done|].
  unfold on_data. rewrite E. unfold RingBuffer.append_string. by rewrite Eh.
Qed.

(** The exit handler, after the process has gone. *)
Lemma on_exit_eq (st : server) (ref : nat) (code : Z) (s : Session.t) :
  wf st → heap st !! ref = Some s →
  handle junk utf8 (PtyExit ref code) st
  = {| ptys := alter Pty.exited ref (ptys st);
       heap := heap st;
       sessions := Map_delete (Session.id s) (sessions st);
       sockets := Socket.emit (session_closed (Session.id s)) <$> sockets st |}.
Proof.
  intros Hwf E. simpl. rewrite E. unfold on_exit. simpl. rewrite E.
  by rewrite (wf_pty st Hwf ref s E).
Qed.

Lemma createSession_eq (st : server) (id : string) :
  createSession junk id true st
  = (Some (length (heap st)),
     {| ptys := ptys st ++ [Pty.spawn];
        heap := heap st ++
          [{| Session.id := id;
              Session.name := Term_name (getNextSessionNumber st);
              Session.pty := length (ptys st);
              Session.history := RingBuffer.constructor junk HISTORY_LIMIT |}];
        sessions := Map_set id (length (heap st)) (sessions st);
        sockets := sockets st |}).
Proof. done. Qed.

(** Which processes run after a session was created. *)
Lemma running_created (st : server) (id : string) (ref : nat) :
  wf st →
  running ref (createSession junk id true st).2
  = if decide (ref = length (heap st)) then true else running ref st.
Proof.
  intros Hwf. rewrite createSession_eq. unfold running. simpl.
  pose proof (wf_ptys st Hwf) as Hlen.
  case_decide as Href.
  - subst ref. rewrite list_lookup_middle by done. simpl.
    by rewrite list_lookup_middle.
  - destruct (decide (ref < length (heap st))%nat) as [Hlt|Hge].
    + rewrite lookup_app_l by done.
      destruct (heap st !! ref) as [s|] eqn:E; simpl; [|done].
      rewrite (wf_pty st Hwf ref s E). by rewrite lookup_app_l by lia.
    + rewrite (lookup_ge_None_2 (heap st ++ _)) by (rewrite length_app; simpl; lia).
      by rewrite (lookup_ge_None_2 (heap st)) by lia.
Qed.

Lemma wf_createSession (st : server) (id : string) :
  wf st → id ∉ Session.id <$> heap st →
  wf (createSession junk id true st).2.
Proof.
  intros Hwf Hfresh.
  assert (Hrun := running_created st id).
  rewrite createSession_eq in *. simpl in *. split; simpl.
  - rewrite !length_app. simpl. by rewrite (wf_ptys st Hwf).
  - intros ref s. rewrite lookup_snoc_Some. intros [[_ E]|[-> <-]].
    + by apply (wf_pty st Hwf).
    + simpl. apply (wf_ptys st Hwf).
  - rewrite fmap_app. apply NoDup_app. split; [apply Hwf|]. split.
    + intros x Hx. simpl. rewrite list_elem_of_singleton. by intros ->.
    + apply NoDup_singleton.
  - intros i ref. rewrite (Hrun ref Hwf).
    destruct (decide (id = i)) as [->|Hne].
    + rewrite Map_get_set_eq. intros [= <-]. rewrite decide_True by done.
      split; [done|]. by rewrite list_lookup_middle.
    + rewrite Map_get_set_ne by done. intros E.
      destruct (wf_registry st Hwf i ref E) as [Hr Hi]. rewrite Hr.
      split; [by case_decide|].
      destruct (heap st !! ref) as [s|] eqn:Es; [|done].
      by rewrite (lookup_app_l_Some _ _ _ _ Es).
  - intros ref s. rewrite lookup_snoc_Some. intros [[_ E]|[_ <-]].
    + by apply (wf_history st Hwf ref).
    + simpl. apply constructor_inv, HISTORY_LIMIT_pos.
  - intros socket c i E.
    destruct (wf_closed st Hwf socket c i E) as [?|[? (ref & s & Es & Hi & Hr)]];
      [by left|right].
    split; [done|]. exists ref, s.
    split; [by apply lookup_app_l_Some|]. split; [done|].
    rewrite (Hrun ref Hwf). rewrite decide_False; [done|].
    apply lookup_lt_Some in Es. lia.
  - apply Map_set_keys, Hwf.
Qed.

End Handlers.

(** ** The invariant is kept by every step *)

Section Steps.
Context (junk : Z → byte) (utf8 : list byte → string).

Lemma closed_count_emit_quiet (i : string) (m : message) (c : Socket.t) :
  quiet m →
  closed_count i (Socket.received (Socket.emit m c))
  = closed_count i (Socket.received c).
Proof.
  intros Hm. simpl. rewrite closed_count_app.
  rewrite (closed_count_quiet i [m]); [lia|]. by apply Forall_singleton.
Qed.

Lemma wf_on_connection (st : server) (socket : nat) :
  wf st → wf (on_connection socket st).
Proof.
  intros Hwf. apply (wf_frame st); try done; [apply Hwf|].
  intros socket0 c'. unfold on_connection. simpl.
  rewrite lookup_alter. case_decide as Hs.
  - subst. rewrite lookup_insert_eq. simpl. intros [= <-]. by left.
  - rewrite lookup_insert_ne by done. intros E. right. by exists c'.
Qed.

Lemma wf_on_disconnect (st : server) (socket : nat) :
  wf st → wf (on_disconnect socket st).
Proof.
  intros Hwf. apply (wf_frame st); try done; [apply Hwf|].
  intros socket0 c'. simpl. rewrite lookup_delete_Some. intros [_ E].
  right. by exists c'.
Qed.

Lemma wf_socket_alter (st : server) (socket : nat) (f : Socket.t → Socket.t) :
  (∀ c i, closed_count i (Socket.received (f c))
          = closed_count i (Socket.received c)) →
  wf st → wf (set_sockets (alter f socket) st).
Proof.
  intros Hf Hwf. apply (wf_frame st); try done; [apply Hwf|].
  intros socket0 c'. simpl. rewrite lookup_alter_Some.
  intros [[_ (c & E & ->)]|[_ E]]; right; [|by exists c'].
  exists c. split; [done|]. intros i. apply Hf.
Qed.

Lemma wf_on_subscribe_session (st : server) (socket : nat) (i : string) :
  wf st → wf (on_subscribe_session utf8 socket i st).
Proof.
  intros Hwf. unfold on_subscribe_session.
  destruct (Map_get i (sessions st) ≫= _) as [s|]; [|done].
  assert (wf (socket_join socket i st)) as Hwf1
    by (by apply wf_socket_alter).
  destruct (String.length _ =? 0)%nat; [done|].
  apply wf_socket_alter; [|done].
  intros c j. by apply closed_count_emit_quiet.
Qed.

Lemma wf_on_create_session (st : server) (socket : nat) (callback : bool)
    (id : string) (spawned : bool) :
  wf st → id ∉ Session.id <$> heap st →
  wf (on_create_session junk socket callback id spawned st).
Proof.
  intros Hwf Hfresh. unfold on_create_session.
  destruct spawned; [|done].
  pose proof (wf_createSession junk st id Hwf Hfresh) as Hwf1.
  destruct (createSession junk id true st) as [newSession st1]. simpl in *.
  destruct (newSession ≫= _) as [s|]; [|done].
  destruct callback; [|done].
  apply wf_socket_alter; [|done].
  intros c j. by apply closed_count_emit_quiet.
Qed.

Lemma wf_on_terminal_input (st : server) (i data : string) :
  wf st → wf (on_terminal_input i data st).
Proof.
  intros Hwf. unfold on_terminal_input.
  destruct (Map_get i (sessions st) ≫= _) as [s|]; [|done].
  apply (wf_frame st); try done; simpl.
  - apply Hwf.
  - apply length_alter.
  - intros n. rewrite list_lookup_alter. case_decide as Hn; [|done].
    rewrite <- Hn.
    destruct (ptys st !! Session.pty s) as [p|]; [|done]. simpl.
    unfold Pty.write. destruct (Pty.alive p) eqn:E; simpl; by rewrite ?E.
  - intros socket c' E. right. by exists c'.
Qed.

Lemma wf_on_terminal_resize (st : server) (i : string) (cols rows : Z) :
  wf st → wf (on_terminal_resize i cols rows st).
Proof.
  intros Hwf. unfold on_terminal_resize.
  destruct (Map_get i (sessions st) ≫= _) as [s|]; [|done].
  destruct (ptys st !! Session.pty s) as [p0|] eqn:Ep; simpl; [|done].
  destruct (Pty.resize cols rows p0) as [p|] eqn:Er; [|done].
  apply (wf_frame st); try done; simpl.
  - apply Hwf.
  - apply length_insert.
  - intros n. rewrite list_lookup_insert. case_decide as Hn; [|done].
    destruct Hn as [<- _]. rewrite Ep. simpl.
    unfold Pty.resize in Er.
    destruct (Pty.alive p0) eqn:Ea; simpl in Er; [|done].
    destruct ((0 <? cols) && (0 <? rows)); [|done]. by injection Er as <-.
  - intros socket c' E. right. by exists c'.
Qed.

Lemma wf_on_data (st : server) (ref : nat) (d : string) :
  wf st → wf (on_data ref d st).
Proof.
  intros Hwf. destruct (heap st !! ref) as [s|] eqn:E.
  2:{ unfold on_data. by rewrite E. }
  destruct (on_data_eq st ref d s Hwf E) as (h & _ & Ih & _ & ->).
  apply (wf_frame st); try done; simpl.
  - rewrite list_fmap_insert. apply list_insert_id.
    by rewrite list_lookup_fmap, E.
  - rewrite list_fmap_insert. apply list_insert_id.
    by rewrite list_lookup_fmap, E.
  - intros r s'. rewrite list_lookup_insert_Some.
    intros [(_ & <- & _)|[_ E']]; [done|]. by apply (wf_history st Hwf r).
  - intros socket c'. rewrite lookup_fmap.
    destruct (sockets st !! socket) as [c|]; simpl; [|done].
    intros [= <-]. right. exists c. split; [done|]. intros i.
    case_decide; [|done]. simpl. rewrite closed_count_app.
    rewrite closed_count_output. lia.
Qed.

(** Which processes run after the process of [ref] has gone. *)
Lemma running_exited (st : server) (ref r : nat) (code : Z) (s : Session.t) :
  wf st → heap st !! ref = Some s →
  running r (handle junk utf8 (PtyExit ref code) st)
  = if decide (r = ref) then false else running r st.
Proof.
  intros Hwf E. rewrite (on_exit_eq junk utf8 st ref code s Hwf E).
  unfold running. simpl.
  destruct (heap st !! r) as [s'|] eqn:E'; simpl; [|by case_decide].
  rewrite (wf_pty st Hwf r s' E'). rewrite list_lookup_alter.
  case_decide; subst.
  - rewrite decide_True by done.
    destruct (ptys st !! r) as [p|]; by simpl.
  - by rewrite decide_False by done.
Qed.

Lemma wf_on_exit (st : server) (ref : nat) (code : Z) :
  wf st → running ref st = true →
  wf (handle junk utf8 (PtyExit ref code) st).
Proof.
  intros Hwf Hr.
  destruct (enabled_running_heap st ref Hr) as [s E].
  pose proof (running_exited st ref) as Hrun.
  specialize (fun r => Hrun r code s Hwf E).
  rewrite (on_exit_eq junk utf8 st ref code s Hwf E) in *.
  split; simpl.
  - rewrite length_alter. apply Hwf.
  - apply Hwf.
  - apply Hwf.
  - intros i r Hget. rewrite Hrun.
    destruct (decide (Session.id s = i)) as [<-|Hne].
    { by rewrite Map_get_delete_eq in Hget. }
    rewrite Map_get_delete_ne in Hget by done.
    destruct (wf_registry st Hwf i r Hget) as [Hrr Hi]. split; [|done].
    rewrite decide_False; [done|]. intros ->. rewrite E in Hi.
    simpl in Hi. congruence.
  - apply Hwf.
  - intros socket c' i. rewrite lookup_fmap.
    destruct (sockets st !! socket) as [c|] eqn:Ec; simpl; [|done].
    intros [= <-]. simpl. rewrite closed_count_app, closed_count_closed.
    destruct (wf_closed st Hwf socket c i Ec)
      as [H0|[H1 (r & s' & Es' & Hi & Hdead)]].
    + rewrite H0. case_decide as Hid; [right|by left].
      split; [done|]. exists ref, s. split; [done|]. split; [done|].
      rewrite Hrun. by rewrite decide_True.
    + rewrite H1. case_decide as Hid.
      { subst i.
        assert (r = ref) as -> by (by apply (heap_ids_inj st r ref s' s)).
        congruence. }
      right. split; [lia|]. exists r, s'. split; [done|]. split; [done|].
      rewrite Hrun. by case_decide.
  - apply Map_delete_keys, Hwf.
Qed.

(** Every enabled step keeps the invariant. *)
Lemma wf_step (st st' : server) (e : event) :
  wf st → step junk utf8 e st = Some st' → wf st'.
Proof.
  intros Hwf. unfold step.
  destruct (enabled e st) eqn:Hen; [|done]. intros [= <-].
  destruct e; simpl in *.
  - by apply wf_on_connection.
  - by apply wf_on_disconnect.
  - by apply wf_on_subscribe_session.
  - apply wf_on_create_session; [done|].
    apply andb_prop in Hen as [_ Hen]. by apply bool_decide_eq_true_1 in Hen.
  - by apply wf_on_terminal_input.
  - by apply wf_on_terminal_resize.
  - by apply wf_on_data.
  - by apply (wf_on_exit st ref code).
Qed.

Lemma wf_run (evs : list event) :
  ∀ st st', wf st → run junk utf8 evs st = Some st' → wf st'.
Proof.
  induction evs as [|e evs IH]; intros st st' Hwf; simpl.
  - by intros [= <-].
  - destruct (step junk utf8 e st) as [st1|] eqn:E; simpl; [|done].
    apply IH. by apply (wf_step st st1 e).
Qed.

Lemma wf_startup (id : string) (spawned : bool) :
  wf (startup junk id spawned).
Proof.
  unfold startup. simpl. destruct spawned.
  - apply wf_createSession; [apply wf_empty_server|]. apply not_elem_of_nil.
  - apply wf_empty_server.
Qed.

(** Every state the server can be in satisfies the invariant. *)
Lemma wf_reachable (st : server) : reachable junk utf8 st → wf st.
Proof.
  intros (id & spawned & evs & E).
  apply (wf_run evs _ _ (wf_startup id spawned) E).
Qed.

End Steps.

(** ** What a step keeps, and what it sends to a socket *)

Section Traces.
Context (junk : Z → byte) (utf8 : list byte → string).

Lemma alive_write (data : string) (p : Pty.t) :
  Pty.alive (Pty.write data p) = Pty.alive p.
Proof. unfold Pty.write. destruct (Pty.alive p) eqn:E; simpl; by rewrite ?E. Qed.

Lemma alive_resize (cols rows : Z) (p0 p : Pty.t) :
  Pty.resize cols rows p0 = Some p → Pty.alive p = Pty.alive p0.
Proof.
  unfold Pty.resize. destruct (Pty.alive p0) eqn:Ea; simpl; [|done].
  destruct ((0 <? cols) && (0 <? rows)); [|done]. by intros [= <-].
Qed.

Lemma on_terminal_input_frame (st : server) (i data : string) :
  heap (on_terminal_input i data st) = heap st
  ∧ sessions (on_terminal_input i data st) = sessions st
  ∧ sockets (on_terminal_input i data st) = sockets st
  ∧ ∀ n, Pty.alive <$> ptys (on_terminal_input i data st) !! n
         = Pty.alive <$> ptys st !! n.
Proof.
  unfold on_terminal_input.
  destruct (Map_get i (sessions st) ≫= _) as [s|]; [|done].
  repeat split. intros n. simpl. rewrite list_lookup_alter.
  case_decide as Hn; [|done]. rewrite <- Hn.
  destruct (ptys st !! Session.pty s) as [p|]; [|done]. simpl.
  by rewrite alive_write.
Qed.

Lemma on_terminal_resize_frame (st : server) (i : string) (cols rows : Z) :
  heap (on_terminal_resize i cols rows st) = heap st
  ∧ sessions (on_terminal_resize i cols rows st) = sessions st
  ∧ sockets (on_terminal_resize i cols rows st) = sockets st
  ∧ ∀ n, Pty.alive <$> ptys (on_terminal_resize i cols rows st) !! n
         = Pty.alive <$> ptys st !! n.
Proof.
  unfold on_terminal_resize.
  destruct (Map_get i (sessions st) ≫= _) as [s|]; [|done].
  destruct (ptys st !! Session.pty s) as [p0|] eqn:Ep; simpl; [|done].
  destruct (Pty.resize cols rows p0) as [p|] eqn:Er; [|done].
  repeat split. intros n. simpl. rewrite list_lookup_insert.
  case_decide as Hn; [|done]. destruct Hn as [<- _]. rewrite Ep. simpl.
  by rewrite (alive_resize cols rows p0 p).
Qed.

Lemma extends_createSession (st : server) (id : string) :
  wf st → extends st (createSession junk id true st).2.
Proof.
  intros Hwf. split.
  - intros ref s E. exists s. rewrite createSession_eq. simpl.
    split; [by apply lookup_app_l_Some|done].
  - intros ref [s E] Hr. rewrite running_created by done.
    rewrite decide_False; [done|]. apply lookup_lt_Some in E. lia.
Qed.

Lemma extends_step (st st' : server) (e : event) :
  wf st → step junk utf8 e st = Some st' → extends st st'.
Proof.
  intros Hwf. unfold step.
  destruct (enabled e st) eqn:Hen; [|done]. intros [= <-].
  destruct e; simpl in *.
  - by apply extends_frame.
  - by apply extends_frame.
  - unfold on_subscribe_session.
    destruct (Map_get sessionId (sessions st) ≫= _) as [s|];
      [|apply extends_refl].
    destruct (String.length _ =? 0)%nat; by apply extends_frame.
  - unfold on_create_session. destruct spawned; [|apply extends_refl].
    pose proof (extends_createSession st id Hwf) as Hext.
    destruct (createSession junk id true st) as [newSession st1]. simpl in *.
    destruct (newSession ≫= _) as [s|]; [|done].
    destruct callback; [|done].
    apply (extends_trans st st1); [done|]. by apply extends_frame.
  - destruct (on_terminal_input_frame st sessionId data) as (Hh & _ & _ & Ha).
    apply extends_frame; by rewrite ?Hh.
  - destruct (on_terminal_resize_frame st sessionId cols rows)
      as (Hh & _ & _ & Ha).
    apply extends_frame; by rewrite ?Hh.
  - destruct (enabled_running_heap st ref Hen) as [s E].
    destruct (on_data_eq st ref d s Hwf E) as (h & _ & _ & _ & ->).
    apply extends_frame; simpl; try done;
      rewrite list_fmap_insert; apply list_insert_id;
      by rewrite list_lookup_fmap, E.
  - destruct (enabled_running_heap st ref Hen) as [s E].
    split.
    + intros r s' E'. exists s'.
      pose proof (on_exit_eq junk utf8 st ref code s Hwf E) as Heq.
      simpl in Heq. rewrite Heq. by simpl.
    + intros r _ Hr.
      pose proof (running_exited junk utf8 st ref r code s Hwf E) as Hr'.
      simpl in Hr'. rewrite Hr'. by case_decide.
Qed.

Lemma extends_run (evs : list event) :
  ∀ st st', wf st → run junk utf8 evs st = Some st' → extends st st'.
Proof.
  induction evs as [|e evs IH]; intros st st' Hwf; simpl.
  - intros [= <-]. apply extends_refl.
  - destruct (step junk utf8 e st) as [st1|] eqn:E; simpl; [|done].
    intros Hrun. apply (extends_trans st st1).
    + by apply (extends_step st st1 e).
    + apply IH; [|done]. by apply (wf_step junk utf8 st st1 e).
Qed.

(** What one step sends to a socket that is connected and stays so. *)
Lemma step_socket (st : server) (e : event) (socket : nat) (c : Socket.t) :
  wf st → enabled e st = true →
  sockets st !! socket = Some c → stays socket [e] = true →
  ∃ c' Δ, sockets (handle junk utf8 e st) !! socket = Some c'
    ∧ Socket.rooms c ⊆ Socket.rooms c'
    ∧ Socket.received c' = Socket.received c ++ Δ
    ∧ delta_spec st e c Δ.
Proof.
  intros Hwf Hen Ec Hstay.
  assert (Hsame : ∃ c' Δ, sockets st !! socket = Some c'
            ∧ Socket.rooms c ⊆ Socket.rooms c'
            ∧ Socket.received c' = Socket.received c ++ Δ
            ∧ Forall quiet Δ).
  { exists c, []. rewrite (right_id_L [] (++)). by repeat split. }
  destruct e; simpl in *.
  - (* Connect *)
    unfold on_connection. simpl.
    assert (socket0 ≠ socket) as Hne.
    { intros ->. unfold connected in Hen. rewrite Ec in Hen.
      rewrite bool_decide_eq_true_2 in Hen by eauto. done. }
    by rewrite lookup_alter_ne, lookup_insert_ne.
  - (* Disconnect *)
    assert (socket0 ≠ socket) as Hne.
    { intros ->. by rewrite Nat.eqb_refl in Hstay. }
    by rewrite lookup_delete_ne.
  - (* SubscribeSession *)
    unfold on_subscribe_session.
    destruct (Map_get sessionId (sessions st) ≫= _) as [s|]; [|done].
    destruct (decide (socket0 = socket)) as [->|Hne].
    + destruct (String.length _ =? 0)%nat; simpl.
      * rewrite lookup_alter_eq, Ec. simpl.
        exists (Socket.join sessionId c), [].
        rewrite (right_id_L [] (++)).
        repeat split; [apply union_subseteq_r|done].
      * rewrite !lookup_alter_eq, Ec. simpl.
        eexists _, [_]. repeat split; [apply union_subseteq_r|].
        by apply Forall_singleton.
    + destruct (String.length _ =? 0)%nat; simpl;
        by rewrite ?lookup_alter_ne.
  - (* CreateSession *)
    unfold on_create_session. destruct spawned; [|done].
    rewrite createSession_eq. simpl.
    rewrite list_lookup_middle by done. simpl.
    destruct callback; [|done]. simpl.
    destruct (decide (socket0 = socket)) as [->|Hne].
    + rewrite lookup_alter_eq, Ec. simpl.
      eexists _, [_]. repeat split; [done|]. by apply Forall_singleton.
    + by rewrite lookup_alter_ne.
  - (* TerminalInput *)
    destruct (on_terminal_input_frame st sessionId data) as (_ & _ & -> & _).
    done.
  - (* TerminalResize *)
    destruct (on_terminal_resize_frame st sessionId cols rows)
      as (_ & _ & -> & _).
    done.
  - (* PtyData *)
    destruct (enabled_running_heap st ref Hen) as [s E].
    destruct (on_data_eq st ref d s Hwf E) as (h & _ & _ & _ & ->).
    simpl. rewrite lookup_fmap, Ec. simpl.
    case_decide.
    + eexists _, [_]. repeat split; [done|].
      exists s. split; [done|]. by rewrite decide_True.
    + exists c, []. rewrite (right_id_L [] (++)). repeat split; [done|].
      exists s. split; [done|]. by rewrite decide_False.
  - (* PtyExit *)
    destruct (enabled_running_heap st ref Hen) as [s E].
    pose proof (on_exit_eq junk utf8 st ref code s Hwf E) as Heq.
    simpl in Heq. rewrite Heq. simpl. rewrite lookup_fmap, Ec. simpl.
    eexists _, [_]. repeat split; [done|]. by exists s.
Qed.

End Traces.

(** ** What a run sends to a socket *)

Section Runs.
Context (junk : Z → byte) (utf8 : list byte → string).

Lemma outputs_of_step (st : server) (e : event) (c : Socket.t)
    (Δ : list message) (ref : nat) (s : Session.t) :
  wf st → delta_spec st e c Δ →
  heap st !! ref = Some s → Session.id s ∈ Socket.rooms c →
  outputs_of (Session.id s) Δ = chunks_of ref [e].
Proof.
  intros Hwf Hd E Hroom. destruct e; simpl in Hd;
    try (by rewrite outputs_of_quiet).
  - destruct Hd as (s' & E' & ->). unfold chunks_of. simpl.
    destruct (decide (ref0 = ref)) as [->|Hne].
    + assert (s' = s) as -> by congruence.
      rewrite decide_True by done. simpl. by rewrite decide_True.
    + assert (Session.id s' ≠ Session.id s) as Hid.
      { intros Hid. apply Hne. by apply (heap_ids_inj st ref0 ref s' s). }
      case_decide; simpl; [|done]. by rewrite decide_False.
  - by destruct Hd as (s' & _ & ->).
Qed.

(** A socket that is connected and stays so keeps what it received and its
    rooms; what a run adds holds, for a session whose room it is in, the
    chunks that the process of that session produced during the run, in
    order. *)
Lemma run_socket (evs : list event) :
  ∀ (st st' : server) (socket : nat) (c : Socket.t),
    wf st → run junk utf8 evs st = Some st' →
    sockets st !! socket = Some c → stays socket evs = true →
    ∃ c' Δ, sockets st' !! socket = Some c'
      ∧ Socket.rooms c ⊆ Socket.rooms c'
      ∧ Socket.received c' = Socket.received c ++ Δ
      ∧ ∀ ref s, heap st !! ref = Some s →
          Session.id s ∈ Socket.rooms c →
          outputs_of (Session.id s) Δ = chunks_of ref evs.
Proof.
  induction evs as [|e evs IH]; intros st st' socket c Hwf Hrun Ec Hstay.
  - injection Hrun as <-. exists c, [].
    rewrite (right_id_L [] (++)). by repeat split.
  - simpl in Hrun. unfold step in Hrun.
    destruct (enabled e st) eqn:Hen; [|done]. simpl in Hrun.
    unfold stays in Hstay. simpl in Hstay.
    apply andb_prop in Hstay as [Hstay1 Hstay2].
    destruct (step_socket junk utf8 st e socket c Hwf Hen Ec)
      as (c1 & Δ1 & Ec1 & Hrooms1 & Hrec1 & Hd1).
    { unfold stays. simpl. by rewrite Hstay1. }
    assert (wf (handle junk utf8 e st)) as Hwf1.
    { apply (wf_step junk utf8 st _ e Hwf). unfold step. by rewrite Hen. }
    assert (extends st (handle junk utf8 e st)) as [Hext _].
    { apply (extends_step junk utf8 st _ e Hwf). unfold step. by rewrite Hen. }
    destruct (IH _ st' socket c1 Hwf1 Hrun Ec1 Hstay2)
      as (c' & Δ2 & Ec' & Hrooms2 & Hrec2 & Hout2).
    exists c', (Δ1 ++ Δ2). split; [done|]. split; [by etrans|].
    split; [by rewrite Hrec2, Hrec1, (assoc_L (++))|].
    intros ref s E Hroom.
    destruct (Hext ref s E) as (s1 & E1 & Hid1 & _).
    rewrite outputs_of_app.
    rewrite (outputs_of_step st e c Δ1 ref s Hwf Hd1 E Hroom).
    rewrite <- Hid1. rewrite (Hout2 ref s1 E1).
    + unfold chunks_of. by rewrite <- omap_app.
    + rewrite Hid1. by apply Hrooms1.
Qed.

End Runs.

(** ** The names of the registered sessions *)

Lemma scan_used_ge (l : list Z) : ∀ n, n ≤ scan_used n l.
Proof.
  induction l as [|x l IH]; intros n; simpl; [lia|].
  destruct (x =? n); [|lia]. specialize (IH (n + 1)). lia.
Qed.

Lemma next_number_pos (names : list string) : 1 ≤ next_number names.
Proof. apply scan_used_ge. Qed.

(** Names made from positive numbers, all different, are read back as
    positive numbers, all different. *)
Lemma made_names_numbers (names : list string) :
  (∀ name, name ∈ names → ∃ k, 1 ≤ k ∧ name = Term_name k) →
  NoDup names →
  NoDup (omap used_number names)
  ∧ Forall (λ x, 1 ≤ x) (omap used_number names).
Proof.
  induction names as [|name names IH]; intros Hmade Hnodup.
  { split; [apply NoDup_nil_2|apply Forall_nil_2]. }
  apply NoDup_cons in Hnodup as [Hnotin Hnodup].
  destruct IH as [IH1 IH2]; [|done|].
  { intros name' Hin. apply Hmade. by apply list_elem_of_further. }
  destruct (Hmade name) as (k & Hk & ->); [apply list_elem_of_here|].
  simpl. rewrite used_number_Term_name by lia. split.
  - apply NoDup_cons. split; [|done].
    intros Hin. apply list_elem_of_omap in Hin as (name' & Hin' & Hnum).
    destruct (Hmade name') as (k' & Hk' & ->);
      [by apply list_elem_of_further|].
    rewrite used_number_Term_name in Hnum by lia.
    injection Hnum as ->. done.
  - by apply Forall_cons.
Qed.

Lemma registered_names_alt (st : server) :
  registered_names st
  = omap (λ ref, (Session.name <$> heap st) !! ref)
         (Map_values (sessions st)).
Proof.
  unfold registered_names, session_values. rewrite list_fmap_omap.
  apply list_omap_ext, Forall2_same_length_lookup_2; [done|].
  intros i x y E1 E2. assert (x = y) as -> by congruence.
  by rewrite list_lookup_fmap.
Qed.

Lemma registered_names_frame (st st' : server) :
  Session.name <$> heap st' = Session.name <$> heap st →
  sessions st' = sessions st →
  registered_names st' = registered_names st.
Proof. intros Hn Hs. by rewrite !registered_names_alt, Hn, Hs. Qed.

Lemma registered_name_made (st : server) (name : string) :
  (∀ ref s, heap st !! ref = Some s →
     ∃ k, 1 ≤ k ∧ Session.name s = Term_name k) →
  name ∈ registered_names st → ∃ k, 1 ≤ k ∧ name = Term_name k.
Proof.
  intros Hmade. unfold registered_names, session_values.
  rewrite list_elem_of_fmap. intros (s & -> & Hin).
  apply list_elem_of_omap in Hin as (ref & _ & E). by apply (Hmade ref).
Qed.

Lemma names_after_delete (names : list string) (m : list (string * nat))
    (k : string) :
  NoDup (omap (λ ref, names !! ref) (Map_values m)) →
  NoDup (omap (λ ref, names !! ref) (Map_values (Map_delete k m))).
Proof.
  unfold Map_values, Map_delete.
  assert (Hsub : ∀ l : list (string * nat), ∀ x,
            x ∈ omap (λ ref, names !! ref) (filter (λ kv, kv.1 ≠ k) l).*2 →
            x ∈ omap (λ ref, names !! ref) l.*2).
  { intros l x. rewrite !list_elem_of_omap.
    intros (ref & Hin & E). exists ref. split; [|done].
    apply list_elem_of_fmap in Hin as ([k' r] & -> & Hin).
    apply list_elem_of_filter in Hin as [_ Hin].
    apply list_elem_of_fmap. by exists (k', r). }
  induction m as [|[k' ref] m IH]; [done|].
  rewrite filter_cons. simpl.
  destruct (names !! ref) as [name|] eqn:E.
  - rewrite NoDup_cons. intros [Hnotin Hnodup].
    destruct (decide (k' ≠ k)); simpl; [|by apply IH].
    rewrite E. apply NoDup_cons. split; [|by apply IH].
    intros Hin. apply Hnotin. by apply Hsub.
  - intros Hnodup. destruct (decide (k' ≠ k)); simpl; [|by apply IH].
    rewrite E. by apply IH.
Qed.

Section Names.
Context (junk : Z → byte) (utf8 : list byte → string).

Lemma names_ok_numbers (st : server) :
  names_ok st →
  NoDup (omap used_number (registered_names st))
  ∧ Forall (λ x, 1 ≤ x) (omap used_number (registered_names st)).
Proof.
  intros [Hmade Hnodup]. apply made_names_numbers; [|done].
  intros name. by apply registered_name_made.
Qed.

(** A reference held by the registry points into the heap. *)
Lemma registry_ref_bound (st : server) (k : string) (r : nat) :
  wf st → (k, r) ∈ sessions st → (r < length (heap st))%nat.
Proof.
  intros Hwf Hin.
  pose proof (Map_get_elem k r (sessions st) (wf_keys st Hwf) Hin) as Hget.
  destruct (wf_registry st Hwf k r Hget) as [_ Hid].
  destruct (heap st !! r) as [s|] eqn:Es; [|done].
  by apply lookup_lt_Some in Es.
Qed.

Lemma names_ok_createSession (st : server) (id : string) :
  wf st → id ∉ Session.id <$> heap st → names_ok st →
  names_ok (createSession junk id true st).2.
Proof.
  intros Hwf Hfresh Hok.
  destruct (names_ok_numbers st Hok) as [Hnd Hpos].
  destruct (next_number_spec (registered_names st) Hnd Hpos)
    as (Hk & Hunused & _).
  destruct Hok as [Hmade Hnodup].
  assert (Hnone : Map_get id (sessions st) = None).
  { destruct (Map_get id (sessions st)) as [ref|] eqn:E; [|done].
    destruct (wf_registry st Hwf id ref E) as [_ Hid].
    destruct (heap st !! ref) as [s|] eqn:Es; [|done]. injection Hid as <-.
    destruct Hfresh. apply list_elem_of_fmap. exists s. split; [done|].
    by apply list_elem_of_lookup_2 in Es. }
  rewrite createSession_eq. simpl. split; simpl.
  - intros ref s. rewrite lookup_snoc_Some. intros [[_ E]|[_ <-]].
    + by apply (Hmade ref).
    + simpl. exists (getNextSessionNumber st). split; [|done].
      apply next_number_pos.
  - rewrite registered_names_alt. simpl.
    rewrite (Map_set_fresh _ _ _ Hnone).
    unfold Map_values. rewrite !fmap_app, omap_app. simpl.
    rewrite list_lookup_middle by (by rewrite length_fmap). simpl.
    assert (Hold : omap (λ ref, ((Session.name <$> heap st)
                                   ++ [Term_name (getNextSessionNumber st)])
                                !! ref) (sessions st).*2
                   = registered_names st).
    { rewrite registered_names_alt. unfold Map_values.
      apply list_omap_ext, Forall2_same_length_lookup_2; [done|].
      intros n x y E1 E2. assert (x = y) as -> by congruence.
      apply list_lookup_fmap_Some in E2 as ([k r] & -> & Ekr).
      apply lookup_app_l. rewrite length_fmap. simpl.
      apply (registry_ref_bound st k r Hwf).
      by apply list_elem_of_lookup_2 in Ekr. }
    rewrite Hold. apply NoDup_app. split; [done|]. split.
    + intros name Hin. rewrite list_elem_of_singleton. intros ->.
      apply Hunused. apply list_elem_of_omap.
      exists (Term_name (getNextSessionNumber st)). split; [done|].
      apply used_number_Term_name.
      pose proof (next_number_pos (registered_names st)).
      unfold getNextSessionNumber, registered_names in *. lia.
    + apply NoDup_singleton.
Qed.

Lemma names_ok_frame (st st' : server) :
  Session.name <$> heap st' = Session.name <$> heap st →
  sessions st' = sessions st →
  names_ok st → names_ok st'.
Proof.
  intros Hn Hs [Hmade Hnodup]. split.
  - intros ref s' E.
    assert (Session.name <$> heap st !! ref = Some (Session.name s')) as H
      by (by rewrite <- list_lookup_fmap, <- Hn, list_lookup_fmap, E).
    destruct (heap st !! ref) as [s|] eqn:Es; [|done].
    injection H as <-. by apply (Hmade ref).
  - by rewrite (registered_names_frame st st').
Qed.

Lemma names_ok_step (st st' : server) (e : event) :
  wf st → names_ok st → step junk utf8 e st = Some st' → names_ok st'.
Proof.
  intros Hwf Hok. unfold step.
  destruct (enabled e st) eqn:Hen; [|done]. intros [= <-].
  destruct e; simpl in *.
  - by apply (names_ok_frame st).
  - by apply (names_ok_frame st).
  - unfold on_subscribe_session.
    destruct (Map_get sessionId (sessions st) ≫= _) as [s|]; [|done].
    destruct (String.length _ =? 0)%nat; by apply (names_ok_frame st).
  - unfold on_create_session. destruct spawned; [|done].
    apply andb_prop in Hen as [_ Hen]. apply bool_decide_eq_true_1 in Hen.
    pose proof (names_ok_createSession st id Hwf Hen Hok) as Hok1.
    destruct (createSession junk id true st) as [newSession st1]. simpl in *.
    destruct (newSession ≫= _) as [s|]; [|done].
    destruct callback; [|done]. by apply (names_ok_frame st1).
  - destruct (on_terminal_input_frame st sessionId data) as (Hh & Hs & _).
    apply (names_ok_frame st); by rewrite ?Hh.
  - destruct (on_terminal_resize_frame st sessionId cols rows)
      as (Hh & Hs & _).
    apply (names_ok_frame st); by rewrite ?Hh.
  - destruct (enabled_running_heap st ref Hen) as [s E].
    destruct (on_data_eq st ref d s Hwf E) as (h & _ & _ & _ & ->).
    apply (names_ok_frame st); simpl; [|done|done].
    rewrite list_fmap_insert. apply list_insert_id.
    by rewrite list_lookup_fmap, E.
  - destruct (enabled_running_heap st ref Hen) as [s E].
    pose proof (on_exit_eq junk utf8 st ref code s Hwf E) as Heq.
    simpl in Heq. rewrite Heq. destruct Hok as [Hmade Hnodup].
    split; [done|]. rewrite registered_names_alt. simpl.
    apply names_after_delete. by rewrite <- registered_names_alt.
Qed.

Lemma names_ok_run (evs : list event) :
  ∀ st st', wf st → names_ok st →
    run junk utf8 evs st = Some st' → names_ok st'.
Proof.
  induction evs as [|e evs IH]; intros st st' Hwf Hok; simpl.
  - by intros [= <-].
  - destruct (step junk utf8 e st) as [st1|] eqn:E; simpl; [|done].
    apply IH.
    + by apply (wf_step junk utf8 st st1 e).
    + by apply (names_ok_step st st1 e).
Qed.

Lemma names_ok_startup (id : string) (spawned : bool) :
  names_ok (startup junk id spawned).
Proof.
  assert (names_ok empty_server) as H0.
  { split; [done|apply NoDup_nil_2]. }
  unfold startup. simpl. destruct spawned; [|done].
  apply names_ok_createSession; [apply wf_empty_server| |done].
  apply not_elem_of_nil.
Qed.

(** In every state the server can be in, the name allocator is given names
    that it made itself, all different: it returns the smallest positive
    number that no registered session bears, and the name made from that
    number is not in use. *)
Lemma allocator_reachable (st : server) :
  reachable junk utf8 st →
  smallest_unused (registered_names st) (getNextSessionNumber st)
  ∧ Term_name (getNextSessionNumber st) ∉ registered_names st.
Proof.
  intros (id & spawned & evs & E).
  pose proof (names_ok_run evs _ _ (wf_startup junk id spawned)
                (names_ok_startup id spawned) E) as Hok.
  destruct (names_ok_numbers st Hok) as [Hnd Hpos].
  destruct (next_number_spec (registered_names st) Hnd Hpos)
    as (H1 & H2 & H3).
  split.
  - unfold smallest_unused. by rewrite carried_all.
  - intros Hin. apply H2. apply list_elem_of_omap.
    exists (Term_name (getNextSessionNumber st)). split; [done|].
    apply used_number_Term_name.
    unfold getNextSessionNumber, registered_names in *. lia.
Qed.

End Names.

(** ** The server: the claims *)

Lemma latin1_empty (b : list byte) : latin1 b = EmptyString ↔ b = [].
Proof. destruct b; split; done. Qed.

Example sample_server_sessions :
  sessions sample_server = [("u1"%string, 0%nat)]
  ∧ heap sample_server !! 0%nat = Some sample_session
  ∧ sockets sample_server !! 7%nat = Some sample_viewer
  ∧ sockets sample_server !! 8%nat = Some sample_viewer.
Proof. repeat split; reflexivity. Qed.

Lemma default_is_Some {A} (o : option A) (d : A) :
  is_Some o → o = Some (default d o).
Proof. by intros [x ->]. Qed.

(** The examples of the specification, run on the model. *)
Example replay_hello :
  received_after
    [PtyData 0 "hello"; Connect 7; SubscribeSession 7 "u1";
     PtyData 0 " world"] 7
  = Some [sessions_list [("u1", "Term 1")]; history "u1" "hello";
          output "u1" " world"]%string.
Proof. vm_compute. reflexivity. Qed.

Example two_viewers_same_chunks :
  received_after
    [Connect 7; Connect 8; SubscribeSession 7 "u1"; SubscribeSession 8 "u1";
     PtyData 0 "a"; PtyData 0 "b"; TerminalInput 7 "u1" "ls"; PtyData 0 "c"] 7
  = Some [sessions_list [("u1", "Term 1")]; output "u1" "a";
          output "u1" "b"; output "u1" "c"]%string
  ∧ received_after
      [Connect 7; Connect 8; SubscribeSession 7 "u1"; SubscribeSession 8 "u1";
       PtyData 0 "a"; PtyData 0 "b"; TerminalInput 7 "u1" "ls";
       PtyData 0 "c"] 8
    = Some [sessions_list [("u1", "Term 1")]; output "u1" "a";
            output "u1" "b"; output "u1" "c"]%string.
Proof. split; vm_compute; reflexivity. Qed.

Example exit_reaches_every_viewer :
  received_after
    [Connect 7; Connect 8; SubscribeSession 7 "u1"; PtyExit 0 0] 8
  = Some [sessions_list [("u1", "Term 1")]; session_closed "u1"]%string
  ∧ registry_after
      [Connect 7; Connect 8; SubscribeSession 7 "u1"; PtyExit 0 0]
    = Some [].
Proof. split; reflexivity. Qed.

Example exit_happens_once :
  run zeroes latin1 [PtyExit 0 0; PtyExit 0 0] sample_boot = None.
Proof. reflexivity. Qed.

Example freed_number_is_reused :
  registry_after
    [Connect 7; CreateSession 7 true "u2" true; CreateSession 7 true "u3" true;
     PtyExit 1 0; CreateSession 7 true "u4" true]
  = Some [("u1", "Term 1"); ("u3", "Term 3"); ("u4", "Term 2")]%string.
Proof. reflexivity. Qed.

Example unknown_id_is_ignored :
  run zeroes latin1
    [Connect 7; SubscribeSession 7 "gone"; TerminalInput 7 "gone" "ls";
     TerminalResize 7 "gone" 120 40] sample_boot
  = run zeroes latin1 [Connect 7] sample_boot.
Proof. reflexivity. Qed.

(** C3.  When the process of a registered session terminates, with whatever
    exit code, the exit handler runs and removes the session from the
    registry, and every connected socket, in the room of the session or not,
    receives one [session-closed] message with the id of the session.  From
    then on no lookup of the id succeeds, no socket ever holds that message
    twice, and a socket that was connected and stays so holds it exactly
    once. *)
Theorem session_exit_closes (junk : Z → byte) (utf8 : list byte → string)
    (st : server) (i : string) (ref : nat) (code : Z) :
  reachable junk utf8 st →
  Map_get i (sessions st) = Some ref →
  ∃ st',
    step junk utf8 (PtyExit ref code) st = Some st'
    ∧ Map_get i (sessions st') = None
    ∧ (∀ socket c, sockets st !! socket = Some c →
         sockets st' !! socket = Some (Socket.emit (session_closed i) c))
    ∧ (∀ evs st'', run junk utf8 evs st' = Some st'' →
         Map_get i (sessions st'') = None
         ∧ (∀ socket c'', sockets st'' !! socket = Some c'' →
              (closed_count i (Socket.received c'') ≤ 1)%nat)
         ∧ (∀ socket, connected socket st = true →
              stays socket evs = true →
              ∃ c'', sockets st'' !! socket = Some c''
                ∧ closed_count i (Socket.received c'') = 1%nat)).
Proof.
  intros Hreach Hget.
  pose proof (wf_reachable junk utf8 st Hreach) as Hwf.
  destruct (wf_registry st Hwf i ref Hget) as [Hrun Hid].
  destruct (heap st !! ref) as [s|] eqn:E; [|done].
  injection Hid as Hid.
  pose proof (on_exit_eq junk utf8 st ref code s Hwf E) as Heq.
  pose proof (running_exited junk utf8 st ref ref code s Hwf E) as Hdead.
  rewrite decide_True in Hdead by done.
  assert (Hstep : step junk utf8 (PtyExit ref code) st
                  = Some (handle junk utf8 (PtyExit ref code) st)).
  { unfold step. simpl. by rewrite Hrun. }
  pose proof (wf_step junk utf8 st _ _ Hwf Hstep) as Hwf'.
  set (st' := handle junk utf8 (PtyExit ref code) st) in *.
  assert (Hsock : ∀ socket c, sockets st !! socket = Some c →
            sockets st' !! socket = Some (Socket.emit (session_closed i) c)).
  { intros socket c Ec. rewrite Heq. simpl. by rewrite lookup_fmap, Ec, Hid. }
  exists st'. split; [done|]. split.
  { rewrite Heq. simpl. rewrite Hid. apply Map_get_delete_eq. }
  split; [done|].
  intros evs st'' Hruns.
  pose proof (wf_run junk utf8 evs st' st'' Hwf' Hruns) as Hwf''.
  destruct (extends_run junk utf8 evs st' st'' Hwf' Hruns) as [Hheap Hgone].
  assert (E' : heap st' !! ref = Some s) by (by rewrite Heq).
  destruct (Hheap ref s E') as (s'' & E'' & Hid'' & _).
  assert (Hdead'' : running ref st'' = false) by (apply Hgone; eauto).
  assert (Hcount : ∀ socket c'', sockets st'' !! socket = Some c'' →
            (closed_count i (Socket.received c'') ≤ 1)%nat).
  { intros socket c'' Ec''.
    destruct (wf_closed st'' Hwf'' socket c'' i Ec'') as [->|[-> _]]; lia. }
  split; [|split; [done|]].
  - destruct (Map_get i (sessions st'')) as [r|] eqn:Hget''; [|done].
    destruct (wf_registry st'' Hwf'' i r Hget'') as [Hr Hir].
    destruct (heap st'' !! r) as [sr|] eqn:Er; [|done].
    injection Hir as Hir.
    assert (r = ref) as -> by (apply (heap_ids_inj st'' r ref sr s''); congruence).
    congruence.
  - intros socket Hconn Hstay. unfold connected in Hconn.
    apply bool_decide_eq_true_1 in Hconn as [c Ec].
    destruct (run_socket junk utf8 evs st' st'' socket _ Hwf' Hruns
                (Hsock socket c Ec) Hstay)
      as (c'' & Δ & Ec'' & _ & Hrec & _).
    exists c''. split; [done|].
    specialize (Hcount socket c'' Ec'').
    assert (1 ≤ closed_count i (Socket.received c''))%nat; [|lia].
    rewrite Hrec. simpl. rewrite !closed_count_app, closed_count_closed.
    rewrite decide_True by done. lia.
Qed.

Lemma session_exit_closes_witness :
  reachable zeroes latin1 sample_server
  ∧ Map_get "u1" (sessions sample_server) = Some 0%nat
  ∧ ∃ st',
      step zeroes latin1 (PtyExit 0 1) sample_server = Some st'
      ∧ Map_get "u1" (sessions st') = None
      ∧ sockets st' !! 7%nat
        = Some (Socket.emit (session_closed "u1") sample_viewer).
Proof.
  assert (H1 : reachable zeroes latin1 sample_server).
  { exists "u1"%string, true, sample_events. reflexivity. }
  assert (H2 : Map_get "u1" (sessions sample_server) = Some 0%nat)
    by reflexivity.
  split; [exact H1|]. split; [exact H2|].
  destruct (session_exit_closes zeroes latin1 sample_server "u1" 0 1 H1 H2)
    as (st' & Hstep & Hgone & Hsock & _).
  exists st'. split; [exact Hstep|]. split; [exact Hgone|].
  apply Hsock. reflexivity.
Defined.

(** The decoded history is empty exactly when the buffer holds nothing. *)
Lemma toString_empty (utf8 : list byte → string) (h : RingBuffer.t) :
  (∀ b, utf8 b = EmptyString ↔ b = []) →
  RingBuffer.inv HISTORY_LIMIT h →
  (String.length (RingBuffer.toString utf8 h) =? 0)%nat
  = bool_decide (RingBuffer.len h = 0).
Proof.
  intros Hutf8 Hinv.
  rewrite (toString_contents utf8 HISTORY_LIMIT) by (done || by apply Hutf8).
  pose proof (contents_length HISTORY_LIMIT h Hinv) as Hlen.
  destruct Hinv as [_ [_ Hl]].
  destruct (utf8 (RingBuffer.contents h)) as [|a s] eqn:E.
  - apply Hutf8 in E. rewrite E in Hlen. simpl in *.
    rewrite bool_decide_eq_true_2; [done|lia].
  - simpl. rewrite bool_decide_eq_false_2; [done|].
    intros H0. rewrite H0 in Hlen.
    destruct (RingBuffer.contents h); [|done].
    assert (utf8 [] = EmptyString) as H by (by apply Hutf8). congruence.
Qed.

(** C4.  When a connected viewer subscribes to a registered session, the
    handler runs and the viewer joins the room of the session.  If the
    history buffer holds something, the viewer receives one [history]
    message with the decoding of the whole logical content; if it holds
    nothing, the viewer receives no message.  Whatever the viewer receives
    afterwards, live chunks included, comes after that replay. *)
Theorem subscribe_replays_history (junk : Z → byte)
    (utf8 : list byte → string) (st : server) (socket : nat) (c : Socket.t)
    (i : string) (ref : nat) (session : Session.t) :
  (∀ b, utf8 b = EmptyString ↔ b = []) →
  reachable junk utf8 st →
  sockets st !! socket = Some c →
  Map_get i (sessions st) = Some ref →
  heap st !! ref = Some session →
  let replay :=
    if bool_decide (RingBuffer.len (Session.history session) = 0) then []
    else [history i (utf8 (RingBuffer.contents (Session.history session)))] in
  ∃ st',
    step junk utf8 (SubscribeSession socket i) st = Some st'
    ∧ sockets st' !! socket
      = Some {| Socket.rooms := {[i]} ∪ Socket.rooms c;
                Socket.received := Socket.received c ++ replay |}
    ∧ (∀ evs st'', run junk utf8 evs st' = Some st'' →
         stays socket evs = true →
         ∃ c'' later, sockets st'' !! socket = Some c''
           ∧ i ∈ Socket.rooms c''
           ∧ Socket.received c'' = Socket.received c ++ replay ++ later).
Proof.
  intros Hutf8 Hreach Ec Hget E replay.
  pose proof (wf_reachable junk utf8 st Hreach) as Hwf.
  pose proof (wf_history st Hwf ref session E) as Hinv.
  assert (Hstep : step junk utf8 (SubscribeSession socket i) st
            = Some (handle junk utf8 (SubscribeSession socket i) st)).
  { unfold step. simpl. unfold connected.
    rewrite bool_decide_eq_true_2; eauto. }
  pose proof (wf_step junk utf8 st _ _ Hwf Hstep) as Hwf'.
  set (st' := handle junk utf8 (SubscribeSession socket i) st) in *.
  assert (Hsock : sockets st' !! socket
            = Some {| Socket.rooms := {[i]} ∪ Socket.rooms c;
                      Socket.received := Socket.received c ++ replay |}).
  { subst st' replay. simpl. unfold on_subscribe_session.
    rewrite Hget. simpl. rewrite E.
    rewrite (toString_empty utf8 _ Hutf8 Hinv).
    rewrite (toString_contents utf8 HISTORY_LIMIT)
      by (done || by apply Hutf8).
    destruct (bool_decide (RingBuffer.len (Session.history session) = 0));
      simpl.
    - rewrite lookup_alter_eq, Ec. simpl. by rewrite (right_id_L [] (++)).
    - by rewrite !lookup_alter_eq, Ec. }
  exists st'. split; [done|]. split; [done|].
  intros evs st'' Hruns Hstay.
  destruct (run_socket junk utf8 evs st' st'' socket _ Hwf' Hruns Hsock Hstay)
    as (c'' & later & Ec'' & Hrooms & Hrec & _).
  exists c'', later. split; [done|]. split.
  - apply Hrooms. simpl. apply elem_of_union_l. by apply elem_of_singleton.
  - rewrite Hrec. simpl. by rewrite (assoc_L (++)).
Qed.

Lemma subscribe_replays_history_witness :
  (∀ b, latin1 b = EmptyString ↔ b = [])
  ∧ reachable zeroes latin1 busy_server
  ∧ sockets busy_server !! 7%nat = Some busy_viewer
  ∧ Map_get "u1" (sessions busy_server) = Some 0%nat
  ∧ heap busy_server !! 0%nat = Some busy_session
  ∧ ∃ st',
      step zeroes latin1 (SubscribeSession 7 "u1") busy_server = Some st'
      ∧ Socket.received <$> sockets st' !! 7%nat
        = Some [sessions_list [("u1", "Term 1")];
                history "u1" "hello"]%string.
Proof.
  assert (H1 : reachable zeroes latin1 busy_server).
  { exists "u1"%string, true, busy_events. apply default_is_Some.
    apply (bool_decide_unpack _). vm_compute. exact I. }
  assert (H2 : sockets busy_server !! 7%nat = Some busy_viewer)
    by (vm_compute; reflexivity).
  assert (H3 : Map_get "u1" (sessions busy_server) = Some 0%nat)
    by (vm_compute; reflexivity).
  assert (H4 : heap busy_server !! 0%nat = Some busy_session).
  { apply default_is_Some. apply (bool_decide_unpack _). vm_compute. exact I. }
  split; [exact latin1_empty|]. split; [exact H1|]. split; [exact H2|].
  split; [exact H3|]. split; [exact H4|].
  destruct (subscribe_replays_history zeroes latin1 busy_server 7
              busy_viewer "u1" 0 busy_session latin1_empty H1 H2 H3 H4)
    as (st' & Hstep & Hsock & _).
  exists st'. split; [exact Hstep|]. rewrite Hsock. vm_compute. reflexivity.
Defined.

(** C5.  When the process of a session produces a chunk, the output handler
    runs: the append to the history returns and leaves the old content
    followed by the bytes of the chunk (cut to the limit); the session
    object, with its id, name and process as before, then holds that
    history, and every other session object is as it was; and every socket
    in the room of the session receives that same chunk, the others
    nothing.  Over any run, two sockets that are in the room and stay
    connected receive the same sequence of chunks of that session: the
    chunks that its process produced, in the order it produced them. *)
Theorem output_fanout (junk : Z → byte) (utf8 : list byte → string)
    (st : server) (ref : nat) (session : Session.t) :
  reachable junk utf8 st →
  heap st !! ref = Some session →
  running ref st = true →
  (∀ d, ∃ h st',
     step junk utf8 (PtyData ref d) st = Some st'
     ∧ RingBuffer.append_string (Session.history session) d = Normal h
     ∧ RingBuffer.contents h
       = lastn (Z.to_nat HISTORY_LIMIT)
               (RingBuffer.contents (Session.history session)
                  ++ Buffer.from d)
     ∧ RingBuffer.inv HISTORY_LIMIT h
     ∧ heap st' !! ref
       = Some {| Session.id := Session.id session;
                 Session.name := Session.name session;
                 Session.pty := Session.pty session;
                 Session.history := h |}
     ∧ (∀ r, r ≠ ref → heap st' !! r = heap st !! r)
     ∧ ∀ socket c, sockets st !! socket = Some c →
         sockets st' !! socket
         = Some (if decide (Session.id session ∈ Socket.rooms c)
                 then Socket.emit (output (Session.id session) d) c
                 else c))
  ∧ (∀ evs st'' s1 s2 c1 c2,
       run junk utf8 evs st = Some st'' →
       sockets st !! s1 = Some c1 → sockets st !! s2 = Some c2 →
       Session.id session ∈ Socket.rooms c1 →
       Session.id session ∈ Socket.rooms c2 →
       stays s1 evs = true → stays s2 evs = true →
       ∃ c1' c2' l1 l2,
         sockets st'' !! s1 = Some c1' ∧ sockets st'' !! s2 = Some c2'
         ∧ Socket.received c1' = Socket.received c1 ++ l1
         ∧ Socket.received c2' = Socket.received c2 ++ l2
         ∧ outputs_of (Session.id session) l1 = chunks_of ref evs
         ∧ outputs_of (Session.id session) l2 = chunks_of ref evs).
Proof.
  intros Hreach E Hrun.
  pose proof (wf_reachable junk utf8 st Hreach) as Hwf.
  split.
  - intros d.
    destruct (on_data_eq st ref d session Hwf E) as (h & Eh & Hinv & Ch & Heq).
    exists h, (on_data ref d st).
    split; [unfold step; simpl; by rewrite Hrun|].
    split; [done|]. split; [done|]. split; [done|].
    rewrite Heq. simpl. split; [|split].
    + apply list_lookup_insert_eq. by apply lookup_lt_Some in E.
    + intros r Hr. by apply list_lookup_insert_ne.
    + intros socket c Ec. by rewrite lookup_fmap, Ec.
  - intros evs st'' s1 s2 c1 c2 Hruns Ec1 Ec2 Hr1 Hr2 Hs1 Hs2.
    destruct (run_socket junk utf8 evs st st'' s1 c1 Hwf Hruns Ec1 Hs1)
      as (c1' & l1 & Ec1' & _ & Hrec1 & Hout1).
    destruct (run_socket junk utf8 evs st st'' s2 c2 Hwf Hruns Ec2 Hs2)
      as (c2' & l2 & Ec2' & _ & Hrec2 & Hout2).
    exists c1', c2', l1, l2. repeat split; try done.
    + by apply Hout1.
    + by apply Hout2.
Qed.

Lemma output_fanout_witness :
  reachable zeroes latin1 sample_server
  ∧ heap sample_server !! 0%nat = Some sample_session
  ∧ running 0 sample_server = true
  ∧ ∃ h st',
      step zeroes latin1 (PtyData 0 "hello") sample_server = Some st'
      ∧ RingBuffer.append_string (Session.history sample_session) "hello"
        = Normal h
      ∧ RingBuffer.contents h
        = lastn (Z.to_nat HISTORY_LIMIT)
            (RingBuffer.contents (Session.history sample_session)
               ++ Buffer.from "hello")
      ∧ (∃ s', heap st' !! 0%nat = Some s'
           ∧ Session.history s' = h
           ∧ RingBuffer.toString latin1 (Session.history s')
             = "hello"%string)
      ∧ sockets st' !! 7%nat
        = Some (Socket.emit (output "u1" "hello") sample_viewer)
      ∧ sockets st' !! 8%nat
        = Some (Socket.emit (output "u1" "hello") sample_viewer).
Proof.
  assert (H1 : reachable zeroes latin1 sample_server).
  { exists "u1"%string, true, sample_events. reflexivity. }
  split; [exact H1|]. split; [reflexivity|]. split; [reflexivity|].
  destruct (output_fanout zeroes latin1 sample_server 0 sample_session
              H1 eq_refl eq_refl) as [Hdata _].
  destruct (Hdata "hello"%string)
    as (h & st' & Hstep & Happ & Hc & _ & Hheap & _ & Hsock).
  assert (Hread : RingBuffer.toString latin1 h = "hello"%string).
  { assert (Hh : h = match RingBuffer.append_string
                              (Session.history sample_session) "hello" with
                     | Normal x | Thrown x => x
                     end) by (by rewrite Happ).
    rewrite Hh. vm_compute. reflexivity. }
  exists h, st'. split; [exact Hstep|]. split; [exact Happ|].
  split; [exact Hc|].
  split; [eexists; split; [exact Hheap|]; split; [reflexivity|exact Hread]|].
  split; [exact (Hsock 7%nat sample_viewer eq_refl)
         |exact (Hsock 8%nat sample_viewer eq_refl)].
Defined.

(** C6.  For an id that the registry does not hold, the handlers of
    [subscribe-session], [terminal-input] and [terminal-resize] return and
    leave the whole state as it was: the registry, every session object with
    its history, every room, every process and what every socket received. *)
Theorem unknown_session_ignored (junk : Z → byte) (utf8 : list byte → string)
    (st : server) (socket : nat) (i data : string) (cols rows : Z) :
  Map_get i (sessions st) = None →
  on_subscribe_session utf8 socket i st = st
  ∧ on_terminal_input i data st = st
  ∧ on_terminal_resize i cols rows st = st
  ∧ (connected socket st = true →
     step junk utf8 (SubscribeSession socket i) st = Some st
     ∧ step junk utf8 (TerminalInput socket i data) st = Some st
     ∧ step junk utf8 (TerminalResize socket i cols rows) st = Some st).
Proof.
  intros Hget.
  assert (H1 : on_subscribe_session utf8 socket i st = st)
    by (unfold on_subscribe_session; by rewrite Hget).
  assert (H2 : on_terminal_input i data st = st)
    by (unfold on_terminal_input; by rewrite Hget).
  assert (H3 : on_terminal_resize i cols rows st = st)
    by (unfold on_terminal_resize; by rewrite Hget).
  split; [done|]. split; [done|]. split; [done|].
  intros Hc. unfold step. simpl. rewrite Hc. by rewrite H1, H2, H3.
Qed.

Lemma unknown_session_ignored_witness :
  Map_get "gone" (sessions sample_server) = None
  ∧ on_subscribe_session latin1 7 "gone" sample_server = sample_server
  ∧ on_terminal_input "gone" "ls" sample_server = sample_server
  ∧ on_terminal_resize "gone" 120 40 sample_server = sample_server.
Proof.
  split; [reflexivity|].
  destruct (unknown_session_ignored zeroes latin1 sample_server 7 "gone" "ls"
              120 40 eq_refl) as (H1 & H2 & H3 & _).
  split; [exact H1|]. split; [exact H2|exact H3].
Defined.

(** C7.  When [pty.spawn] throws, [createSession] returns [null] and the
    state is as it was: no session object, no process, no entry of the
    registry, nothing received by any socket; in particular the callback of
    [create-session] is not called. *)
Theorem spawn_failure_changes_nothing (junk : Z → byte)
    (utf8 : list byte → string) (st : server) (socket : nat)
    (callback : bool) (id : string) :
  createSession junk id false st = (None, st)
  ∧ on_create_session junk socket callback id false st = st
  ∧ handle junk utf8 (CreateSession socket callback id false) st = st.
Proof. done. Qed.

(** C8 as it is stated fails: when the spawn of the bootstrap session
    throws, the server starts with an empty registry. *)
Lemma bootstrap_spawn_failure_counterexample :
  sessions (startup zeroes "u1" false) = []
  ∧ Map_size (sessions (startup zeroes "u1" false)) ≠ 1.
Proof. split; [reflexivity|discriminate]. Qed.

(** C8, amended.  When the spawn of the bootstrap session returns, the
    server starts, with no socket connected, with exactly one session in the
    registry, and its name is ["Term 1"]; when that spawn throws, it starts
    with an empty registry. *)
Theorem bootstrap_session (junk : Z → byte) (id : string) :
  Map_size (sessions (startup junk id true)) = 1
  ∧ sessions (startup junk id true) = [(id, 0%nat)]
  ∧ (λ s, (Session.id s, Session.name s))
      <$> session_values (startup junk id true) = [(id, "Term 1"%string)]
  ∧ sockets (startup junk id true) = ∅
  ∧ sessions (startup junk id false) = [].
Proof. repeat split; reflexivity. Qed.

(** * Further properties *)

(** ** The history buffer *)

(** [toString] of a buffer that holds something decodes its logical content,
    whatever the decoder. *)
Lemma toString_bytes (enc : list byte → string) (C : Z) (this : RingBuffer.t) :
  RingBuffer.inv C this → RingBuffer.len this ≠ 0 →
  RingBuffer.toString enc this = enc (RingBuffer.contents this).
Proof.
  intros [[HL HB] [Hs Hl]] Hlen.
  unfold RingBuffer.toString, RingBuffer.toString_log, RingBuffer.contents.
  unfold Buffer.length in HB.
  destruct (RingBuffer.len this =? 0) eqn:E0; [lia|]. rewrite HL.
  destruct (RingBuffer.start this + RingBuffer.len this <=? C) eqn:E1; simpl.
  - apply Z.leb_le in E1. f_equal.
    rewrite slice_in_range by (unfold Buffer.length; lia).
    rewrite take_app_le by (rewrite length_drop; lia). f_equal. lia.
  - apply Z.leb_gt in E1. f_equal. unfold Buffer.concat. simpl.
    rewrite !slice_in_range by (unfold Buffer.length; lia).
    rewrite (right_id_L [] (++)).
    rewrite take_app_ge by (rewrite length_drop; lia).
    rewrite length_drop, take_take, drop_0.
    f_equal; [apply take_ge; rewrite length_drop; lia|].
    f_equal. lia.
Qed.

Lemma toString_none (enc : list byte → string) (this : RingBuffer.t) :
  RingBuffer.len this = 0 → RingBuffer.toString enc this = EmptyString.
Proof.
  intros H. unfold RingBuffer.toString, RingBuffer.toString_log.
  by rewrite H.
Qed.

(** Two buffers that hold the same number of the same bytes read the same. *)
Lemma toString_ext (enc : list byte → string) (C : Z)
    (this1 this2 : RingBuffer.t) :
  RingBuffer.inv C this1 → RingBuffer.inv C this2 →
  RingBuffer.len this1 = RingBuffer.len this2 →
  RingBuffer.contents this1 = RingBuffer.contents this2 →
  RingBuffer.toString enc this1 = RingBuffer.toString enc this2.
Proof.
  intros I1 I2 Hlen Hc.
  destruct (decide (RingBuffer.len this1 = 0)) as [H0|H0].
  - rewrite !toString_none; congruence.
  - rewrite (toString_bytes enc C this1), (toString_bytes enc C this2);
      congruence.
Qed.

(** The fields after one append. *)
Lemma append_fields (C : Z) (this : RingBuffer.t) (b : Buffer.t) :
  0 < C → RingBuffer.inv C this →
  ∃ this', RingBuffer.append this b = Normal this'
    ∧ RingBuffer.inv C this'
    ∧ RingBuffer.contents this'
      = lastn (Z.to_nat C) (RingBuffer.contents this ++ b)
    ∧ RingBuffer.len this'
      = Z.min (RingBuffer.len this + Buffer.length b) C
    ∧ (RingBuffer.len this + Buffer.length b ≤ C →
       Buffer.length b < C →
       RingBuffer.start this' = RingBuffer.start this).
Proof.
  intros HC Hinv.
  destruct (append_contents C this b HC Hinv) as (this' & E & I' & Hc).
  exists this'. split; [done|]. split; [done|]. split; [done|].
  pose proof (contents_length C this' I') as Hl'.
  pose proof (contents_length C this Hinv) as Hl.
  destruct Hinv as [[HL HB] [Hs Hlen]]. destruct I' as [_ [_ Hlen']].
  split.
  - rewrite Hc, lastn_length, length_app, Hl in Hl'.
    unfold Buffer.length. lia.
  - intros Hfit Hsmall.
    unfold RingBuffer.append, RingBuffer.append_log in E. rewrite HL in E.
    destruct (C <=? Buffer.length b) eqn:Hbig; [lia|].
    destruct (C - RingBuffer.len this <? Buffer.length b) eqn:Hfree; [lia|].
    destruct (Buffer.copy b (RingBuffer.buf this) _ 0 _) as [buf1|];
      simpl in E; [|done].
    destruct (Z.min _ _ <? Buffer.length b).
    + destruct (Buffer.copy b buf1 0 _ _); simpl in E; [|done].
      by injection E as <-.
    + by injection E as <-.
Qed.

(** X1.  What [toString] returns never depends on the uninitialised memory
    that [Buffer.allocUnsafe] handed to the constructor: after the same
    appends, two buffers of the same capacity [C >= 1] built on different
    memory return the same string and hold the same number of bytes. *)
Theorem ring_hides_uninitialised_memory (enc : list byte → string)
    (junk1 junk2 : Z → byte) (C : Z) (chunks : list Buffer.t) :
  1 ≤ C →
  ∃ this1 this2,
    RingBuffer.appends (RingBuffer.constructor junk1 C) chunks = Normal this1
    ∧ RingBuffer.appends (RingBuffer.constructor junk2 C) chunks
      = Normal this2
    ∧ RingBuffer.len this1 = RingBuffer.len this2
    ∧ RingBuffer.toString enc this1 = RingBuffer.toString enc this2.
Proof.
  intros HC. assert (0 < C) as HC' by lia.
  destruct (appends_contents C chunks HC' _ (constructor_inv junk1 C HC'))
    as (this1 & E1 & I1 & Hc1).
  destruct (appends_contents C chunks HC' _ (constructor_inv junk2 C HC'))
    as (this2 & E2 & I2 & Hc2).
  exists this1, this2. split; [done|]. split; [done|].
  rewrite constructor_contents in Hc1, Hc2.
  assert (Hc : RingBuffer.contents this1 = RingBuffer.contents this2)
    by congruence.
  assert (Hlen : RingBuffer.len this1 = RingBuffer.len this2).
  { pose proof (contents_length C this1 I1) as H1.
    pose proof (contents_length C this2 I2) as H2.
    destruct I1 as [_ [_ ?]], I2 as [_ [_ ?]]. rewrite Hc in H1. lia. }
  split; [done|]. by apply (toString_ext enc C).
Qed.

Lemma ring_hides_uninitialised_memory_witness :
  ∃ this1 this2,
    RingBuffer.appends (RingBuffer.constructor zeroes 4)
      [Buffer.from "ab"; Buffer.from "cde"] = Normal this1
    ∧ RingBuffer.appends (RingBuffer.constructor (λ _, xff) 4)
        [Buffer.from "ab"; Buffer.from "cde"] = Normal this2
    ∧ RingBuffer.len this1 = RingBuffer.len this2
    ∧ RingBuffer.toString latin1 this1 = RingBuffer.toString latin1 this2.
Proof.
  apply (ring_hides_uninitialised_memory latin1 zeroes (λ _, xff) 4
           [Buffer.from "ab"; Buffer.from "cde"]). lia.
Defined.

(** X2.  How the output is cut into chunks does not matter: in every state
    that a buffer of capacity [C >= 1] reaches by appends, appending [b1] and
    then [b2] leaves the same readable content as appending [b1 ++ b2] at
    once. *)
Theorem ring_append_chunking (enc : list byte → string) (junk : Z → byte)
    (C : Z) (chunks : list Buffer.t) (this : RingBuffer.t)
    (b1 b2 : Buffer.t) :
  1 ≤ C →
  RingBuffer.appends (RingBuffer.constructor junk C) chunks = Normal this →
  ∃ r1 r2 r12,
    RingBuffer.append this b1 = Normal r1
    ∧ RingBuffer.append r1 b2 = Normal r2
    ∧ RingBuffer.append this (b1 ++ b2) = Normal r12
    ∧ RingBuffer.len r2 = RingBuffer.len r12
    ∧ RingBuffer.toString enc r2 = RingBuffer.toString enc r12.
Proof.
  intros HC E. assert (0 < C) as HC' by lia.
  pose proof (appends_inv junk C chunks this HC' E) as I.
  destruct (append_fields C this b1 HC' I) as (r1 & E1 & I1 & Hc1 & Hl1 & _).
  destruct (append_fields C r1 b2 HC' I1) as (r2 & E2 & I2 & Hc2 & Hl2 & _).
  destruct (append_fields C this (b1 ++ b2) HC' I)
    as (r12 & E12 & I12 & Hc12 & Hl12 & _).
  exists r1, r2, r12. repeat (split; [done|]).
  assert (Hlen : RingBuffer.len r2 = RingBuffer.len r12).
  { rewrite Hl2, Hl1, Hl12. unfold Buffer.length. rewrite length_app.
    pose proof (Buffer_length_nonneg b1). lia. }
  split; [done|]. apply (toString_ext enc C); try done.
  by rewrite Hc2, Hc1, lastn_app_lastn, Hc12, (assoc_L (++)).
Qed.

Lemma ring_append_chunking_witness :
  ∃ r1 r2 r12,
    RingBuffer.append sample_ring (Buffer.from "xy") = Normal r1
    ∧ RingBuffer.append r1 (Buffer.from "z") = Normal r2
    ∧ RingBuffer.append sample_ring (Buffer.from "xy" ++ Buffer.from "z")
      = Normal r12
    ∧ RingBuffer.len r2 = RingBuffer.len r12
    ∧ RingBuffer.toString latin1 r2 = RingBuffer.toString latin1 r12.
Proof.
  apply (ring_append_chunking latin1 zeroes 4
           [Buffer.from "ab"; Buffer.from "cde"] sample_ring);
    [lia|reflexivity].
Defined.

(** X3.  An append never shrinks the content: in every state that a buffer
    of capacity [C >= 1] reaches by appends, [len] grows by the length of
    the chunk until it reaches [C] and stays there, [limit] and the size of
    the storage stay [C], and [start] moves only when old bytes are
    dropped. *)
Theorem ring_append_occupancy (junk : Z → byte) (C : Z)
    (chunks : list Buffer.t) (this : RingBuffer.t) (b : Buffer.t) :
  1 ≤ C →
  RingBuffer.appends (RingBuffer.constructor junk C) chunks = Normal this →
  ∃ this',
    RingBuffer.append this b = Normal this'
    ∧ RingBuffer.len this'
      = Z.min (RingBuffer.len this + Buffer.length b) C
    ∧ RingBuffer.len this ≤ RingBuffer.len this'
    ∧ RingBuffer.limit this' = C
    ∧ Buffer.length (RingBuffer.buf this') = C
    ∧ (RingBuffer.len this + Buffer.length b ≤ C →
       Buffer.length b < C →
       RingBuffer.start this' = RingBuffer.start this).
Proof.
  intros HC E. assert (0 < C) as HC' by lia.
  pose proof (appends_inv junk C chunks this HC' E) as I.
  destruct (append_fields C this b HC' I) as (this' & E' & I' & _ & Hl & Hs).
  exists this'. split; [done|]. split; [done|].
  pose proof (Buffer_length_nonneg b).
  destruct I as [_ [_ ?]], I' as [[? ?] _].
  split; [lia|]. by repeat split.
Qed.

Lemma ring_append_occupancy_witness :
  ∃ this',
    RingBuffer.append sample_ring (Buffer.from "xy") = Normal this'
    ∧ RingBuffer.len this'
      = Z.min (RingBuffer.len sample_ring + Buffer.length (Buffer.from "xy")) 4
    ∧ RingBuffer.len sample_ring ≤ RingBuffer.len this'
    ∧ RingBuffer.limit this' = 4
    ∧ Buffer.length (RingBuffer.buf this') = 4
    ∧ (RingBuffer.len sample_ring + Buffer.length (Buffer.from "xy") ≤ 4 →
       Buffer.length (Buffer.from "xy") < 4 →
       RingBuffer.start this' = RingBuffer.start sample_ring).
Proof.
  apply (ring_append_occupancy zeroes 4
           [Buffer.from "ab"; Buffer.from "cde"] sample_ring);
    [lia|reflexivity].
Defined.

(** X4.  A buffer of capacity 0 accepts every append and stays empty: no
    append throws, and [toString] returns the empty string. *)
Theorem ring_capacity_zero (enc : list byte → string) (junk : Z → byte)
    (chunks : list Buffer.t) :
  RingBuffer.appends (RingBuffer.constructor junk 0) chunks
  = Normal (RingBuffer.constructor junk 0)
  ∧ RingBuffer.toString enc (RingBuffer.constructor junk 0) = EmptyString.
Proof.
  split; [|done].
  induction chunks as [|b chunks IH]; [done|]. simpl.
  assert (RingBuffer.append (RingBuffer.constructor junk 0) b
          = Normal (RingBuffer.constructor junk 0)) as ->; [|done].
  unfold RingBuffer.append, RingBuffer.append_log. simpl.
  pose proof (Buffer_length_nonneg b).
  destruct (0 <=? Buffer.length b) eqn:E; [|lia].
  unfold Buffer.copy. rewrite Z.sub_0_r.
  change (Buffer.length []) with 0.
  destruct (Buffer.length b <? Buffer.length b) eqn:E1; [lia|].
  destruct (Buffer.length b <? 0) eqn:E2; [lia|]. done.
Qed.

(** ** The name allocator *)

Lemma scan_used_below (l : list Z) :
  ∀ n j, n ≤ j < scan_used n l → j ∈ l.
Proof.
  induction l as [|x l IH]; intros n j; simpl; [lia|].
  destruct (x =? n) eqn:E; [|lia]. apply Z.eqb_eq in E. subst x.
  intros Hj. destruct (decide (j = n)) as [->|Hne].
  - apply list_elem_of_here.
  - apply list_elem_of_further, (IH (n + 1)). lia.
Qed.

Lemma scan_used_le (l : list Z) :
  ∀ n, scan_used n l ≤ n + Z.of_nat (length l).
Proof.
  induction l as [|x l IH]; intros n; simpl; [lia|].
  destruct (x =? n); [|lia]. specialize (IH (n + 1)). lia.
Qed.

Lemma omap_length_le {A B} (f : A → option B) (l : list A) :
  (length (omap f l) ≤ length l)%nat.
Proof.
  induction l as [|x l IH]; [done|].
  change (omap f (x :: l))
    with (match f x with Some y => y :: omap f l | None => omap f l end).
  destruct (f x); simpl; lia.
Qed.

(** X5.  A name made from a number is read back as that number: the name
    [`Term ${k}`] of a number [k >= 0] matches [/^Term (\d+)$/] and
    [parseInt] of the captured digits is [k].  Hence different numbers make
    different names. *)
Theorem Term_name_round_trip (k k' : Z) :
  0 ≤ k → 0 ≤ k' →
  (parseInt <$> match_Term (Term_name k)) = Some k
  ∧ (Term_name k = Term_name k' → k = k').
Proof.
  intros Hk Hk'.
  pose proof (used_number_Term_name k Hk) as H.
  pose proof (used_number_Term_name k' Hk') as H'.
  unfold used_number in *. split; [done|]. intros E. rewrite E in H.
  congruence.
Qed.

Lemma Term_name_round_trip_witness :
  (parseInt <$> match_Term (Term_name 12)) = Some 12
  ∧ (Term_name 12 = Term_name 7 → 12 = 7).
Proof. apply (Term_name_round_trip 12 7); lia. Defined.

(** X6.  Whatever the names, [getNextSessionNumber] returns a number [k]
    with [1 <= k <= n + 1] for [n] names, and every positive number below
    [k] is the number of one of the names: the scan never skips a free
    number. *)
Theorem next_number_bounds (names : list string) :
  1 ≤ next_number names ≤ Z.of_nat (length names) + 1
  ∧ ∀ j, 1 ≤ j < next_number names →
      ∃ name, name ∈ names ∧ used_number name = Some j.
Proof.
  unfold next_number.
  pose proof (merge_sort_Permutation Z.le (omap used_number names)) as Hperm.
  pose proof (scan_used_ge (merge_sort Z.le (omap used_number names)) 1).
  pose proof (scan_used_le (merge_sort Z.le (omap used_number names)) 1) as H2.
  pose proof (Permutation_length Hperm) as Hlen.
  pose proof (omap_length_le used_number names).
  split; [lia|]. intros j Hj.
  apply scan_used_below in Hj. rewrite Hperm in Hj.
  by apply list_elem_of_omap in Hj.
Qed.

(** X7.  The order of the sessions in the registry does not matter to the
    allocator: it returns the same number for the same names in any
    order. *)
Theorem next_number_order (names1 names2 : list string) :
  names1 ≡ₚ names2 → next_number names1 = next_number names2.
Proof.
  intros Hperm. unfold next_number. f_equal.
  apply (Sorted_unique Z.le).
  - apply Sorted_merge_sort; apply _.
  - apply Sorted_merge_sort; apply _.
  - by rewrite !merge_sort_Permutation, Hperm.
Qed.

Lemma next_number_order_witness :
  ["Term 2"; "bash"; "Term 1"]%string ≡ₚ ["Term 1"; "Term 2"; "bash"]%string
  ∧ next_number ["Term 2"; "bash"; "Term 1"]
    = next_number ["Term 1"; "Term 2"; "bash"].
Proof.
  assert (H : ["Term 2"; "bash"; "Term 1"]%string
              ≡ₚ ["Term 1"; "Term 2"; "bash"]%string).
  { apply (Permutation_cons_app ["Term 1"%string] ["bash"%string]).
    apply perm_swap. }
  split; [exact H|]. apply (next_number_order _ _ H).
Defined.

(** X8.  In every state the server can be in, every registered session bears
    a name ["Term k"] with [k >= 1], no two registered sessions bear the same
    name, and the number the allocator would give next is the smallest
    positive number that no registered session bears. *)
Theorem registered_names_distinct (junk : Z → byte)
    (utf8 : list byte → string) (st : server) :
  reachable junk utf8 st →
  (∀ name, name ∈ registered_names st → ∃ k, 1 ≤ k ∧ name = Term_name k)
  ∧ NoDup (registered_names st)
  ∧ smallest_unused (registered_names st) (getNextSessionNumber st)
  ∧ Term_name (getNextSessionNumber st) ∉ registered_names st.
Proof.
  intros Hreach.
  destruct (allocator_reachable junk utf8 st Hreach) as [H1 H2].
  destruct Hreach as (id & spawned & evs & E).
  pose proof (names_ok_run junk utf8 evs _ _ (wf_startup junk id spawned)
                (names_ok_startup junk id spawned) E) as [Hmade Hnodup].
  split; [|done]. intros name. by apply registered_name_made.
Qed.

Lemma registered_names_distinct_witness :
  reachable zeroes latin1 sample_server
  ∧ NoDup (registered_names sample_server)
  ∧ smallest_unused (registered_names sample_server)
      (getNextSessionNumber sample_server).
Proof.
  assert (H1 : reachable zeroes latin1 sample_server).
  { exists "u1"%string, true, sample_events. reflexivity. }
  split; [exact H1|].
  destruct (registered_names_distinct zeroes latin1 sample_server H1)
    as (_ & H2 & H3 & _).
  split; [exact H2|exact H3].
Defined.

(** ** The registry and the processes *)

Section MoreInvariants.
Context (junk : Z → byte) (utf8 : list byte → string).

Lemma live_registered_frame (st st' : server) :
  Session.id <$> heap st' = Session.id <$> heap st →
  Session.pty <$> heap st' = Session.pty <$> heap st →
  (∀ n, Pty.alive <$> ptys st' !! n = Pty.alive <$> ptys st !! n) →
  sessions st' = sessions st →
  live_registered st → live_registered st'.
Proof.
  intros Hid Hpty Halive Hs Hlive ref s' E Hr.
  destruct (heap_lookup_frame st st' ref s' Hid Hpty E) as (s & Es & <- & _).
  rewrite Hs. apply Hlive; [done|]. by rewrite <- (running_frame st st').
Qed.

Lemma live_registered_createSession (st : server) (id : string) :
  wf st → id ∉ Session.id <$> heap st →
  live_registered st → live_registered (createSession junk id true st).2.
Proof.
  intros Hwf Hfresh Hlive ref s E Hr.
  rewrite running_created in Hr by done.
  rewrite createSession_eq in *. simpl in *.
  apply lookup_snoc_Some in E as [[Hlt E]|[-> <-]].
  - rewrite decide_False in Hr by lia.
    rewrite Map_get_set_ne; [by apply Hlive|].
    intros ->. apply Hfresh. apply list_elem_of_fmap. exists s.
    split; [done|]. by apply list_elem_of_lookup_2 in E.
  - simpl. apply Map_get_set_eq.
Qed.

Lemma live_registered_step (st st' : server) (e : event) :
  wf st → live_registered st → step junk utf8 e st = Some st' →
  live_registered st'.
Proof.
  intros Hwf Hlive. unfold step.
  destruct (enabled e st) eqn:Hen; [|done]. intros [= <-].
  destruct e; simpl in *.
  - by apply (live_registered_frame st).
  - by apply (live_registered_frame st).
  - unfold on_subscribe_session.
    destruct (Map_get sessionId (sessions st) ≫= _) as [s|]; [|done].
    destruct (String.length _ =? 0)%nat; by apply (live_registered_frame st).
  - unfold on_create_session. destruct spawned; [|done].
    apply andb_prop in Hen as [_ Hen]. apply bool_decide_eq_true_1 in Hen.
    pose proof (live_registered_createSession st id Hwf Hen Hlive) as H1.
    destruct (createSession junk id true st) as [newSession st1]. simpl in *.
    destruct (newSession ≫= _) as [s|]; [|done].
    destruct callback; [|done]. by apply (live_registered_frame st1).
  - destruct (on_terminal_input_frame st sessionId data) as (Hh & Hs & _ & Ha).
    apply (live_registered_frame st); by rewrite ?Hh.
  - destruct (on_terminal_resize_frame st sessionId cols rows)
      as (Hh & Hs & _ & Ha).
    apply (live_registered_frame st); by rewrite ?Hh.
  - destruct (enabled_running_heap st ref Hen) as [s E].
    destruct (on_data_eq st ref d s Hwf E) as (h & _ & _ & _ & ->).
    apply (live_registered_frame st); simpl; try done;
      rewrite list_fmap_insert; apply list_insert_id;
      by rewrite list_lookup_fmap, E.
  - destruct (enabled_running_heap st ref Hen) as [s E].
    intros r sr Er Hr.
    pose proof (running_exited junk utf8 st ref r code s Hwf E) as Hrun.
    pose proof (on_exit_eq junk utf8 st ref code s Hwf E) as Heq.
    simpl in Hrun, Heq. rewrite Hrun in Hr. rewrite Heq in Er |- *.
    simpl in *. destruct (decide (r = ref)) as [->|Hne]; [done|].
    rewrite Map_get_delete_ne; [by apply Hlive|].
    intros Hid. apply Hne.
    by apply (heap_ids_inj st r ref sr s).
Qed.

Lemma live_registered_reachable (st : server) :
  reachable junk utf8 st → live_registered st.
Proof.
  intros (id & spawned & evs & E).
  assert (Hstart : wf (startup junk id spawned)
                   ∧ live_registered (startup junk id spawned)).
  { split; [apply wf_startup|]. unfold startup. simpl. destruct spawned.
    - apply live_registered_createSession;
        [apply wf_empty_server|apply not_elem_of_nil|]. by intros ref s.
    - by intros ref s. }
  revert E. generalize (startup junk id spawned) Hstart. clear Hstart.
  induction evs as [|e evs IH]; intros st0 [Hwf Hlive]; simpl.
  - by intros [= <-].
  - destruct (step junk utf8 e st0) as [st1|] eqn:E1; simpl; [|done].
    apply IH. split.
    + by apply (wf_step junk utf8 st0 st1 e).
    + by apply (live_registered_step st0 st1 e).
Qed.

(** The bytes of a history never exceed the limit. *)
Lemma history_bytes_small (st : server) (ref : nat) :
  wf st →
  lastn (Z.to_nat HISTORY_LIMIT) (history_bytes st ref)
  = history_bytes st ref.
Proof.
  intros Hwf. apply lastn_all. unfold history_bytes.
  destruct (heap st !! ref) as [s|] eqn:E; simpl; [|lia].
  pose proof (wf_history st Hwf ref s E) as Hinv.
  rewrite (contents_length HISTORY_LIMIT) by done.
  destruct Hinv as [_ [_ ?]]. lia.
Qed.

(** One step adds to a history the chunk that its process produced, if
    any. *)
Lemma step_history (st st' : server) (e : event) (ref : nat) :
  wf st → step junk utf8 e st = Some st' →
  history_bytes st' ref
  = lastn (Z.to_nat HISTORY_LIMIT)
          (history_bytes st ref ++ mjoin (Buffer.from <$> chunks_of ref [e])).
Proof.
  intros Hwf. unfold step.
  destruct (enabled e st) eqn:Hen; [|done]. intros [= <-].
  assert (Hsame : ∀ st1, heap st1 = heap st →
            history_bytes st1 ref
            = lastn (Z.to_nat HISTORY_LIMIT) (history_bytes st ref ++ [])).
  { intros st1 Hh. rewrite (right_id_L [] (++)), history_bytes_small by done.
    unfold history_bytes. by rewrite Hh. }
  destruct e; simpl in Hen |- *; try (by apply Hsame).
  - unfold on_subscribe_session.
    destruct (Map_get sessionId (sessions st) ≫= _) as [s|];
      [|by apply Hsame].
    destruct (String.length _ =? 0)%nat; by apply Hsame.
  - unfold on_create_session. destruct spawned; [|by apply Hsame].
    rewrite createSession_eq. simpl.
    rewrite list_lookup_middle by done. simpl.
    rewrite (right_id_L [] (++)), history_bytes_small by done.
    assert (Hnew : ∀ sk, heap sk = heap st ++
              [{| Session.id := id;
                  Session.name := Term_name (getNextSessionNumber st);
                  Session.pty := length (ptys st);
                  Session.history :=
                    RingBuffer.constructor junk HISTORY_LIMIT |}] →
              history_bytes sk ref = history_bytes st ref).
    { intros sk Hk. unfold history_bytes. rewrite Hk.
      destruct (decide (ref < length (heap st))%nat) as [Hlt|Hge].
      - by rewrite lookup_app_l.
      - rewrite (lookup_ge_None_2 (heap st)) by lia.
        destruct (decide (ref = length (heap st))) as [->|Hne].
        + by rewrite list_lookup_middle.
        + by rewrite lookup_ge_None_2 by (rewrite length_app; simpl; lia). }
    destruct callback; by apply Hnew.
  - destruct (on_terminal_input_frame st sessionId data) as (Hh & _).
    by apply Hsame.
  - destruct (on_terminal_resize_frame st sessionId cols rows) as (Hh & _).
    by apply Hsame.
  - destruct (enabled_running_heap st ref0 Hen) as [s E].
    destruct (on_data_eq st ref0 d s Hwf E) as (h & _ & _ & Hc & ->).
    unfold chunks_of. simpl. destruct (decide (ref0 = ref)) as [->|Hne].
    + simpl. rewrite (right_id_L [] (++)). unfold history_bytes. simpl.
      rewrite E, list_lookup_insert_eq by (by apply lookup_lt_Some in E).
      done.
    + simpl. rewrite (right_id_L [] (++)), history_bytes_small by done.
      unfold history_bytes. simpl. by rewrite list_lookup_insert_ne.
  - destruct (enabled_running_heap st ref0 Hen) as [s E].
    pose proof (on_exit_eq junk utf8 st ref0 code s Hwf E) as Heq.
    simpl in Heq. rewrite Heq. by apply Hsame.
Qed.

Lemma run_history (evs : list event) :
  ∀ (st st' : server) (ref : nat),
    wf st → run junk utf8 evs st = Some st' →
    history_bytes st' ref
    = lastn (Z.to_nat HISTORY_LIMIT)
        (history_bytes st ref ++ mjoin (Buffer.from <$> chunks_of ref evs)).
Proof.
  induction evs as [|e evs IH]; intros st st' ref Hwf; simpl.
  - intros [= <-]. by rewrite (right_id_L [] (++)), history_bytes_small.
  - destruct (step junk utf8 e st) as [st1|] eqn:E; simpl; [|done].
    intros Hrun.
    rewrite (IH st1 st' ref (wf_step junk utf8 st st1 e Hwf E) Hrun).
    rewrite (step_history st st1 e ref Hwf E), lastn_app_lastn.
    rewrite <- (assoc_L (++)). f_equal. f_equal.
    unfold chunks_of at 1. simpl.
    destruct (match e with
              | PtyData r d => if decide (r = ref) then Some d else None
              | _ => None
              end) as [d|]; simpl; [|done].
    by rewrite (right_id_L [] (++)).
Qed.

End MoreInvariants.

Lemma sample_server_reachable : reachable zeroes latin1 sample_server.
Proof. exists "u1"%string, true, sample_events. reflexivity. Qed.

Lemma busy_server_run :
  run zeroes latin1 busy_events (startup zeroes "u1" true) = Some busy_server.
Proof.
  apply default_is_Some. apply (bool_decide_unpack _). vm_compute. exact I.
Qed.

Lemma busy_server_session : heap busy_server !! 0%nat = Some busy_session.
Proof.
  apply default_is_Some. apply (bool_decide_unpack _). vm_compute. exact I.
Qed.

(** X9.  In every state the server can be in, the registry holds exactly the
    sessions whose process runs: an id is registered for a session object
    if and only if that object bears the id and its process has not
    exited.  So a session leaves the registry only through the exit of its
    process, and a running session is never lost from it. *)
Theorem registry_tracks_running_sessions (junk : Z → byte)
    (utf8 : list byte → string) (st : server) (i : string) (ref : nat) :
  reachable junk utf8 st →
  Map_get i (sessions st) = Some ref
  ↔ ∃ s, heap st !! ref = Some s ∧ Session.id s = i
         ∧ running ref st = true.
Proof.
  intros Hreach.
  pose proof (wf_reachable junk utf8 st Hreach) as Hwf.
  pose proof (live_registered_reachable junk utf8 st Hreach) as Hlive.
  split.
  - intros Hget. destruct (wf_registry st Hwf i ref Hget) as [Hrun Hid].
    destruct (heap st !! ref) as [s|] eqn:Es; simpl in Hid; [|done].
    exists s. repeat split; [congruence|done].
  - intros (s & Es & <- & Hrun). by apply Hlive.
Qed.

Lemma registry_tracks_running_sessions_witness :
  reachable zeroes latin1 sample_server
  ∧ (Map_get "u1" (sessions sample_server) = Some 0%nat
     ↔ ∃ s, heap sample_server !! 0%nat = Some s
            ∧ Session.id s = "u1"%string
            ∧ running 0 sample_server = true).
Proof.
  split; [exact sample_server_reachable|].
  apply (registry_tracks_running_sessions zeroes latin1 sample_server
           "u1" 0 sample_server_reachable).
Defined.

(** X10.  At any time the history of a session is the tail, of at most
    [HISTORY_LIMIT] bytes, of everything its process has produced since the
    server started, in the order produced: no chunk is skipped, doubled or
    reordered, and no viewer action, other session or exit changes it. *)
Theorem history_is_tail_of_output (junk : Z → byte)
    (utf8 : list byte → string) (id : string) (spawned : bool)
    (evs : list event) (st : server) (ref : nat) (s : Session.t) :
  utf8 [] = EmptyString →
  run junk utf8 evs (startup junk id spawned) = Some st →
  heap st !! ref = Some s →
  RingBuffer.contents (Session.history s)
  = lastn (Z.to_nat HISTORY_LIMIT)
          (mjoin (Buffer.from <$> chunks_of ref evs))
  ∧ RingBuffer.toString utf8 (Session.history s)
    = utf8 (lastn (Z.to_nat HISTORY_LIMIT)
                  (mjoin (Buffer.from <$> chunks_of ref evs))).
Proof.
  intros Hutf8 Hrun Es.
  pose proof (wf_startup junk id spawned) as Hwf0.
  pose proof (wf_run junk utf8 evs _ _ Hwf0 Hrun) as Hwf.
  pose proof (run_history junk utf8 evs _ _ ref Hwf0 Hrun) as Hh.
  assert (H0 : history_bytes (startup junk id spawned) ref = []).
  { unfold history_bytes, startup. simpl. destruct spawned; simpl; [|done].
    destruct ref as [|ref]; [|done]. simpl.
    apply length_zero_iff_nil.
    by rewrite (contents_length HISTORY_LIMIT)
      by (apply constructor_inv, HISTORY_LIMIT_pos). }
  rewrite H0 in Hh. simpl in Hh. unfold history_bytes in Hh.
  rewrite Es in Hh. split; [exact Hh|].
  rewrite <- Hh. apply (toString_contents utf8 HISTORY_LIMIT); [done|].
  by apply (wf_history st Hwf ref).
Qed.

Lemma history_is_tail_of_output_witness :
  latin1 [] = EmptyString
  ∧ run zeroes latin1 busy_events (startup zeroes "u1" true)
    = Some busy_server
  ∧ heap busy_server !! 0%nat = Some busy_session
  ∧ RingBuffer.toString latin1 (Session.history busy_session)
    = "hello"%string.
Proof.
  split; [reflexivity|]. split; [exact busy_server_run|].
  split; [exact busy_server_session|].
  destruct (history_is_tail_of_output zeroes latin1 "u1" true busy_events
              busy_server 0 busy_session eq_refl busy_server_run
              busy_server_session) as [_ ->].
  vm_compute. reflexivity.
Defined.

(** ** What reaches a socket *)

Lemma socket_ok_first (l : list (string * string)) :
  socket_ok (Socket.emit (sessions_list l) Socket.fresh).
Proof.
  split; simpl.
  - apply Forall_cons. split; [done|apply Forall_nil_2].
  - exists l, []. split; [done|apply Forall_nil_2].
Qed.

Lemma socket_ok_emit (c : Socket.t) (m : message) :
  socket_ok c → relevant c m → ¬ is_sessions_list m →
  socket_ok (Socket.emit m c).
Proof.
  intros [Hrel (l & rest & Hrec & Hrest)] Hm Hnot. split; simpl.
  - apply Forall_app. split; [done|].
    apply Forall_cons. split; [done|apply Forall_nil_2].
  - exists l, (rest ++ [m]). rewrite Hrec. split; [done|].
    apply Forall_app. split; [done|].
    apply Forall_cons. split; [done|apply Forall_nil_2].
Qed.

Lemma socket_ok_join (c : Socket.t) (i : string) :
  socket_ok c → socket_ok (Socket.join i c).
Proof.
  intros [Hrel Hfirst]. split; simpl; [|done].
  eapply Forall_impl; [exact Hrel|].
  intros m. unfold relevant. simpl.
  destruct m; try done; intros; by apply elem_of_union_r.
Qed.

Section Delivery.
Context (junk : Z → byte) (utf8 : list byte → string).

Lemma sockets_ok_step (st st' : server) (e : event) :
  wf st → sockets_ok st → step junk utf8 e st = Some st' → sockets_ok st'.
Proof.
  intros Hwf Hok. unfold step.
  destruct (enabled e st) eqn:Hen; [|done]. intros [= <-].
  assert (Hemit : ∀ sk socket m,
            sockets_ok sk → (∀ c, relevant c m) → ¬ is_sessions_list m →
            sockets_ok (socket_emit socket m sk)).
  { intros sk socket m Hsk Hm Hnot n c. unfold socket_emit. simpl.
    rewrite lookup_alter. case_decide as Hn.
    - subst n. destruct (sockets sk !! socket) as [c0|] eqn:E0; simpl;
        [|done].
      intros [= <-]. apply socket_ok_emit; [by apply (Hsk socket)|done|done].
    - apply Hsk. }
  destruct e; simpl in Hen |- *.
  - intros n c. unfold on_connection, socket_emit. simpl.
    rewrite lookup_alter. case_decide as Hn.
    + subst n. rewrite lookup_insert_eq. simpl. intros [= <-].
      apply socket_ok_first.
    + rewrite lookup_insert_ne by done. apply Hok.
  - intros n c. unfold on_disconnect. simpl.
    intros [_ E]%lookup_delete_Some. by apply (Hok n).
  - unfold on_subscribe_session.
    destruct (Map_get sessionId (sessions st) ≫= _) as [s|]; [|done].
    assert (Hjoin : sockets_ok (socket_join socket sessionId st)).
    { intros n c. unfold socket_join. simpl.
      rewrite lookup_alter. case_decide as Hn; [|apply Hok]. subst n.
      destruct (sockets st !! socket) as [c0|] eqn:E0; simpl; [|done].
      intros [= <-]. apply socket_ok_join. by apply (Hok socket). }
    destruct (String.length _ =? 0)%nat; [done|].
    intros n c. unfold socket_emit, socket_join. simpl.
    rewrite lookup_alter. case_decide as Hn; [|apply Hjoin]. subst n.
    rewrite lookup_alter, decide_True by done.
    destruct (sockets st !! socket) as [c0|] eqn:E0; simpl; [|done].
    intros [= <-]. apply socket_ok_emit; [| |simpl; tauto].
    + apply socket_ok_join. by apply (Hok socket).
    + simpl. apply elem_of_union_l. by apply elem_of_singleton.
  - unfold on_create_session.
    assert (H1 : sockets_ok (createSession junk id spawned st).2)
      by (by destruct spawned).
    destruct (createSession junk id spawned st) as [newSession st1].
    simpl in *.
    destruct (newSession ≫= _) as [s|]; [|done].
    destruct callback; [|done]. apply Hemit; [done|done|simpl; tauto].
  - destruct (on_terminal_input_frame st sessionId data) as (_ & _ & Hs & _).
    unfold sockets_ok. by rewrite Hs.
  - destruct (on_terminal_resize_frame st sessionId cols rows)
      as (_ & _ & Hs & _).
    unfold sockets_ok. by rewrite Hs.
  - destruct (enabled_running_heap st ref Hen) as [s E].
    destruct (on_data_eq st ref d s Hwf E) as (h & _ & _ & _ & ->).
    intros n c. simpl. rewrite lookup_fmap.
    destruct (sockets st !! n) as [c0|] eqn:E0; simpl; [|done].
    intros [= <-]. case_decide as Hroom; [|by apply (Hok n)].
    apply socket_ok_emit; [by apply (Hok n)|done|simpl; tauto].
  - destruct (enabled_running_heap st ref Hen) as [s E].
    pose proof (on_exit_eq junk utf8 st ref code s Hwf E) as Heq.
    simpl in Heq. rewrite Heq.
    intros n c. simpl. rewrite lookup_fmap.
    destruct (sockets st !! n) as [c0|] eqn:E0; simpl; [|done].
    intros [= <-]. apply socket_ok_emit; [by apply (Hok n)|done|simpl; tauto].
Qed.

Lemma sockets_ok_reachable (st : server) :
  reachable junk utf8 st → sockets_ok st.
Proof.
  intros (id & spawned & evs & E).
  assert (Hstart : wf (startup junk id spawned)
                   ∧ sockets_ok (startup junk id spawned)).
  { split; [apply wf_startup|]. intros n c.
    unfold startup. simpl. by destruct spawned. }
  revert E. generalize (startup junk id spawned) Hstart. clear Hstart.
  induction evs as [|e evs IH]; intros st0 [Hwf Hok]; simpl.
  - by intros [= <-].
  - destruct (step junk utf8 e st0) as [st1|] eqn:E1; simpl; [|done].
    apply IH. split.
    + by apply (wf_step junk utf8 st0 st1 e).
    + by apply (sockets_ok_step st0 st1 e).
Qed.

End Delivery.

(** X11.  Sessions are isolated from one another: whatever a socket has
    received of a session, a live chunk or a replayed history, is of a
    session that this socket subscribed to.  Output of a session never
    reaches a socket that did not ask for it. *)
Theorem output_only_to_subscribers (junk : Z → byte)
    (utf8 : list byte → string) (st : server) (socket : nat)
    (c : Socket.t) (i x : string) :
  reachable junk utf8 st →
  sockets st !! socket = Some c →
  output i x ∈ Socket.received c ∨ history i x ∈ Socket.received c →
  i ∈ Socket.rooms c.
Proof.
  intros Hreach Ec Hin.
  destruct (sockets_ok_reachable junk utf8 st Hreach socket c Ec)
    as [Hrel _].
  rewrite Forall_forall in Hrel.
  destruct Hin as [Hin|Hin]; apply (Hrel _ Hin).
Qed.

Lemma watch_server_reachable : reachable zeroes latin1 watch_server.
Proof.
  exists "u1"%string, true, watch_events. apply default_is_Some.
  apply (bool_decide_unpack _). vm_compute. exact I.
Qed.

Lemma watch_server_viewer : sockets watch_server !! 7%nat = Some watch_viewer.
Proof. vm_compute. reflexivity. Qed.

Lemma output_only_to_subscribers_witness :
  reachable zeroes latin1 watch_server
  ∧ sockets watch_server !! 7%nat = Some watch_viewer
  ∧ (output "u1" "hi" ∈ Socket.received watch_viewer
     ∨ history "u1" "hi" ∈ Socket.received watch_viewer)
  ∧ "u1"%string ∈ Socket.rooms watch_viewer.
Proof.
  assert (Hin : output "u1" "hi" ∈ Socket.received watch_viewer
                ∨ history "u1" "hi" ∈ Socket.received watch_viewer).
  { left. simpl. apply elem_of_cons. right. apply elem_of_cons. by left. }
  split; [exact watch_server_reachable|].
  split; [exact watch_server_viewer|]. split; [exact Hin|].
  exact (output_only_to_subscribers zeroes latin1 watch_server 7
           watch_viewer "u1" "hi" watch_server_reachable
           watch_server_viewer Hin).
Defined.

(** X12.  The list of sessions is what a socket receives first, and it
    receives it once: the server sends it on connection and never again,
    whatever sessions are created or closed afterwards. *)
Theorem sessions_list_first_and_once (junk : Z → byte)
    (utf8 : list byte → string) (st : server) (socket : nat)
    (c : Socket.t) :
  reachable junk utf8 st →
  sockets st !! socket = Some c →
  ∃ l rest, Socket.received c = sessions_list l :: rest
    ∧ ∀ l', sessions_list l' ∉ rest.
Proof.
  intros Hreach Ec.
  destruct (sockets_ok_reachable junk utf8 st Hreach socket c Ec)
    as [_ (l & rest & Hrec & Hrest)].
  exists l, rest. split; [done|]. intros l' Hin.
  rewrite Forall_forall in Hrest. by apply (Hrest _ Hin).
Qed.

Lemma sessions_list_first_and_once_witness :
  reachable zeroes latin1 watch_server
  ∧ sockets watch_server !! 7%nat = Some watch_viewer
  ∧ ∃ l rest, Socket.received watch_viewer = sessions_list l :: rest
      ∧ ∀ l', sessions_list l' ∉ rest.
Proof.
  split; [exact watch_server_reachable|].
  split; [exact watch_server_viewer|].
  exact (sessions_list_first_and_once zeroes latin1 watch_server 7
           watch_viewer watch_server_reachable watch_server_viewer).
Defined.

(** ** Creation, input, resizing and exit *)

(** X13.  When [pty.spawn] returns, [create-session] registers the new
    session under its id: the session object is new, its name is
    [Term k] for the number the allocator gave and is borne by no registered
    session, its history is empty, its process runs with 80 columns and 30
    rows and nothing written to it; every other entry of the registry and
    every older session object and process is as before; and only the
    requester, if it passed a callback, is told: no other socket receives
    anything. *)
Theorem create_session_registers (junk : Z → byte)
    (utf8 : list byte → string) (st : server) (socket : nat)
    (callback : bool) (id : string) :
  reachable junk utf8 st →
  enabled (CreateSession socket callback id true) st = true →
  ∃ st' s,
    step junk utf8 (CreateSession socket callback id true) st = Some st'
    ∧ Map_get id (sessions st') = Some (length (heap st))
    ∧ (∀ j, j ≠ id → Map_get j (sessions st') = Map_get j (sessions st))
    ∧ heap st' = heap st ++ [s]
    ∧ Session.id s = id
    ∧ Session.name s = Term_name (getNextSessionNumber st)
    ∧ (Session.name s ∉ registered_names st)
    ∧ Session.pty s = length (heap st)
    ∧ RingBuffer.toString utf8 (Session.history s) = EmptyString
    ∧ ptys st' = ptys st ++ [Pty.spawn]
    ∧ running (length (heap st)) st' = true
    ∧ (∀ n c, sockets st !! n = Some c →
         sockets st' !! n
         = Some (if callback && bool_decide (n = socket)
                 then Socket.emit (created id (Session.name s)) c
                 else c)).
Proof.
  intros Hreach Hen.
  pose proof (wf_reachable junk utf8 st Hreach) as Hwf.
  destruct (allocator_reachable junk utf8 st Hreach) as [_ Hname].
  pose proof (wf_ptys st Hwf) as Hlen.
  pose proof (running_created junk st id (length (heap st)) Hwf) as Hrun.
  rewrite decide_True in Hrun by done.
  unfold step. rewrite Hen.
  exists (handle junk utf8 (CreateSession socket callback id true) st).
  eexists. split; [done|].
  simpl. unfold on_create_session.
  rewrite createSession_eq in *. simpl in *.
  rewrite list_lookup_middle by done. simpl.
  assert (Hsock : ∀ n c, sockets st !! n = Some c →
            sockets (if callback
                     then socket_emit socket
                            (created id (Term_name (getNextSessionNumber st)))
                            (createSession junk id true st).2
                     else (createSession junk id true st).2) !! n
            = Some (if callback && bool_decide (n = socket)
                    then Socket.emit
                           (created id (Term_name (getNextSessionNumber st)))
                           c
                    else c)).
  { intros n c Ec. destruct callback; simpl; [|done].
    rewrite lookup_alter. destruct (decide (n = socket)) as [->|Hn].
    - rewrite decide_True, bool_decide_true by done. by rewrite Ec.
    - rewrite decide_False, bool_decide_false by done. done. }
  rewrite createSession_eq in Hsock. simpl in Hsock.
  destruct callback; simpl in *;
    (split; [apply Map_get_set_eq|]);
    (split; [intros j Hj; by apply Map_get_set_ne|]);
    (split; [reflexivity|]); simpl;
    (split; [done|]); (split; [done|]); (split; [done|]);
    (split; [by rewrite Hlen|]); (split; [done|]); (split; [done|]);
    (split; [exact Hrun|exact Hsock]).
Qed.

Lemma create_session_registers_witness :
  reachable zeroes latin1 sample_server
  ∧ enabled (CreateSession 7 true "u2" true) sample_server = true
  ∧ ∃ st' s,
      step zeroes latin1 (CreateSession 7 true "u2" true) sample_server
      = Some st'
      ∧ Map_get "u2" (sessions st') = Some 1%nat
      ∧ Session.name s = "Term 2"%string
      ∧ running 1 st' = true.
Proof.
  split; [exact sample_server_reachable|]. split; [reflexivity|].
  destruct (create_session_registers zeroes latin1 sample_server 7 true
              "u2" sample_server_reachable eq_refl)
    as (st' & s & Hstep & Hget & _ & _ & _ & Hname & _ & _ & _ & _ & Hrun & _).
  exists st', s. split; [exact Hstep|]. split; [exact Hget|].
  split; [exact Hname|exact Hrun].
Defined.

(** X14.  Input for a registered session goes to the process of that
    session and nowhere else: the process is still running, the data is
    added after everything written to it before, and no other process, no
    session object, no history, no entry of the registry and no socket
    changes. *)
Theorem input_reaches_its_process (junk : Z → byte)
    (utf8 : list byte → string) (st : server) (socket : nat)
    (i data : string) (ref : nat) :
  reachable junk utf8 st →
  Map_get i (sessions st) = Some ref →
  ∃ p, ptys st !! ref = Some p
    ∧ Pty.alive p = true
    ∧ handle junk utf8 (TerminalInput socket i data) st
      = {| ptys := <[ref := {| Pty.alive := true;
                              Pty.cols := Pty.cols p;
                              Pty.rows := Pty.rows p;
                              Pty.written := Pty.written p ++ [data] |}]>
                     (ptys st);
           heap := heap st;
           sessions := sessions st;
           sockets := sockets st |}.
Proof.
  intros Hreach Hget.
  pose proof (wf_reachable junk utf8 st Hreach) as Hwf.
  destruct (wf_registry st Hwf i ref Hget) as [Hrun Hid].
  destruct (heap st !! ref) as [s|] eqn:Es; [|done].
  pose proof (wf_pty st Hwf ref s Es) as Hpty.
  unfold running in Hrun. rewrite Es in Hrun. simpl in Hrun.
  rewrite Hpty in Hrun.
  destruct (ptys st !! ref) as [p|] eqn:Ep; [|done].
  exists p. split; [done|]. split; [done|].
  simpl. unfold on_terminal_input. rewrite Hget. simpl. rewrite Es.
  unfold set_ptys. rewrite Hpty. f_equal.
  apply list_eq. intros n.
  rewrite list_lookup_alter, list_lookup_insert.
  pose proof (lookup_lt_Some _ _ _ Ep) as Hlt.
  destruct (decide (ref = n)) as [<-|Hne].
  - rewrite decide_True by done. rewrite Ep. simpl.
    unfold Pty.write. by rewrite Hrun.
  - rewrite decide_False; [done|]. by intros [? _].
Qed.

Lemma input_reaches_its_process_witness :
  reachable zeroes latin1 sample_server
  ∧ Map_get "u1" (sessions sample_server) = Some 0%nat
  ∧ Pty.written
      <$> ptys (handle zeroes latin1 (TerminalInput 7 "u1" "ls")
                  sample_server) !! 0%nat
    = Some ["ls"%string].
Proof.
  split; [exact sample_server_reachable|]. split; [reflexivity|].
  destruct (input_reaches_its_process zeroes latin1 sample_server 7
              "u1" "ls" 0 sample_server_reachable eq_refl)
    as (p & Ep & _ & ->).
  injection Ep as <-. reflexivity.
Defined.

(** X15.  Resizing changes at most the geometry of the process of the named
    session, whatever the numbers sent and whether the resize throws or
    not: the registry, the session objects with their histories and the
    sockets are as before, no process appears or goes, none stops or
    starts, nothing that was written to a process changes, and a process
    that differs from before is the one of the named session, with the
    geometry that was asked for. *)
Theorem resize_changes_geometry_only (junk : Z → byte)
    (utf8 : list byte → string) (st : server) (socket : nat) (i : string)
    (cols rows : Z) (n : nat) :
  heap (handle junk utf8 (TerminalResize socket i cols rows) st) = heap st
  ∧ sessions (handle junk utf8 (TerminalResize socket i cols rows) st)
    = sessions st
  ∧ sockets (handle junk utf8 (TerminalResize socket i cols rows) st)
    = sockets st
  ∧ length (ptys (handle junk utf8 (TerminalResize socket i cols rows) st))
    = length (ptys st)
  ∧ match ptys (handle junk utf8 (TerminalResize socket i cols rows) st)
            !! n, ptys st !! n with
    | Some p', Some p =>
        Pty.alive p' = Pty.alive p
        ∧ Pty.written p' = Pty.written p
        ∧ (p' = p
           ∨ (Pty.cols p' = cols ∧ Pty.rows p' = rows
              ∧ Session.pty
                  <$> (Map_get i (sessions st) ≫= λ ref, heap st !! ref)
                = Some n))
    | None, None => True
    | _, _ => False
    end.
Proof.
  simpl. unfold on_terminal_resize.
  assert (Hsame : match ptys st !! n, ptys st !! n with
                  | Some p', Some p =>
                      Pty.alive p' = Pty.alive p
                      ∧ Pty.written p' = Pty.written p
                      ∧ (p' = p
                         ∨ (Pty.cols p' = cols ∧ Pty.rows p' = rows
                            ∧ Session.pty
                                <$> (Map_get i (sessions st)
                                       ≫= λ ref, heap st !! ref)
                              = Some n))
                  | None, None => True
                  | _, _ => False
                  end).
  { destruct (ptys st !! n) as [p|]; [|done]. repeat split. by left. }
  destruct (Map_get i (sessions st) ≫= _) as [s|]; [|done].
  destruct (ptys st !! Session.pty s) as [p0|] eqn:Ep; simpl; [|done].
  unfold Pty.resize.
  destruct (Pty.alive p0 && (0 <? cols) && (0 <? rows)) eqn:Hc; [|done].
  simpl. rewrite length_insert. repeat split.
  rewrite list_lookup_insert.
  destruct (decide (Session.pty s = n)) as [<-|Hne].
  - rewrite decide_True by (by apply lookup_lt_Some in Ep).
    rewrite Ep. simpl.
    apply andb_prop in Hc as [Hc _]. apply andb_prop in Hc as [-> _].
    repeat split. by right.
  - rewrite decide_False by (by intros [? _]). exact Hsame.
Qed.

Section Viewers.
Context (junk : Z → byte) (utf8 : list byte → string).

Lemma keeps_sessions_refl (st : server) : keeps_sessions st st.
Proof. by repeat split. Qed.

Lemma keeps_sessions_trans (st1 st2 st3 : server) :
  keeps_sessions st1 st2 → keeps_sessions st2 st3 → keeps_sessions st1 st3.
Proof.
  intros (H1 & H2 & H3 & H4 & H5) (K1 & K2 & K3 & K4 & K5).
  repeat split; try congruence; intros n; by rewrite K5.
Qed.

Lemma keeps_sessions_step (st st' : server) (e : event) :
  wf st → step junk utf8 e st = Some st' → viewer_only [e] = true →
  keeps_sessions st st'.
Proof.
  intros Hwf. unfold step.
  destruct (enabled e st) eqn:Hen; [|done]. intros [= <-] Hv.
  destruct e; simpl in Hen, Hv |- *.
  - by repeat split.
  - by repeat split.
  - unfold on_subscribe_session.
    destruct (Map_get sessionId (sessions st) ≫= _) as [s|];
      [|apply keeps_sessions_refl].
    destruct (String.length _ =? 0)%nat; by repeat split.
  - destruct spawned; [done|]. apply keeps_sessions_refl.
  - destruct (on_terminal_input_frame st sessionId data)
      as (Hh & Hs & _ & Ha).
    repeat split; by rewrite ?Hh.
  - destruct (on_terminal_resize_frame st sessionId cols rows)
      as (Hh & Hs & _ & Ha).
    repeat split; by rewrite ?Hh.
  - destruct (enabled_running_heap st ref Hen) as [s E].
    destruct (on_data_eq st ref d s Hwf E) as (h & _ & _ & _ & ->).
    repeat split; simpl; try done;
      rewrite list_fmap_insert; apply list_insert_id;
      by rewrite list_lookup_fmap, E.
  - done.
Qed.

Lemma keeps_sessions_run (evs : list event) :
  ∀ st st', wf st → run junk utf8 evs st = Some st' →
    viewer_only evs = true → keeps_sessions st st'.
Proof.
  induction evs as [|e evs IH]; intros st st' Hwf; simpl.
  - intros [= <-] _. apply keeps_sessions_refl.
  - destruct (step junk utf8 e st) as [st1|] eqn:E; simpl; [|done].
    intros Hrun Hv. apply andb_prop in Hv as [Hv1 Hv2].
    apply (keeps_sessions_trans st st1 st').
    + apply (keeps_sessions_step st st1 e Hwf E). unfold viewer_only.
      simpl. by rewrite Hv1.
    + apply IH; [|done|done]. by apply (wf_step junk utf8 st st1 e).
Qed.

End Viewers.

(** X16.  No handler that serves a viewer, and no output of a process,
    opens or closes a session, for the messages that the client sends:
    [terminal-input] with a session id and string data, [terminal-resize]
    with a session id and integer geometry.  Over any run of such messages,
    of connections, disconnections, subscriptions, failed spawns and
    output, that is, over any run without a successful [create-session] and
    without the exit of a process, the registry stays as it is, entry by
    entry and in its order, every session object keeps its id and its
    name, no session object appears, and exactly the processes that ran
    before run afterwards.  A message without such a payload is not an
    event of this model: the two handlers destructure the payload and
    [terminal-input] calls [write] outside any [try], so such a message can
    make the handler throw. *)
Theorem viewers_cannot_end_sessions (junk : Z → byte)
    (utf8 : list byte → string) (evs : list event) (st st' : server) :
  reachable junk utf8 st →
  run junk utf8 evs st = Some st' →
  viewer_only evs = true →
  sessions st' = sessions st
  ∧ Session.id <$> heap st' = Session.id <$> heap st
  ∧ Session.name <$> heap st' = Session.name <$> heap st
  ∧ ∀ ref, running ref st' = running ref st.
Proof.
  intros Hreach Hrun Hv.
  pose proof (wf_reachable junk utf8 st Hreach) as Hwf.
  destruct (keeps_sessions_run junk utf8 evs st st' Hwf Hrun Hv)
    as (H1 & H2 & H3 & H4 & H5).
  split; [done|]. split; [done|]. split; [done|].
  intros ref. by apply running_frame.
Qed.

Lemma viewers_cannot_end_sessions_witness :
  reachable zeroes latin1 sample_server
  ∧ run zeroes latin1 viewer_events sample_server
    = Some (state_after viewer_events sample_server)
  ∧ viewer_only viewer_events = true
  ∧ sessions (state_after viewer_events sample_server)
    = [("u1"%string, 0%nat)]
  ∧ running 0 (state_after viewer_events sample_server) = true.
Proof.
  assert (Hrun : run zeroes latin1 viewer_events sample_server
                 = Some (state_after viewer_events sample_server))
    by reflexivity.
  split; [exact sample_server_reachable|]. split; [exact Hrun|].
  split; [reflexivity|].
  destruct (viewers_cannot_end_sessions zeroes latin1 viewer_events
              sample_server _ sample_server_reachable Hrun eq_refl)
    as (-> & _ & _ & ->).
  split; reflexivity.
Defined.

(** X17.  The exit of a process touches its own session only: every other
    entry of the registry is as before, every other process is as before and
    runs if it ran, every session object, the one of the closed session
    among them, keeps its history, and every socket stays in the rooms it
    was in, the room of the closed session included. *)
Theorem exit_spares_other_sessions (junk : Z → byte)
    (utf8 : list byte → string) (st : server) (i : string) (ref : nat)
    (code : Z) :
  reachable junk utf8 st →
  Map_get i (sessions st) = Some ref →
  heap (handle junk utf8 (PtyExit ref code) st) = heap st
  ∧ (∀ j, j ≠ i →
       Map_get j (sessions (handle junk utf8 (PtyExit ref code) st))
       = Map_get j (sessions st))
  ∧ (∀ r, r ≠ ref →
       ptys (handle junk utf8 (PtyExit ref code) st) !! r = ptys st !! r
       ∧ running r (handle junk utf8 (PtyExit ref code) st)
         = running r st)
  ∧ (∀ n, Socket.rooms
            <$> sockets (handle junk utf8 (PtyExit ref code) st) !! n
          = Socket.rooms <$> sockets st !! n).
Proof.
  intros Hreach Hget.
  pose proof (wf_reachable junk utf8 st Hreach) as Hwf.
  destruct (wf_registry st Hwf i ref Hget) as [Hrun Hid].
  destruct (heap st !! ref) as [s|] eqn:Es; [|done].
  injection Hid as Hid.
  pose proof (running_exited junk utf8 st ref) as Hr.
  pose proof (on_exit_eq junk utf8 st ref code s Hwf Es) as Heq.
  simpl in Heq |- *. rewrite Heq. simpl.
  split; [done|]. split; [|split].
  - intros j Hj. rewrite Hid. by apply Map_get_delete_ne.
  - intros r Hne. split.
    + rewrite list_lookup_alter. by rewrite decide_False.
    + specialize (Hr r code s Hwf Es). simpl in Hr. rewrite Heq in Hr.
      rewrite Hr. by rewrite decide_False.
  - intros n. rewrite lookup_fmap.
    by destruct (sockets st !! n).
Qed.

Lemma exit_spares_other_sessions_witness :
  reachable zeroes latin1 sample_server
  ∧ Map_get "u1" (sessions sample_server) = Some 0%nat
  ∧ Socket.rooms
      <$> sockets (handle zeroes latin1 (PtyExit 0 1) sample_server) !! 7%nat
    = Socket.rooms <$> sockets sample_server !! 7%nat.
Proof.
  split; [exact sample_server_reachable|]. split; [reflexivity|].
  destruct (exit_spares_other_sessions zeroes latin1 sample_server "u1" 0 1
              sample_server_reachable eq_refl) as (_ & _ & _ & H).
  exact (H 7%nat).
Defined.

(** ** The list sent on connection *)

Lemma session_list_entries (hp : list Session.t) (m : list (string * nat)) :
  Forall (λ kr, Session.id <$> hp !! kr.2 = Some kr.1) m →
  Forall2 (λ kr entry,
             entry.1 = kr.1 ∧ Session.name <$> hp !! kr.2 = Some entry.2)
    m ((λ s, (Session.id s, Session.name s))
         <$> omap (λ ref, hp !! ref) (Map_values m)).
Proof.
  unfold Map_values.
  induction m as [|[k r] m IH]; intros Hm; [apply Forall2_nil_2|].
  apply Forall_cons in Hm as [Hk Hm]. simpl in *.
  destruct (hp !! r) as [s|] eqn:Es; simpl in *; [|done].
  injection Hk as Hk. apply Forall2_cons. split; [|by apply IH].
  simpl. by rewrite Es.
Qed.

(** X18.  A socket that connects receives one message, the list of the
    sessions: one entry for each registered session, in the order of the
    registry, with the id under which the session is registered and the
    name of its session object.  The socket starts in no room, and nothing
    else changes: no other socket receives anything. *)
Theorem connection_lists_registry (junk : Z → byte)
    (utf8 : list byte → string) (st : server) (socket : nat) :
  reachable junk utf8 st →
  ∃ l,
    sockets (handle junk utf8 (Connect socket) st) !! socket
    = Some {| Socket.rooms := ∅; Socket.received := [sessions_list l] |}
    ∧ Forall2 (λ kr entry,
                 entry.1 = kr.1
                 ∧ Session.name <$> heap st !! kr.2 = Some entry.2)
        (sessions st) l
    ∧ (∀ n, n ≠ socket →
         sockets (handle junk utf8 (Connect socket) st) !! n
         = sockets st !! n)
    ∧ heap (handle junk utf8 (Connect socket) st) = heap st
    ∧ ptys (handle junk utf8 (Connect socket) st) = ptys st
    ∧ sessions (handle junk utf8 (Connect socket) st) = sessions st.
Proof.
  intros Hreach.
  pose proof (wf_reachable junk utf8 st Hreach) as Hwf.
  exists ((λ s, (Session.id s, Session.name s)) <$> session_values st).
  simpl. unfold on_connection, socket_emit. simpl.
  split; [|split; [|split; [|done]]].
  - by rewrite lookup_alter, decide_True, lookup_insert_eq by done.
  - apply session_list_entries. apply Forall_forall. intros [k r] Hin.
    simpl.
    pose proof (Map_get_elem k r (sessions st) (wf_keys st Hwf) Hin) as Hg.
    by destruct (wf_registry st Hwf k r Hg) as [_ Hid].
  - intros n Hn.
    by rewrite lookup_alter, decide_False, lookup_insert_ne by done.
Qed.

Lemma connection_lists_registry_witness :
  reachable zeroes latin1 sample_server
  ∧ ∃ l,
      sockets (handle zeroes latin1 (Connect 9) sample_server) !! 9%nat
      = Some {| Socket.rooms := ∅; Socket.received := [sessions_list l] |}
      ∧ Forall2 (λ kr entry,
                   entry.1 = kr.1
                   ∧ Session.name <$> heap sample_server !! kr.2
                     = Some entry.2)
          (sessions sample_server) l.
Proof.
  split; [exact sample_server_reachable|].
  destruct (connection_lists_registry zeroes latin1 sample_server 9
              sample_server_reachable) as (l & H1 & H2 & _).
  exists l. split; [exact H1|exact H2].
Defined.

(** ** Listing a directory *)

Lemma sort_insert_directory (x : Item.t) (l : list Item.t) :
  Item.isDirectory x = true →
  sort_insert directories_first x l = x :: l.
Proof.
  intros Hx. destruct l as [|y l]; [done|]. simpl.
  unfold directories_first. rewrite Hx. by destruct (Item.isDirectory y).
Qed.

Lemma sort_insert_file (x : Item.t) (ds fs : list Item.t) :
  Item.isDirectory x = false →
  Forall (λ i, Item.isDirectory i = true) ds →
  Forall (λ i, Item.isDirectory i = false) fs →
  sort_insert directories_first x (ds ++ fs) = ds ++ x :: fs.
Proof.
  intros Hx Hds Hfs. induction Hds as [|d ds Hd Hds IH]; simpl.
  - destruct Hfs as [|f fs Hf Hfs]; [done|]. simpl.
    unfold directories_first. by rewrite Hx, Hf.
  - unfold directories_first at 1. rewrite Hx, Hd. simpl. by rewrite IH.
Qed.

Lemma Array_sort_directories_first (l : list Item.t) :
  Array_sort directories_first l
  = filter (λ i, Item.isDirectory i = true) l
    ++ filter (λ i, Item.isDirectory i = false) l.
Proof.
  induction l as [|x l IH]; [done|].
  unfold Array_sort in *. simpl. rewrite IH. rewrite !filter_cons.
  destruct (Item.isDirectory x) eqn:Hx.
  - rewrite decide_True, decide_False by done.
    by apply sort_insert_directory.
  - rewrite decide_False, decide_True by done.
    apply sort_insert_file; [done| |];
      apply Forall_forall; by intros i [Hi _]%list_elem_of_filter.
Qed.

Lemma filter_items_names (b : bool) (items : list Dirent.t) :
  Item.name
    <$> filter (λ i, Item.isDirectory i = b)
          ((λ item, {| Item.name := Dirent.name item;
                       Item.isDirectory := Dirent.isDirectory item |})
             <$> items)
  = Dirent.name <$> filter (λ d, Dirent.isDirectory d = b) items.
Proof.
  induction items as [|d items IH]; [done|].
  rewrite fmap_cons, !filter_cons. simpl.
  destruct (decide (Dirent.isDirectory d = b)); rewrite ?fmap_cons;
    by rewrite IH.
Qed.

Lemma filter_items_flags (b : bool) (items : list Dirent.t) :
  Item.isDirectory
    <$> filter (λ i, Item.isDirectory i = b)
          ((λ item, {| Item.name := Dirent.name item;
                       Item.isDirectory := Dirent.isDirectory item |})
             <$> items)
  = replicate (length (filter (λ d, Dirent.isDirectory d = b) items)) b.
Proof.
  induction items as [|d items IH]; [done|].
  rewrite fmap_cons, !filter_cons. simpl.
  destruct (decide (Dirent.isDirectory d = b)) as [Hb|];
    rewrite ?fmap_cons; rewrite IH; [|done].
  simpl. by rewrite Hb.
Qed.

Lemma filter_split_length {A} (f : A → bool) (l : list A) :
  length (filter (λ x, f x = true) l ++ filter (λ x, f x = false) l)
  = length l.
Proof.
  induction l as [|x l IH]; [done|].
  rewrite !filter_cons. rewrite length_app in *.
  destruct (f x); simpl; lia.
Qed.

(** X19.  The listing of a directory that can be read names its
    directories first and its other entries after them, each group in the
    order in which the file system gave the entries; it holds every entry
    once, none is lost or made up, and names are not touched. *)
Theorem fs_list_directories_first (HOME : option string) (cwd : string)
    (readdir : string → string + list Dirent.t) (reqPath : option string)
    (items : list Dirent.t) :
  readdir (targetPath HOME cwd reqPath) = inr items →
  ∃ result,
    fs_list HOME cwd readdir reqPath
    = fs_listing (targetPath HOME cwd reqPath) result
    ∧ Item.name <$> result
      = (Dirent.name <$> filter (λ d, Dirent.isDirectory d = true) items)
        ++ (Dirent.name
              <$> filter (λ d, Dirent.isDirectory d = false) items)
    ∧ Item.isDirectory <$> result
      = replicate
          (length (filter (λ d, Dirent.isDirectory d = true) items)) true
        ++ replicate
             (length (filter (λ d, Dirent.isDirectory d = false) items))
             false
    ∧ Item.name <$> result ≡ₚ Dirent.name <$> items.
Proof.
  intros Hread. unfold fs_list. rewrite Hread. eexists. split; [done|].
  rewrite Array_sort_directories_first.
  rewrite !fmap_app, !filter_items_names, !filter_items_flags.
  split; [done|]. split; [done|].
  rewrite <- fmap_app. apply fmap_Permutation.
  clear. induction items as [|d items IH]; [done|].
  rewrite !filter_cons. destruct (Dirent.isDirectory d); simpl.
  - by constructor.
  - rewrite <- Permutation_middle. by constructor.
Qed.

Lemma fs_list_directories_first_witness :
  sample_readdir (targetPath (Some "/home/u"%string) "/srv" None)
  = inr [Dirent.mk "b.txt" false; Dirent.mk "src" true;
         Dirent.mk "a.txt" false; Dirent.mk "bin" true]
  ∧ ∃ result,
      fs_list (Some "/home/u"%string) "/srv" sample_readdir None
      = fs_listing "/home/u" result
      ∧ Item.name <$> result = ["src"; "bin"; "b.txt"; "a.txt"]%string.
Proof.
  split; [reflexivity|].
  destruct (fs_list_directories_first (Some "/home/u"%string) "/srv"
              sample_readdir None _ eq_refl) as (result & H1 & H2 & _).
  exists result. split; [exact H1|exact H2].
Defined.

(** X20.  [fs-list] answers every request once, with a listing or with an
    error.  A path that is asked for is used as it is, neither normalised
    nor confined to a directory; without one the home directory is listed,
    and the working directory when there is no home.  As the working
    directory has a name, the path of a listing is never empty, and an
    error is the one of the file system for that path. *)
Theorem fs_list_path (HOME : option string) (cwd : string)
    (readdir : string → string + list Dirent.t) (reqPath : option string) :
  cwd ≠ EmptyString →
  targetPath HOME cwd reqPath ≠ EmptyString
  ∧ (∀ p, reqPath = Some p → p ≠ EmptyString →
       targetPath HOME cwd reqPath = p)
  ∧ (reqPath = None ∨ reqPath = Some EmptyString →
     targetPath HOME cwd reqPath
     = match HOME with
       | Some h => if String.eqb h EmptyString then cwd else h
       | None => cwd
       end)
  ∧ match fs_list HOME cwd readdir reqPath with
    | fs_listing p result =>
        p = targetPath HOME cwd reqPath
        ∧ ∃ items, readdir p = inr items ∧ length result = length items
    | fs_error message => readdir (targetPath HOME cwd reqPath) = inl message
    end.
Proof.
  intros Hcwd. split; [|split; [|split]].
  - unfold targetPath, or_else.
    destruct reqPath as [[|c s]|]; try done; by destruct HOME as [[|c' s']|].
  - intros p -> Hp. unfold targetPath, or_else. by destruct p.
  - intros [->| ->]; unfold targetPath, or_else; simpl;
      by destruct HOME as [[|c s]|].
  - unfold fs_list.
    destruct (readdir (targetPath HOME cwd reqPath)) as [m|items] eqn:E;
      [done|].
    split; [done|]. exists items. split; [done|].
    rewrite Array_sort_directories_first.
    by rewrite (filter_split_length Item.isDirectory), length_fmap.
Qed.

Lemma fs_list_path_witness :
  "/srv"%string ≠ EmptyString
  ∧ targetPath None "/srv" (Some EmptyString) = "/srv"%string
  ∧ targetPath (Some "/home/u"%string) "/srv" (Some "/home/u/..")
    = "/home/u/.."%string.
Proof.
  assert (H : "/srv"%string ≠ EmptyString) by discriminate.
  split; [exact H|]. split.
  - destruct (fs_list_path None "/srv" sample_readdir (Some EmptyString) H)
      as (_ & _ & Hhome & _).
    exact (Hhome (or_intror eq_refl)).
  - destruct (fs_list_path (Some "/home/u"%string) "/srv" sample_readdir
                (Some "/home/u/.."%string) H) as (_ & Hreq & _).
    apply (Hreq _ eq_refl). discriminate.
Defined.

(** ** The client: the title of a file *)



Lemma string_app_cons (c : ascii) (a b : string) :
  String c a +:+ b = String c (a +:+ b).
Proof. reflexivity. Qed.







(** ** The client: what a terminal shows *)

Lemma terminal_after_app (i : string) (l1 l2 : list message)
    (t : Terminal.t) :
  terminal_after i (l1 ++ l2) t = terminal_after i l2 (terminal_after i l1 t).
Proof. unfold terminal_after. apply foldl_app. Qed.

Lemma terminal_after_live (i : string) (l : list message) :
  ∀ t, replays_of i l = [] → terminal_after i l t = t ++ outputs_of i l.
Proof.
  unfold terminal_after, replays_of, outputs_of.
  induction l as [|m l IH]; intros t; simpl.
  - by rewrite (right_id_L [] (++)).
  - destruct m as [| j h | j d | |]; simpl;
      unfold dataHandler, historyHandler; try apply IH.
    + destruct (decide (j = i)); [done|]. apply IH.
    + destruct (decide (j = i)); [|apply IH].
      intros H. rewrite IH by done. unfold Terminal.write.
      by rewrite <- (assoc_L (++)).
Qed.

Lemma replays_of_emit (i : string) (m : message) (c : Socket.t) :
  (∀ h, m ≠ history i h) →
  replays_of i (Socket.received (Socket.emit m c))
  = replays_of i (Socket.received c).
Proof.
  intros Hm. unfold replays_of. simpl. rewrite omap_app. simpl.
  destruct m as [| j h | | |]; simpl; rewrite ?(right_id_L [] (++)); try done.
  destruct (decide (j = i)) as [->|]; [|by rewrite (right_id_L [] (++))].
  by destruct (Hm h).
Qed.

Section Replays.
Context (junk : Z → byte) (utf8 : list byte → string).

Lemma step_replays (st : server) (e : event) (socket : nat) (c : Socket.t)
    (i : string) :
  wf st → enabled e st = true →
  sockets st !! socket = Some c →
  stays socket [e] = true → no_subscribe socket i [e] = true →
  ∃ c', sockets (handle junk utf8 e st) !! socket = Some c'
    ∧ replays_of i (Socket.received c') = replays_of i (Socket.received c).
Proof.
  intros Hwf Hen Ec Hstay Hsub.
  assert (Hsame : ∃ c', sockets st !! socket = Some c'
            ∧ replays_of i (Socket.received c')
              = replays_of i (Socket.received c)) by (by exists c).
  assert (Hemit : ∀ sk s m,
            sockets sk !! socket = Some c → (∀ h, m ≠ history i h) →
            ∃ c', sockets (socket_emit s m sk) !! socket = Some c'
              ∧ replays_of i (Socket.received c')
                = replays_of i (Socket.received c)).
  { intros sk s m Ek Hm. unfold socket_emit. simpl. rewrite lookup_alter.
    destruct (decide (s = socket)) as [->|Hne].
    - rewrite Ek. simpl. eexists. split; [done|]. by apply replays_of_emit.
    - by exists c. }
  destruct e; simpl in Hen, Hstay, Hsub |- *.
  - assert (socket0 ≠ socket) as Hne.
    { intros ->. unfold connected in Hen. rewrite Ec in Hen.
      rewrite bool_decide_true in Hen by eauto. done. }
    unfold on_connection, socket_emit. simpl.
    rewrite lookup_alter, decide_False, lookup_insert_ne by done. done.
  - assert (socket0 ≠ socket) as Hne.
    { intros ->. by rewrite Nat.eqb_refl in Hstay. }
    unfold on_disconnect. simpl. by rewrite lookup_delete_ne.
  - unfold on_subscribe_session.
    destruct (Map_get sessionId (sessions st) ≫= _) as [s|]; [|done].
    assert (Hjoin : ∃ c', sockets (socket_join socket0 sessionId st)
                            !! socket = Some c'
              ∧ Socket.received c' = Socket.received c).
    { unfold socket_join. simpl. rewrite lookup_alter.
      destruct (decide (socket0 = socket)) as [->|Hne].
      - rewrite Ec. simpl. by eexists.
      - by exists c. }
    destruct Hjoin as (c1 & E1 & H1).
    destruct (String.length _ =? 0)%nat.
    { exists c1. by rewrite H1. }
    unfold socket_emit. simpl. rewrite lookup_alter.
    destruct (decide (socket0 = socket)) as [->|Hne].
    + unfold socket_join in E1. simpl in E1. rewrite E1. simpl.
      eexists. split; [done|]. rewrite replays_of_emit; [by rewrite H1|].
      intros h [= ->]. rewrite bool_decide_true in Hsub by done. done.
    + unfold socket_join in E1. simpl in E1. rewrite E1.
      exists c1. by rewrite H1.
  - unfold on_create_session. destruct spawned; [|done].
    rewrite createSession_eq. simpl.
    rewrite list_lookup_middle by done. simpl.
    destruct callback; [|done]. by apply Hemit.
  - destruct (on_terminal_input_frame st sessionId data) as (_ & _ & -> & _).
    done.
  - destruct (on_terminal_resize_frame st sessionId cols rows)
      as (_ & _ & -> & _).
    done.
  - destruct (enabled_running_heap st ref Hen) as [s E].
    destruct (on_data_eq st ref d s Hwf E) as (h & _ & _ & _ & ->).
    simpl. rewrite lookup_fmap, Ec. simpl. eexists. split; [done|].
    destruct (decide (Session.id s ∈ Socket.rooms c)); [|done].
    by apply replays_of_emit.
  - destruct (enabled_running_heap st ref Hen) as [s E].
    pose proof (on_exit_eq junk utf8 st ref code s Hwf E) as Heq.
    simpl in Heq. rewrite Heq. simpl. rewrite lookup_fmap, Ec. simpl.
    eexists. split; [done|]. by apply replays_of_emit.
Qed.

Lemma run_replays (evs : list event) :
  ∀ (st st' : server) (socket : nat) (c : Socket.t) (i : string),
    wf st → run junk utf8 evs st = Some st' →
    sockets st !! socket = Some c →
    stays socket evs = true → no_subscribe socket i evs = true →
    ∃ c', sockets st' !! socket = Some c'
      ∧ replays_of i (Socket.received c') = replays_of i (Socket.received c).
Proof.
  induction evs as [|e evs IH]; intros st st' socket c i Hwf Hrun Ec Hst Hsub.
  - injection Hrun as <-. by exists c.
  - simpl in Hrun. unfold step in Hrun.
    destruct (enabled e st) eqn:Hen; [|done]. simpl in Hrun.
    simpl in Hst, Hsub.
    apply andb_prop in Hst as [Hst1 Hst2].
    apply andb_prop in Hsub as [Hsub1 Hsub2].
    destruct (step_replays st e socket c i Hwf Hen Ec) as (c1 & E1 & H1).
    { simpl. by rewrite Hst1. }
    { simpl. by rewrite Hsub1. }
    assert (Hwf1 : wf (handle junk utf8 e st)).
    { apply (wf_step junk utf8 st _ e Hwf). unfold step. by rewrite Hen. }
    destruct (IH _ st' socket c1 i Hwf1 Hrun E1 Hst2 Hsub2)
      as (c' & E' & H').
    exists c'. split; [done|]. by rewrite H'.
Qed.

End Replays.

(** X22.  A terminal window shows its session: when a window subscribes to
    a registered session, then, as long as the socket stays connected and
    does not subscribe to that session again, the terminal holds the
    history of the session as it was at the subscription, in place of
    whatever it held before, followed by every chunk that the process has
    produced since, in order and once each.  When that history is empty the
    terminal keeps what it held.  Messages of other sessions that reach the
    socket do not touch it. *)
Theorem terminal_shows_session (junk : Z → byte)
    (utf8 : list byte → string) (st st' : server) (socket : nat)
    (c : Socket.t) (i : string) (ref : nat) (s : Session.t)
    (evs : list event) (term : Terminal.t) :
  reachable junk utf8 st →
  sockets st !! socket = Some c →
  Map_get i (sessions st) = Some ref →
  heap st !! ref = Some s →
  run junk utf8 (SubscribeSession socket i :: evs) st = Some st' →
  stays socket evs = true →
  no_subscribe socket i evs = true →
  ∃ c' Δ,
    sockets st' !! socket = Some c'
    ∧ Socket.received c' = Socket.received c ++ Δ
    ∧ terminal_after i Δ term
      = (if (String.length (RingBuffer.toString utf8 (Session.history s))
             =? 0)%nat
         then term
         else [RingBuffer.toString utf8 (Session.history s)])
        ++ chunks_of ref evs.
Proof.
  intros Hreach Ec Hget Es Hrun Hst Hsub.
  pose proof (wf_reachable junk utf8 st Hreach) as Hwf.
  destruct (wf_registry st Hwf i ref Hget) as [_ Hid].
  rewrite Es in Hid. injection Hid as Hid.
  simpl in Hrun. unfold step in Hrun.
  destruct (enabled (SubscribeSession socket i) st) eqn:Hen; [|done].
  simpl in Hrun.
  assert (Hwf1 : wf (on_subscribe_session utf8 socket i st)).
  { apply (wf_step junk utf8 st _ (SubscribeSession socket i) Hwf).
    unfold step. by rewrite Hen. }
  set (h := RingBuffer.toString utf8 (Session.history s)) in *.
  assert (H1 : ∃ c1 Δ1,
            sockets (on_subscribe_session utf8 socket i st) !! socket
            = Some c1
            ∧ heap (on_subscribe_session utf8 socket i st) = heap st
            ∧ i ∈ Socket.rooms c1
            ∧ Socket.received c1 = Socket.received c ++ Δ1
            ∧ terminal_after i Δ1 term
              = if (String.length h =? 0)%nat then term else [h]).
  { unfold on_subscribe_session. rewrite Hget. simpl. rewrite Es.
    fold h. destruct (String.length h =? 0)%nat.
    - unfold socket_join. simpl.
      rewrite lookup_alter, decide_True, Ec by done. simpl.
      eexists _, []. split; [done|]. split; [done|].
      split; [apply elem_of_union_l; by apply elem_of_singleton|].
      by rewrite (right_id_L [] (++)).
    - unfold socket_emit, socket_join. simpl.
      rewrite lookup_alter, decide_True by done.
      rewrite lookup_alter, decide_True, Ec by done. simpl.
      eexists _, [history i h]. split; [done|]. split; [done|].
      split; [apply elem_of_union_l; by apply elem_of_singleton|].
      split; [done|].
      unfold terminal_after. simpl. unfold historyHandler.
      by rewrite decide_True. }
  destruct H1 as (c1 & Δ1 & E1 & Hheap & Hroom & Hrec1 & Hterm1).
  destruct (run_socket junk utf8 evs _ st' socket c1 Hwf1 Hrun E1 Hst)
    as (c' & Δ2 & E' & _ & Hrec2 & Hout).
  destruct (run_replays junk utf8 evs _ st' socket c1 i Hwf1 Hrun E1 Hst
              Hsub) as (c'' & E'' & Hrep).
  rewrite E' in E''. injection E'' as <-.
  assert (Hno : replays_of i Δ2 = []).
  { rewrite Hrec2 in Hrep. unfold replays_of in Hrep |- *.
    rewrite omap_app in Hrep.
    apply (f_equal length) in Hrep. rewrite length_app in Hrep.
    apply length_zero_iff_nil. lia. }
  exists c', (Δ1 ++ Δ2). split; [done|].
  split; [by rewrite Hrec2, Hrec1, (assoc_L (++))|].
  rewrite terminal_after_app, Hterm1, (terminal_after_live i Δ2) by done.
  f_equal. rewrite <- Hid. apply (Hout ref s); [by rewrite Hheap|].
  by rewrite Hid.
Qed.

Lemma busy_server_reachable : reachable zeroes latin1 busy_server.
Proof. exists "u1"%string, true, busy_events. exact busy_server_run. Qed.

Lemma busy_server_viewer : sockets busy_server !! 7%nat = Some busy_viewer.
Proof. vm_compute. reflexivity. Qed.

Lemma follow_run :
  run zeroes latin1 follow_events busy_server
  = Some (state_after follow_events busy_server).
Proof.
  apply default_is_Some. apply (bool_decide_unpack _). vm_compute. exact I.
Qed.

Lemma terminal_shows_session_witness :
  reachable zeroes latin1 busy_server
  ∧ sockets busy_server !! 7%nat = Some busy_viewer
  ∧ Map_get "u1" (sessions busy_server) = Some 0%nat
  ∧ heap busy_server !! 0%nat = Some busy_session
  ∧ run zeroes latin1 follow_events busy_server
    = Some (state_after follow_events busy_server)
  ∧ ∃ c' Δ,
      sockets (state_after follow_events busy_server) !! 7%nat = Some c'
      ∧ Socket.received c' = Socket.received busy_viewer ++ Δ
      ∧ terminal_after "u1" Δ ["stale"%string] = ["hello"; " world"]%string.
Proof.
  assert (Hget : Map_get "u1" (sessions busy_server) = Some 0%nat)
    by (vm_compute; reflexivity).
  split; [exact busy_server_reachable|]. split; [exact busy_server_viewer|].
  split; [exact Hget|]. split; [exact busy_server_session|].
  split; [exact follow_run|].
  destruct (terminal_shows_session zeroes latin1 busy_server _ 7 busy_viewer
              "u1" 0 busy_session [PtyData 0 " world"] ["stale"%string]
              busy_server_reachable busy_server_viewer Hget
              busy_server_session follow_run eq_refl eq_refl)
    as (c' & Δ & E' & Hrec & Hterm).
  exists c', Δ. split; [exact E'|]. split; [exact Hrec|].
  rewrite Hterm. vm_compute. reflexivity.
Defined.

(** ** The client: the window manager *)

Lemma Map_get_set {V} (k k' : string) (v : V) (m : list (string * V)) :
  Map_get k' (Map_set k v m) = if decide (k' = k) then Some v else Map_get k' m.
Proof.
  destruct (decide (k' = k)) as [->|Hne].
  - apply Map_get_set_eq.
  - by apply Map_get_set_ne.
Qed.

Lemma Map_get_delete {V} (k k' : string) (m : list (string * V)) :
  Map_get k' (Map_delete k m) = if decide (k' = k) then None else Map_get k' m.
Proof.
  destruct (decide (k' = k)) as [->|Hne].
  - apply Map_get_delete_eq.
  - by apply Map_get_delete_ne.
Qed.

Lemma Map_set_same_keys {V} (k : string) (v v' : V) (m : list (string * V)) :
  Map_get k m = Some v → (Map_set k v' m).*1 = m.*1.
Proof.
  induction m as [|[k0 v0] m IH]; [done|].
  cbn [Map_get Map_set].
  destruct (decide (k = k0)) as [->|Hne]; [done|].
  intros H. rewrite !fmap_cons. by rewrite IH.
Qed.

Lemma Map_delete_fst {V} (k : string) (m : list (string * V)) :
  (Map_delete k m).*1 = filter (λ k', k' ≠ k) m.*1.
Proof.
  unfold Map_delete. induction m as [|[k0 v0] m IH]; [done|].
  rewrite fmap_cons, !filter_cons. cbn [fst].
  destruct (decide (k0 ≠ k)); rewrite ?fmap_cons; by rewrite IH.
Qed.

Lemma set_active_false_id (w : AppWindow.t) :
  AppWindow.active w = false → AppWindow.set_active false w = w.
Proof. destruct w. simpl. by intros ->. Qed.

(** Demoting leaves no window with the class. *)
Lemma demote_get (this : WindowManager.t) :
  (∀ k w, Map_get k (WindowManager.windows this) = Some w →
     k ≠ EmptyString
     ∧ (AppWindow.active w = true
        ↔ WindowManager.activeWindowId this = Some k)) →
  ∀ k, Map_get k (WindowManager.demote this)
       = AppWindow.set_active false
           <$> Map_get k (WindowManager.windows this).
Proof.
  intros Hw k.
  assert (Hoff : ∀ w, Map_get k (WindowManager.windows this) = Some w →
            WindowManager.activeWindowId this ≠ Some k →
            Some w = Some (AppWindow.set_active false w)).
  { intros w E Hne. rewrite set_active_false_id; [done|].
    destruct (Hw k w E) as [_ Ha].
    destruct (AppWindow.active w); [|done]. destruct Hne. by apply Ha. }
  assert (Hplain : (is_Some (Map_get k (WindowManager.windows this)) →
                    WindowManager.activeWindowId this ≠ Some k) →
            Map_get k (WindowManager.windows this)
            = AppWindow.set_active false
                <$> Map_get k (WindowManager.windows this)).
  { intros Hne.
    destruct (Map_get k (WindowManager.windows this)) as [w|] eqn:E;
      [|done].
    simpl. apply Hoff; [done|]. apply Hne. by exists w. }
  unfold WindowManager.demote.
  destruct (WindowManager.activeWindowId this) as [[|c a]|] eqn:Ea.
  - apply Hplain. intros [w E] [= <-]. by destruct (Hw _ w E) as [? _].
  - destruct (Map_get (String c a) (WindowManager.windows this))
      as [curr|] eqn:Ec.
    + rewrite Map_get_set. destruct (decide (k = String c a)) as [->|Hne].
      * by rewrite Ec.
      * apply Hplain. intros _. congruence.
    + apply Hplain. intros [w E] [= <-]. congruence.
  - by apply Hplain.
Qed.

Lemma demote_keys (this : WindowManager.t) :
  (WindowManager.demote this).*1 = (WindowManager.windows this).*1.
Proof.
  unfold WindowManager.demote.
  destruct (WindowManager.activeWindowId this) as [[|c a]|]; try done.
  destruct (Map_get (String c a) (WindowManager.windows this))
    as [curr|] eqn:Ec; [|done].
  by apply (Map_set_same_keys _ curr).
Qed.

Lemma focusWindow_ready (id : string) (this : WindowManager.t) :
  WindowManager.focus_ready id this →
  WindowManager.inv (WindowManager.focusWindow id this).
Proof.
  intros (Hc & Hkeys & Hid & Hact & Hz & Hst & Hcont & Hne).
  assert (Hd := demote_get this
    (λ k w E, conj (proj2 (Hid k w E)) (Hact k w E))).
  assert (Hk := demote_keys this).
  unfold WindowManager.focusWindow. rewrite decide_False by done.
  destruct (Map_get id (WindowManager.demote this)) as [win|] eqn:E.
  - rewrite Hd in E.
    destruct (Map_get id (WindowManager.windows this)) as [w0|] eqn:E0;
      [|done].
    injection E as <-.
    assert (Hget : ∀ k w,
              Map_get k
                (Map_set id
                   (AppWindow.set_active true
                      (AppWindow.set_zIndex
                         (WindowManager.zIndexCounter this + 1)
                         (AppWindow.set_active false w0)))
                   (WindowManager.demote this)) = Some w →
              (k = id
               ∧ w = AppWindow.set_active true
                       (AppWindow.set_zIndex
                          (WindowManager.zIndexCounter this + 1) w0))
              ∨ (k ≠ id
                 ∧ ∃ w1, Map_get k (WindowManager.windows this) = Some w1
                     ∧ w = AppWindow.set_active false w1)).
    { intros k w. rewrite Map_get_set.
      destruct (decide (k = id)) as [->|Hk'].
      - intros [= <-]. by left.
      - rewrite Hd. intros Hw. right. split; [done|].
        destruct (Map_get k (WindowManager.windows this)) as [w1|];
          [|done].
        injection Hw as <-. by exists w1. }
    split; simpl.
    + lia.
    + apply Map_set_keys. by rewrite Hk.
    + intros k w [[-> ->]|[Hk' (w1 & E1 & ->)]]%Hget; simpl.
      * apply (Hid id w0 E0).
      * apply (Hid k w1 E1).
    + intros k w [[-> ->]|[Hk' (w1 & E1 & ->)]]%Hget; simpl.
      * done.
      * split; [done|]. intros [= ->]. done.
    + intros k w [[-> ->]|[Hk' (w1 & E1 & ->)]]%Hget; simpl.
      * eexists. split; [done|]. split; [lia|done].
      * destruct (Hz k w1 Hk' E1) as (z & Ez & Hr).
        exists z. split; [done|]. split; [lia|]. intros [= ->]. done.
    + intros k1 k2 w1 w2
        [[-> ->]|[Hk1 (u1 & E1 & ->)]]%Hget
        [[-> ->]|[Hk2 (u2 & E2 & ->)]]%Hget; simpl; try done.
      * destruct (Hz k2 u2 Hk2 E2) as (z & -> & Hr). intros [= Heq]. lia.
      * destruct (Hz k1 u1 Hk1 E1) as (z & -> & Hr). intros [= Heq]. lia.
      * by apply (Hst k1 k2 u1 u2).
    + rewrite (Map_set_same_keys id (AppWindow.set_active false w0));
        [by rewrite Hk|].
      by rewrite Hd, E0.
    + done.
  - assert (Hget : ∀ k w,
              Map_get k (WindowManager.demote this) = Some w →
              k ≠ id
              ∧ ∃ w1, Map_get k (WindowManager.windows this) = Some w1
                  ∧ w = AppWindow.set_active false w1).
    { intros k w Hw. split; [intros ->; congruence|].
      rewrite Hd in Hw.
      destruct (Map_get k (WindowManager.windows this)) as [w1|]; [|done].
      injection Hw as <-. by exists w1. }
    split; simpl.
    + done.
    + by rewrite Hk.
    + intros k w [Hk' (w1 & E1 & ->)]%Hget. apply (Hid k w1 E1).
    + intros k w [Hk' (w1 & E1 & ->)]%Hget. simpl.
      split; [done|]. intros [= ->]. done.
    + intros k w [Hk' (w1 & E1 & ->)]%Hget. simpl.
      destruct (Hz k w1 Hk' E1) as (z & Ez & Hr).
      exists z. split; [done|]. split; [done|]. intros [= ->]. done.
    + intros k1 k2 w1 w2 [Hk1 (u1 & E1 & ->)]%Hget
        [Hk2 (u2 & E2 & ->)]%Hget. simpl.
      by apply (Hst k1 k2 u1 u2).
    + by rewrite Hk.
    + done.
Qed.

Lemma focusWindow_inv (id : string) (this : WindowManager.t) :
  WindowManager.inv this →
  WindowManager.inv (WindowManager.focusWindow id this).
Proof.
  intros Hinv.
  destruct (decide (WindowManager.activeWindowId this = Some id)) as [Ha|Ha].
  { unfold WindowManager.focusWindow. by rewrite decide_True. }
  apply focusWindow_ready. destruct Hinv as [H1 H2 H3 H4 H5 H6 H7 H8].
  split; [done|]. split; [done|]. split; [done|]. split; [done|].
  split; [|split; [|done]].
  - intros k w _ E. destruct (H5 k w E) as (z & Ez & Hr & _). by exists z.
  - intros k1 k2 w1 w2 _ _. apply H6.
Qed.

Lemma win_id_nonempty (random : string) : "win-" +:+ random ≠ EmptyString.
Proof. by rewrite string_app_cons. Qed.

Lemma createWindow_inv (random : string) (title icon : option string)
    (this : WindowManager.t) :
  WindowManager.inv this →
  WindowManager.enabled (WindowManager.Create random title icon) this
  = true →
  WindowManager.inv (WindowManager.createWindow random title icon this).
Proof.
  intros [H1 H2 H3 H4 H5 H6 H7 H8] Hen. simpl in Hen.
  apply bool_decide_eq_true_1 in Hen as [Hnew Hne].
  unfold WindowManager.createWindow. apply focusWindow_ready.
  assert (Hget : ∀ k w,
            Map_get k
              (Map_set ("win-" +:+ random)
                 (AppWindow.constructor ("win-" +:+ random) title icon)
                 (WindowManager.windows this)) = Some w →
            (k = "win-" +:+ random
             ∧ w = AppWindow.constructor ("win-" +:+ random) title icon)
            ∨ (k ≠ "win-" +:+ random
               ∧ Map_get k (WindowManager.windows this) = Some w)).
  { intros k w. rewrite Map_get_set.
    destruct (decide (k = "win-" +:+ random)) as [->|Hk].
    - intros [= <-]. by left.
    - intros Hw. by right. }
  split; [done|]. simpl. split; [by apply Map_set_keys|].
  split; [|split; [|split; [|split; [|split; [|done]]]]].
  - intros k w [[-> ->]|[Hk E]]%Hget; simpl.
    + split; [done|]. apply win_id_nonempty.
    + by apply H3.
  - intros k w [[-> ->]|[Hk E]]%Hget; simpl.
    + split; [done|]. intros Ha. by destruct Hne.
    + by apply H4.
  - intros k w Hk [[-> ->]|[_ E]]%Hget; [done|].
    destruct (H5 k w E) as (z & Ez & Hr & _). by exists z.
  - intros k1 k2 w1 w2 Hk1 Hk2 [[-> ->]|[_ E1]]%Hget
      [[-> ->]|[_ E2]]%Hget; try done.
    by apply (H6 k1 k2 w1 w2).
  - rewrite Map_set_fresh by done. rewrite fmap_app. simpl. by rewrite H7.
Qed.

Lemma closeWindow_inv (id : string) (this : WindowManager.t) :
  WindowManager.inv this →
  WindowManager.inv (WindowManager.closeWindow id this).
Proof.
  intros [H1 H2 H3 H4 H5 H6 H7 H8]. unfold WindowManager.closeWindow.
  destruct (Map_get id (WindowManager.windows this)) as [win|] eqn:E;
    [|done].
  assert (Hget : ∀ k w,
            Map_get k (Map_delete id (WindowManager.windows this)) = Some w →
            Map_get k (WindowManager.windows this) = Some w).
  { intros k w. rewrite Map_get_delete. by destruct (decide (k = id)). }
  split; simpl.
  - done.
  - by apply Map_delete_keys.
  - intros k w Hw%Hget. by apply H3.
  - intros k w Hw%Hget. by apply H4.
  - intros k w Hw%Hget. by apply H5.
  - intros k1 k2 w1 w2 Hw1%Hget Hw2%Hget. by apply H6.
  - by rewrite Map_delete_fst, H7.
  - done.
Qed.

Lemma WindowManager_constructor_inv :
  WindowManager.inv WindowManager.constructor.
Proof. split; simpl; try done. apply NoDup_nil_2. Qed.

Lemma WindowManager_handle_inv (e : WindowManager.event)
    (this : WindowManager.t) :
  WindowManager.inv this → WindowManager.enabled e this = true →
  WindowManager.inv (WindowManager.handle e this).
Proof.
  intros Hinv Hen. destruct e; simpl.
  - by apply createWindow_inv.
  - by apply closeWindow_inv.
  - by apply focusWindow_inv.
Qed.

Lemma WindowManager_reachable_inv (this : WindowManager.t) :
  WindowManager.reachable this → WindowManager.inv this.
Proof.
  intros [evs Hrun]. revert Hrun.
  generalize WindowManager.constructor WindowManager_constructor_inv.
  induction evs as [|e evs IH]; intros st Hinv; simpl.
  - by intros [= <-].
  - destruct (WindowManager.enabled e st) eqn:Hen; [|done].
    apply IH. by apply WindowManager_handle_inv.
Qed.

Lemma WindowManager_after_reachable (evs : list WindowManager.event) :
  is_Some (WindowManager.run evs WindowManager.constructor) →
  WindowManager.reachable (WindowManager.after evs).
Proof.
  intros Hrun. exists evs. unfold WindowManager.after.
  by apply default_is_Some.
Qed.

Lemma WindowManager_sample_reachable :
  WindowManager.reachable
    (WindowManager.after WindowManager.sample_events).
Proof.
  apply WindowManager_after_reachable.
  apply (bool_decide_unpack _). vm_compute. exact I.
Qed.

Lemma WindowManager_two_reachable :
  WindowManager.reachable (WindowManager.after WindowManager.two_events).
Proof.
  apply WindowManager_after_reachable.
  apply (bool_decide_unpack _). vm_compute. exact I.
Qed.

Lemma WindowManager_unfocused_reachable :
  WindowManager.reachable
    (WindowManager.after WindowManager.unfocused_events).
Proof.
  apply WindowManager_after_reachable.
  apply (bool_decide_unpack _). vm_compute. exact I.
Qed.

Lemma WindowManager_refocus_reachable :
  WindowManager.reachable
    (WindowManager.after WindowManager.refocus_events).
Proof.
  apply WindowManager_after_reachable.
  apply (bool_decide_unpack _). vm_compute. exact I.
Qed.

(** X23.  At most one window is marked active, and it is the one the
    manager holds as focused: in every state of the manager a window has
    the class [active] if and only if its id is [activeWindowId].  The task
    bar says the same: it has one item per window, in the order of the
    windows, a click on the item focuses that window, and the item is
    highlighted exactly when its window has the class. *)
Theorem wm_one_active_window (this : WindowManager.t) :
  WindowManager.reachable this →
  (∀ k w, Map_get k (WindowManager.windows this) = Some w →
     (AppWindow.active w = true
      ↔ WindowManager.activeWindowId this = Some k))
  ∧ (∀ k1 k2 w1 w2,
       Map_get k1 (WindowManager.windows this) = Some w1 →
       Map_get k2 (WindowManager.windows this) = Some w2 →
       AppWindow.active w1 = true → AppWindow.active w2 = true → k1 = k2)
  ∧ Forall2 (λ kw item,
               TaskItem.target item = kw.1
               ∧ TaskItem.active item = AppWindow.active kw.2)
      (WindowManager.windows this) (WindowManager.taskList this).
Proof.
  intros Hreach.
  destruct (WindowManager_reachable_inv this Hreach)
    as [H1 H2 H3 H4 H5 H6 H7 H8].
  split; [done|]. split.
  - intros k1 k2 w1 w2 E1 E2 A1 A2.
    apply (H4 k1 w1 E1) in A1. apply (H4 k2 w2 E2) in A2. congruence.
  - rewrite H8. unfold WindowManager.task_items.
    apply Forall2_fmap_r, Forall_Forall2_diag, Forall_forall.
    intros [k w] Hin. simpl.
    pose proof (Map_get_elem k w _ H2 Hin) as E.
    destruct (H3 k w E) as [-> _]. split; [done|].
    destruct (AppWindow.active w) eqn:Ea.
    + apply bool_decide_eq_true_2. by apply (H4 _ w E).
    + apply bool_decide_eq_false_2. intros Ha. apply (H4 _ w E) in Ha.
      congruence.
Qed.

Lemma wm_one_active_window_witness :
  WindowManager.reachable (WindowManager.after WindowManager.two_events)
  ∧ (∀ k w,
       Map_get k
         (WindowManager.windows
            (WindowManager.after WindowManager.two_events)) = Some w →
       (AppWindow.active w = true
        ↔ WindowManager.activeWindowId
            (WindowManager.after WindowManager.two_events) = Some k))
  ∧ TaskItem.active
      <$> WindowManager.taskList
            (WindowManager.after WindowManager.two_events)
    = [false; true].
Proof.
  split; [exact WindowManager_two_reachable|].
  split; [|vm_compute; reflexivity].
  exact (proj1 (wm_one_active_window _ WindowManager_two_reachable)).
Defined.

(** X24.  No two open windows ever share a z-index, so the stacking order
    of the windows is determined in every state of the manager, also while
    no window is focused: every open window has a z-index above 100 and
    not above the counter of the manager.  And the focused window is on
    top: while the window that [activeWindowId] names is open, its z-index
    is the counter and every other window has a z-index below it. *)
Theorem wm_focused_window_on_top (this : WindowManager.t) :
  WindowManager.reachable this →
  (∀ k1 k2 w1 w2,
     Map_get k1 (WindowManager.windows this) = Some w1 →
     Map_get k2 (WindowManager.windows this) = Some w2 →
     k1 ≠ k2 → AppWindow.zIndex w1 ≠ AppWindow.zIndex w2)
  ∧ (∀ k w, Map_get k (WindowManager.windows this) = Some w →
       ∃ z, AppWindow.zIndex w = Some z
         ∧ 100 < z ≤ WindowManager.zIndexCounter this)
  ∧ (∀ a w,
       WindowManager.activeWindowId this = Some a →
       Map_get a (WindowManager.windows this) = Some w →
       AppWindow.zIndex w = Some (WindowManager.zIndexCounter this)
       ∧ ∀ k w', k ≠ a →
           Map_get k (WindowManager.windows this) = Some w' →
           ∃ z, AppWindow.zIndex w' = Some z
             ∧ 100 < z < WindowManager.zIndexCounter this).
Proof.
  intros Hreach.
  destruct (WindowManager_reachable_inv this Hreach)
    as [H1 H2 H3 H4 H5 H6 H7 H8].
  split; [|split].
  - intros k1 k2 w1 w2 E1 E2 Hne Heq. apply Hne.
    by apply (H6 k1 k2 w1 w2).
  - intros k w Ew. destruct (H5 k w Ew) as (z & Ez & Hr & _). by exists z.
  - intros a w Ha Ew.
    destruct (H5 a w Ew) as (z & Ez & Hr & Htop).
    specialize (Htop Ha). subst z. split; [done|].
    intros k w' Hk Ew'.
    destruct (H5 k w' Ew') as (z' & Ez' & Hr' & _).
    exists z'. split; [done|].
    assert (z' ≠ WindowManager.zIndexCounter this); [|lia].
    intros ->. apply Hk. apply (H6 k a w' w Ew' Ew). congruence.
Qed.

Lemma wm_focused_window_on_top_witness :
  WindowManager.reachable
    (WindowManager.after WindowManager.refocus_events)
  ∧ WindowManager.activeWindowId
      (WindowManager.after WindowManager.refocus_events)
    = Some "win-a"%string
  ∧ (∃ w,
       Map_get "win-a"
         (WindowManager.windows
            (WindowManager.after WindowManager.refocus_events)) = Some w
       ∧ AppWindow.zIndex w = Some 103)
  ∧ WindowManager.reachable
      (WindowManager.after WindowManager.unfocused_events)
  ∧ ∀ k1 k2 w1 w2,
      Map_get k1
        (WindowManager.windows
           (WindowManager.after WindowManager.unfocused_events)) = Some w1 →
      Map_get k2
        (WindowManager.windows
           (WindowManager.after WindowManager.unfocused_events)) = Some w2 →
      k1 ≠ k2 → AppWindow.zIndex w1 ≠ AppWindow.zIndex w2.
Proof.
  assert (Ha : WindowManager.activeWindowId
                 (WindowManager.after WindowManager.refocus_events)
               = Some "win-a"%string) by (vm_compute; reflexivity).
  assert (Ew : Map_get "win-a"
                 (WindowManager.windows
                    (WindowManager.after WindowManager.refocus_events))
               = Some (AppWindow.set_active true
                         (AppWindow.set_zIndex 103
                            (AppWindow.constructor "win-a" None None))))
    by (vm_compute; reflexivity).
  split; [exact WindowManager_refocus_reachable|]. split; [exact Ha|].
  split.
  - eexists. split; [exact Ew|].
    destruct (wm_focused_window_on_top _ WindowManager_refocus_reachable)
      as (_ & _ & Htop).
    destruct (Htop "win-a" _ Ha Ew) as [Hz _].
    rewrite Hz. vm_compute. reflexivity.
  - split; [exact WindowManager_unfocused_reachable|].
    exact (proj1 (wm_focused_window_on_top _
                    WindowManager_unfocused_reachable)).
Defined.

(** X25.  The windows on the screen, the entries of the manager and the
    items of the task bar are the same at all times and in the same order:
    a window that was opened and not closed is shown once and has one
    item, and a closed window has left the screen, the manager and the task
    bar. *)
Theorem wm_screen_in_sync (this : WindowManager.t) :
  WindowManager.reachable this →
  WindowManager.container this = (WindowManager.windows this).*1
  ∧ TaskItem.target <$> WindowManager.taskList this
    = WindowManager.container this
  ∧ NoDup (WindowManager.container this)
  ∧ ∀ k, k ∈ WindowManager.container this
         ↔ is_Some (Map_get k (WindowManager.windows this)).
Proof.
  intros Hreach.
  destruct (WindowManager_reachable_inv this Hreach)
    as [H1 H2 H3 H4 H5 H6 H7 H8].
  split; [done|]. split; [|split].
  - rewrite H8, H7. unfold WindowManager.task_items.
    rewrite <- list_fmap_compose. apply list_eq_Forall2.
    apply Forall2_fmap, Forall_Forall2_diag, Forall_forall.
    intros [k w] Hin. simpl.
    pose proof (Map_get_elem k w _ H2 Hin) as E.
    by destruct (H3 k w E) as [-> _].
  - by rewrite H7.
  - intros k. rewrite H7. rewrite <- not_eq_None_Some, Map_get_None.
    split; [by intros ? ?|].
    intros Hn. by destruct (decide (k ∈ (WindowManager.windows this).*1)).
Qed.

Lemma wm_screen_in_sync_witness :
  WindowManager.reachable
    (WindowManager.after WindowManager.sample_events)
  ∧ WindowManager.container
      (WindowManager.after WindowManager.sample_events)
    = ["win-b"%string]
  ∧ TaskItem.target
      <$> WindowManager.taskList
            (WindowManager.after WindowManager.sample_events)
    = WindowManager.container
        (WindowManager.after WindowManager.sample_events).
Proof.
  split; [exact WindowManager_sample_reachable|].
  split; [vm_compute; reflexivity|].
  exact (proj1 (proj2 (wm_screen_in_sync _ WindowManager_sample_reachable))).
Defined.

(** X26.  Closing a window focuses no other: [closeWindow] removes the
    window and leaves [activeWindowId], the counter and every other window
    as they were.  So when the focused window is closed, [activeWindowId]
    still names it, and of the windows that remain none is marked active
    and no item of the task bar is highlighted, until the user presses
    one. *)
Theorem wm_close_focuses_nothing (this : WindowManager.t) (id : string) :
  WindowManager.reachable this →
  WindowManager.activeWindowId (WindowManager.closeWindow id this)
  = WindowManager.activeWindowId this
  ∧ WindowManager.zIndexCounter (WindowManager.closeWindow id this)
    = WindowManager.zIndexCounter this
  ∧ Map_get id (WindowManager.windows (WindowManager.closeWindow id this))
    = None
  ∧ (∀ k, k ≠ id →
       Map_get k (WindowManager.windows (WindowManager.closeWindow id this))
       = Map_get k (WindowManager.windows this))
  ∧ (WindowManager.activeWindowId this = Some id →
     (∀ k w,
        Map_get k (WindowManager.windows (WindowManager.closeWindow id this))
        = Some w →
        AppWindow.active w = false)
     ∧ Forall (λ item, TaskItem.active item = false)
         (WindowManager.taskList (WindowManager.closeWindow id this))).
Proof.
  intros Hreach.
  pose proof (WindowManager_reachable_inv this Hreach) as Hinv.
  pose proof (closeWindow_inv id this Hinv) as Hinv'.
  assert (Hget : ∀ k,
            Map_get k
              (WindowManager.windows (WindowManager.closeWindow id this))
            = if decide (k = id) then None
              else Map_get k (WindowManager.windows this)).
  { intros k. unfold WindowManager.closeWindow.
    destruct (Map_get id (WindowManager.windows this)) as [win|] eqn:E;
      simpl.
    - apply Map_get_delete.
    - destruct (decide (k = id)) as [->|]; done. }
  assert (Hact : WindowManager.activeWindowId
                   (WindowManager.closeWindow id this)
                 = WindowManager.activeWindowId this).
  { unfold WindowManager.closeWindow.
    by destruct (Map_get id (WindowManager.windows this)). }
  split; [done|]. split.
  { unfold WindowManager.closeWindow.
    by destruct (Map_get id (WindowManager.windows this)). }
  split; [by rewrite Hget, decide_True|].
  split; [intros k Hk; by rewrite Hget, decide_False|].
  intros Ha.
  assert (Hoff : ∀ k w,
            Map_get k
              (WindowManager.windows (WindowManager.closeWindow id this))
            = Some w → AppWindow.active w = false).
  { intros k w E.
    destruct (AppWindow.active w) eqn:Ew; [|done].
    apply (WindowManager.inv_active _ Hinv' k w E) in Ew.
    rewrite Hact, Ha in Ew. injection Ew as <-.
    by rewrite Hget, decide_True in E. }
  split; [exact Hoff|].
  rewrite (WindowManager.inv_taskList _ Hinv').
  unfold WindowManager.task_items. apply Forall_fmap, Forall_forall.
  intros [k w] Hin. simpl.
  pose proof (Map_get_elem k w _ (WindowManager.inv_keys _ Hinv') Hin) as E.
  apply bool_decide_eq_false_2. intros Heq.
  destruct (WindowManager.inv_id _ Hinv' k w E) as [Hid _].
  rewrite Hid in Heq.
  apply (WindowManager.inv_active _ Hinv' k w E) in Heq.
  rewrite (Hoff k w E) in Heq. done.
Qed.

Lemma wm_close_focuses_nothing_witness :
  WindowManager.reachable (WindowManager.after WindowManager.two_events)
  ∧ WindowManager.activeWindowId
      (WindowManager.after WindowManager.two_events)
    = Some "win-b"%string
  ∧ WindowManager.activeWindowId
      (WindowManager.closeWindow "win-b"
         (WindowManager.after WindowManager.two_events))
    = Some "win-b"%string
  ∧ ∀ k w,
      Map_get k
        (WindowManager.windows
           (WindowManager.closeWindow "win-b"
              (WindowManager.after WindowManager.two_events))) = Some w →
      AppWindow.active w = false.
Proof.
  assert (Ha : WindowManager.activeWindowId
                 (WindowManager.after WindowManager.two_events)
               = Some "win-b"%string) by (vm_compute; reflexivity).
  split; [exact WindowManager_two_reachable|]. split; [exact Ha|].
  destruct (wm_close_focuses_nothing _ "win-b" WindowManager_two_reachable)
    as (H1 & _ & _ & _ & H5).
  split; [by rewrite H1|]. exact (proj1 (H5 Ha)).
Defined.
